(** * sccor: the coroutine kernel of mt.cpp and its diagnostic collaborators

    A shallow embedding of [mt.cpp] (the coroutine storage area, [popCoroutine],
    [cleanup], [cobegin], [coresume], [invoke], [getCoroutineCount]), of
    [kbhit.cpp], of [dump.cpp], of [Histogram] ([histo.cpp], [histo.h]) and,
    from [histospt.cpp], of [TimeIntervalHistogram]'s [tally], [restartTimer],
    [add] and [reset] and of [DisplayHistBins].

    Conventions.
    - A [long] is a [Z]; where the source relies on the 64-bit representation
      (the mark in the high-order byte of a coroutine size) the wrap-around is
      written out with [wrap64], [int8] and [uint8].
    - A [long *] is represented by its distance in longs (not bytes) from the
      start of its object, so that the source's pointer arithmetic reads as
      integer arithmetic.  [csa] and [csavail] are offsets into the static
      array [csa]; [base], [_RSP], [baseMinusSize], [rsp] and [rbp] are
      positions on the thread's stack, counted in longs.
    - The static array and the thread's stack are two distinct objects, each a
      function from positions to longs.
    - The model's [csa] and stack are unbounded where the source has
      [long csa[CSA_SIZE]]: a write at or above [CSA_SIZE] is outside the array
      in the source, so a statement about calls that store into the csa assumes,
      or proves, that [csavail] stays within [CSA_SIZE].  Of the stack the
      model records what the kernel itself copies; what the calls to
      [popCoroutine], [memcpy] and [memmove] push lies below the stack pointer
      that was moved out of the way, and is not recorded.
    - What [printf] and [sprintf] write is the list of the characters
      written. *)

From Stdlib Require Import String Ascii DecimalString.
From Stdlib Require Import ZArith List Lia Bool.
From Stdlib Require Import PrimFloat Uint63.
Import ListNotations.
Open Scope Z_scope.

(** ** Machine integers *)

Definition wrap64 (z : Z) : Z := (z + 2 ^ 63) mod 2 ^ 64 - 2 ^ 63.
Definition int8 (z : Z) : Z := (z + 128) mod 256 - 128.
Definition uint8 (z : Z) : Z := z mod 256.
Definition uint32 (z : Z) : Z := z mod 2 ^ 32.
Definition int32 (z : Z) : Z := (z + 2 ^ 31) mod 2 ^ 32 - 2 ^ 31.

(** ** Memory: an object addressed in longs *)

Definition mem := Z -> Z.

Definition upd (m : mem) (a v : Z) : mem :=
  fun x => if x =? a then v else m x.

(** [blit dm dst sm src n] is [memmove]/[memcpy] of [n] longs from position
    [src] of [sm] to position [dst] of [dm]; the source is read before
    anything is written, as [memmove] does when the regions overlap.  A count
    that is not positive copies nothing (the source never passes one in a
    defined execution). *)
Definition blit (dm : mem) (dst : Z) (sm : mem) (src n : Z) : mem :=
  fun x => if (dst <=? x) && (x <? dst + n) then sm (src + (x - dst)) else dm x.

Definition memmove (m : mem) (dst src n : Z) : mem := blit m dst m src n.

(** The [n] longs found at position [a]. *)
Definition read (m : mem) (a : Z) (n : nat) : list Z :=
  map (fun i => m (a + Z.of_nat i)) (seq 0 n).

(** ** Build-time configuration of mt.cpp *)

Inductive platform := SysV | Cygwin.

Definition CSA_SIZE : Z := 90000.
Definition EXTRA_STACK : Z := 60.
Definition FILLER_VALUE : Z := wrap64 0xffffffffffffffff.
Definition SHADOW_SPACE_VALUE : Z := 0x5555555555555555.
Definition SIZE_MASK : Z := 0x00ffffffffffffff.

Definition IN_REGISTERS_COUNT (pf : platform) : Z :=
  match pf with SysV => 6 | Cygwin => 4 end.
Definition MAGIC_OFFSET (pf : platform) : Z :=
  match pf with SysV => 0x68 | Cygwin => 0x98 end.
Definition CLEANUP_OFFSET (pf : platform) : Z :=
  match pf with SysV => 9 | Cygwin => 13 end.
Definition CLEANUP_RSP_ADJUST : Z := 0x18.
Definition CLEANUP_STACK_ADJUST : Z := 0x38.
Definition COBEGIN_STACK_ADJUST : Z := 0x58.
Definition LONG_COUNT (pf : platform) : Z :=
  match pf with SysV => 2 | Cygwin => 4 end.
Definition sizeof_long : Z := 8.

(** Modelled from the spec: the type [COROUTINE] is declared in sccorlib.h,
    which is not among the sources; a coroutine's entry point is one machine
    word on the 64-bit targets. *)
Definition sizeof_COROUTINE : Z := 8.

(** ** The module variables and the machine context the inline assembly uses *)

Record registers := mkRegs {
  rsp : Z; rbp : Z;
  rdi : Z; rsi : Z; rdx : Z; rcx : Z; r8 : Z; r9 : Z
}.

Record kernel := mkKernel {
  csa : mem;               (* long csa[CSA_SIZE] *)
  csavail : Z;             (* csavail - csa *)
  COBEGIN_EPILOG : Z;      (* Cygwin only *)
  coRBP : Z;               (* macOS only *)
  _size : Z;
  _RSP : Z;
  baseMinusSize : Z;
  base : Z;
  coroutineCount : Z;
  stack : mem;             (* the thread's stack *)
  regs : registers
}.

Definition set_csa (v : mem) (s : kernel) : kernel :=
  mkKernel v (csavail s) (COBEGIN_EPILOG s) (coRBP s) (_size s) (_RSP s)
           (baseMinusSize s) (base s) (coroutineCount s) (stack s) (regs s).
Definition set_csavail (v : Z) (s : kernel) : kernel :=
  mkKernel (csa s) v (COBEGIN_EPILOG s) (coRBP s) (_size s) (_RSP s)
           (baseMinusSize s) (base s) (coroutineCount s) (stack s) (regs s).
Definition set_COBEGIN_EPILOG (v : Z) (s : kernel) : kernel :=
  mkKernel (csa s) (csavail s) v (coRBP s) (_size s) (_RSP s)
           (baseMinusSize s) (base s) (coroutineCount s) (stack s) (regs s).
Definition set_coRBP (v : Z) (s : kernel) : kernel :=
  mkKernel (csa s) (csavail s) (COBEGIN_EPILOG s) v (_size s) (_RSP s)
           (baseMinusSize s) (base s) (coroutineCount s) (stack s) (regs s).
Definition set_size (v : Z) (s : kernel) : kernel :=
  mkKernel (csa s) (csavail s) (COBEGIN_EPILOG s) (coRBP s) v (_RSP s)
           (baseMinusSize s) (base s) (coroutineCount s) (stack s) (regs s).
Definition set_RSP (v : Z) (s : kernel) : kernel :=
  mkKernel (csa s) (csavail s) (COBEGIN_EPILOG s) (coRBP s) (_size s) v
           (baseMinusSize s) (base s) (coroutineCount s) (stack s) (regs s).
Definition set_baseMinusSize (v : Z) (s : kernel) : kernel :=
  mkKernel (csa s) (csavail s) (COBEGIN_EPILOG s) (coRBP s) (_size s) (_RSP s)
           v (base s) (coroutineCount s) (stack s) (regs s).
Definition set_base (v : Z) (s : kernel) : kernel :=
  mkKernel (csa s) (csavail s) (COBEGIN_EPILOG s) (coRBP s) (_size s) (_RSP s)
           (baseMinusSize s) v (coroutineCount s) (stack s) (regs s).
Definition set_coroutineCount (v : Z) (s : kernel) : kernel :=
  mkKernel (csa s) (csavail s) (COBEGIN_EPILOG s) (coRBP s) (_size s) (_RSP s)
           (baseMinusSize s) (base s) v (stack s) (regs s).
Definition set_stack (v : mem) (s : kernel) : kernel :=
  mkKernel (csa s) (csavail s) (COBEGIN_EPILOG s) (coRBP s) (_size s) (_RSP s)
           (baseMinusSize s) (base s) (coroutineCount s) v (regs s).
Definition set_regs (v : registers) (s : kernel) : kernel :=
  mkKernel (csa s) (csavail s) (COBEGIN_EPILOG s) (coRBP s) (_size s) (_RSP s)
           (baseMinusSize s) (base s) (coroutineCount s) (stack s) v.

Definition set_rsp (v : Z) (s : kernel) : kernel :=
  let r := regs s in
  set_regs (mkRegs v (rbp r) (rdi r) (rsi r) (rdx r) (rcx r) (r8 r) (r9 r)) s.
Definition set_rbp (v : Z) (s : kernel) : kernel :=
  let r := regs s in
  set_regs (mkRegs (rsp r) v (rdi r) (rsi r) (rdx r) (rcx r) (r8 r) (r9 r)) s.
Definition set_rdi (v : Z) (s : kernel) : kernel :=
  let r := regs s in
  set_regs (mkRegs (rsp r) (rbp r) v (rsi r) (rdx r) (rcx r) (r8 r) (r9 r)) s.
Definition set_rsi (v : Z) (s : kernel) : kernel :=
  let r := regs s in
  set_regs (mkRegs (rsp r) (rbp r) (rdi r) v (rdx r) (rcx r) (r8 r) (r9 r)) s.
Definition set_rdx (v : Z) (s : kernel) : kernel :=
  let r := regs s in
  set_regs (mkRegs (rsp r) (rbp r) (rdi r) (rsi r) v (rcx r) (r8 r) (r9 r)) s.
Definition set_rcx (v : Z) (s : kernel) : kernel :=
  let r := regs s in
  set_regs (mkRegs (rsp r) (rbp r) (rdi r) (rsi r) (rdx r) v (r8 r) (r9 r)) s.
Definition set_r8 (v : Z) (s : kernel) : kernel :=
  let r := regs s in
  set_regs (mkRegs (rsp r) (rbp r) (rdi r) (rsi r) (rdx r) (rcx r) v (r9 r)) s.
Definition set_r9 (v : Z) (s : kernel) : kernel :=
  let r := regs s in
  set_regs (mkRegs (rsp r) (rbp r) (rdi r) (rsi r) (rdx r) (rcx r) (r8 r) v) s.

(** [*csavail++ = v] *)
Definition push (v : Z) (s : kernel) : kernel :=
  set_csavail (csavail s + 1) (set_csa (upd (csa s) (csavail s) v) s).

Definition push_all (vs : list Z) (s : kernel) : kernel :=
  fold_left (fun k v => push v k) vs s.

(** [va_arg] on the variadic arguments still unread, kept as a list of longs;
    reading past the arguments that were passed is undefined in the source and
    yields 0 here. *)
Definition va_take (n : Z) (va : list Z) : list Z :=
  map (fun i => nth i va 0) (seq 0 (Z.to_nat n)).
Definition va_drop (n : Z) (va : list Z) : list Z := skipn (Z.to_nat n) va.

(** ** mt.cpp *)

(** Where control goes when a kernel routine is left. *)
Inductive control :=
| Resume (pc : Z)      (* popCoroutine's [ret] enters a coroutine at [pc] *)
| ReturnToHost         (* cleanup leaves through cobegin's epilogue *)
| ReturnToCaller.      (* an ordinary return *)

(** [setBase].  It is entered by a call from [cobegin]: the return address and
    then [cobegin]'s [rbp] are pushed and [rbp] takes the resulting stack
    pointer, which is what lets the source read [*base] as cobegin's rbp. *)
Definition setBase (pf : platform) (s : kernel) : kernel :=
  let fp := rsp (regs s) - 2 in
  let s := set_stack (upd (stack s) fp (rbp (regs s))) s in
  let s := set_base fp s in                         (* movq %rbp, base *)
  match pf with
  | SysV => set_coRBP (stack s (base s)) s          (* coRBP = *base *)
  | Cygwin => s
  end.

(** The [switch ( mark )] of [popCoroutine]: every case falls through to the
    next one, so entering at [mark] loads the registers of the cases
    [mark], [mark - 1], ..., 1, stepping [p] down between them. *)
Definition load_registers (pf : platform) (mark p : Z) (s : kernel) : kernel :=
  let c := csa s in
  match pf with
  | SysV =>
      let '(s, p) := if mark =? 6
                     then (set_r9 (c p) s, p - 1) else (s, p) in
      let '(s, p) := if (5 <=? mark) && (mark <=? 6)
                     then (set_r8 (c p) s, p - 1) else (s, p) in
      let '(s, p) := if (4 <=? mark) && (mark <=? 6)
                     then (set_rcx (c p) s, p - 1) else (s, p) in
      let '(s, p) := if (3 <=? mark) && (mark <=? 6)
                     then (set_rdx (c p) s, p - 1) else (s, p) in
      let '(s, p) := if (2 <=? mark) && (mark <=? 6)
                     then (set_rsi (c p) s, p - 1) else (s, p) in
      if (1 <=? mark) && (mark <=? 6) then set_rdi (c p) s else s
  | Cygwin =>
      let '(s, p) := if mark =? 4
                     then (set_r9 (c p) s, p - 1) else (s, p) in
      let '(s, p) := if (3 <=? mark) && (mark <=? 4)
                     then (set_r8 (c p) s, p - 1) else (s, p) in
      let '(s, p) := if (2 <=? mark) && (mark <=? 4)
                     then (set_rdx (c p) s, p - 1) else (s, p) in
      if (1 <=? mark) && (mark <=? 4) then set_rcx (c p) s else s
  end.

(** Offset from [baseMinusSize] of the place the excess parameters are moved
    to: [baseMinusSize + 4] on macOS, [baseMinusSize + 6 + 4] on Cygwin. *)
Definition excess_home (pf : platform) : Z :=
  match pf with SysV => 4 | Cygwin => 6 + 4 end.

Definition popCoroutine (pf : platform) (s : kernel) : kernel :=
  let s := set_csavail (csavail s - 1) s in
  let s := set_size (csa s (csavail s)) s in        (* _size = *--csavail *)
  let p := csavail s - 1 in
  let virgin := _size s <? 0 in
  let mark := if virgin
              then int8 (Z.land (int8 (Z.shiftr (_size s) 56)) 0x7F)
              else 0 in
  let s := if virgin then set_size (Z.land (_size s) SIZE_MASK) s else s in
  let s := set_baseMinusSize (base s - _size s - 2) s in
  let s := set_csavail (csavail s - _size s) s in
  let s := set_RSP (baseMinusSize s - MAGIC_OFFSET pf / sizeof_long) s in
  let s := set_stack (blit (stack s) (baseMinusSize s)
                           (csa s) (csavail s) (_size s)) s in
  let s :=
    if mark >? 0 then
      let p := if negb (Z.rem mark 2 =? 0) then p - 1 else p in
      let first_p := p in
      let excessCount := int8 (mark - IN_REGISTERS_COUNT pf) in
      let '(mark, p) := if mark >? IN_REGISTERS_COUNT pf
                        then (IN_REGISTERS_COUNT pf, p - excessCount)
                        else (mark, p) in
      let s := if excessCount >? 0
               then set_stack (blit (stack s) (baseMinusSize s + excess_home pf)
                                    (csa s) (first_p - excessCount + 1)
                                    excessCount) s
               else s in
      load_registers pf mark p s
    else s in
  set_rsp (_RSP s) s.                               (* movq _RSP, %rsp *)

(** The callee-saved registers Clang restores before [rbp] in the epilogue of
    [popCoroutine] (and of [cobegin] and [coresume]): rbx, and on Cygwin rdi
    and rsi as well. *)
Definition saved_registers (pf : platform) : Z :=
  match pf with SysV => 1 | Cygwin => 3 end.

(** Clang's epilogue of [popCoroutine], as the source documents it: the stack
    pointer moves back up by [MAGIC_OFFSET], then
    [pop %rbx] ([pop %rdi], [pop %rsi] on Cygwin, in the order of the
    placeholders a new coroutine is given), [pop %rbp], [ret]. *)
Definition epilogue (pf : platform) (s : kernel) : control * kernel :=
  let sp := rsp (regs s) + MAGIC_OFFSET pf / sizeof_long in
  let s := match pf with
           | SysV => s
           | Cygwin => set_rsi (stack s (sp + 2)) (set_rdi (stack s (sp + 1)) s)
           end in
  let sp := sp + saved_registers pf in
  let s := set_rbp (stack s sp) s in
  let pc := stack s (sp + 1) in
  (Resume pc, set_rsp (sp + 2) s).

(** Shared by [cleanup], [cobegin] and [coresume]: read the size of the
    coroutine on top of the csa, move the stack pointer out of the way, call
    [popCoroutine] and leave through its epilogue.  The call itself and the
    calls [popCoroutine] makes push their return addresses and frames below
    the stack pointer that was moved, in the [EXTRA_STACK] longs kept free
    under the incoming coroutine; [stack] does not record them, so it is
    exact from the place of the incoming coroutine upwards only. *)
Definition switch_to_top (pf : platform) (s : kernel) : control * kernel :=
  let s := set_size (csa s (csavail s - 1)) s in
  let s := set_size (Z.land (_size s) SIZE_MASK) s in
  let s := set_RSP (rsp (regs s)) s in              (* movq %rsp, _RSP *)
  let s := set_RSP (_RSP s - (_size s + EXTRA_STACK)) s in
  let s := set_rsp (_RSP s) s in                    (* movq _RSP, %rsp *)
  epilogue pf (popCoroutine pf s).

Definition cleanup (pf : platform) (s : kernel) : control * kernel :=
  let s := set_coroutineCount (coroutineCount s - 1) s in
  if coroutineCount s =? 0 then
    match pf with
    | Cygwin => (ReturnToHost, set_rsp (COBEGIN_EPILOG s) s)
    | SysV =>
        let s := set_RSP (coRBP s - CLEANUP_RSP_ADJUST / sizeof_long - 1) s in
        (ReturnToHost, set_rsp (_RSP s) s)
    end
  else switch_to_top pf s.

(** The parameters of a new coroutine and the filler that follows them. *)
Definition push_parameters (argCount : Z) (va : list Z) (fillerCount : Z)
                           (s : kernel) : kernel * Z :=
  if argCount >? 0 then
    let s := push_all (va_take argCount va) s in
    if Z.rem argCount 2 =? 1
    then (push FILLER_VALUE s, fillerCount + 1)
    else (s, fillerCount)
  else if argCount =? 0 then
    (push FILLER_VALUE (push FILLER_VALUE s), fillerCount + 2)
  else (s, fillerCount).

(** The part of a new coroutine below its parameters: the register
    placeholders, [base], the coroutine's address, the return address into
    [cleanup] and, on Cygwin, the shadow space (counted in [fillerCount]). *)
Definition push_frame_head (pf : platform) (cleanup_fn coroutine : Z)
                           (s : kernel) : kernel * Z :=
  let s := push 0 s in
  let s := match pf with SysV => s | Cygwin => push 0 (push 0 s) end in
  let s := push (base s) s in
  let s := push coroutine s in
  let s := push (cleanup_fn + CLEANUP_OFFSET pf) s in
  match pf with
  | SysV => (s, 0)
  | Cygwin =>
      (push SHADOW_SPACE_VALUE (push SHADOW_SPACE_VALUE
         (push SHADOW_SPACE_VALUE (push SHADOW_SPACE_VALUE s))), 4)
  end.

(** [coroutineSize] with its mark in the high-order byte. *)
Definition marked_size (pf : platform) (argCount fillerCount : Z) : Z :=
  let coroutineSize :=
    wrap64 (argCount + fillerCount
            + (sizeof_long * LONG_COUNT pf + sizeof_COROUTINE * 2) / sizeof_long) in
  let mark := uint8 (Z.lor 0x80 argCount) in
  Z.lor coroutineSize (wrap64 (Z.shiftl mark 56)).

(** One turn of the [while ( n-- )] loop of [cobegin]; [argCount] and
    [fillerCount] are [int8_t] there. *)
Definition cobegin_spawn (pf : platform) (cleanup_fn : Z) (va : list Z)
                         (s : kernel) : list Z * kernel :=
  let coroutine := hd 0 va in
  let va := tl va in
  let '(s, fillerCount) := push_frame_head pf cleanup_fn coroutine s in
  let argCount := int8 (hd 0 va) in
  let va := tl va in
  let '(s, fillerCount) := push_parameters argCount va fillerCount s in
  let va := if argCount >? 0 then va_drop argCount va else va in
  let s := push (marked_size pf argCount (int8 fillerCount)) s in
  (va, set_coroutineCount (coroutineCount s + 1) s).

Fixpoint cobegin_loop (pf : platform) (cleanup_fn : Z) (n : nat)
                      (va : list Z) (s : kernel) : kernel :=
  match n with
  | O => s
  | S n' =>
      let '(va, s) := cobegin_spawn pf cleanup_fn va s in
      cobegin_loop pf cleanup_fn n' va s
  end.

(** The start of [cobegin]: [setBase()] and the address of the saved rbx at
    the top of cobegin's epilog.  The source computes [COBEGIN_EPILOG] outside
    any [#if], although it declares the variable and the two constants for
    Cygwin only; [cleanup] reads it on Cygwin only. *)
Definition cobegin_start (pf : platform) (s : kernel) : kernel :=
  let s := setBase pf s in
  let s := set_COBEGIN_EPILOG (rsp (regs s)) s in    (* movq %rsp, %0 *)
  set_COBEGIN_EPILOG
    (COBEGIN_EPILOG s
     + (COBEGIN_STACK_ADJUST - CLEANUP_STACK_ADJUST) / sizeof_long) s.

(** [cobegin( n, ... )]; [va] holds the variadic arguments. *)
Definition cobegin (pf : platform) (cleanup_fn : Z) (n : nat) (va : list Z)
                   (s : kernel) : control * kernel :=
  let s := cobegin_loop pf cleanup_fn n va (cobegin_start pf s) in
  if coroutineCount s >? 0 then switch_to_top pf s
  else (ReturnToCaller, s).

(** [_BPX] in [coresume]: [_BPX -= -1] on Cygwin, [_BPX -= 1] elsewhere. *)
Definition BPX (pf : platform) (rbp_live : Z) : Z :=
  match pf with
  | Cygwin => rbp_live - (-1)
  | SysV => rbp_live - 1
  end.

(** The first half of [coresume]: the running coroutine is put at the bottom
    of the csa. *)
Definition store_running (pf : platform) (s : kernel) : kernel :=
  let _BPX := BPX pf (rbp (regs s)) in              (* movq %rbp, _BPX *)
  let s := set_size (base s - 2 - _BPX) s in
  let s := set_csa (memmove (csa s) (_size s + 1) 0 (csavail s)) s in
  let s := set_csavail (csavail s + _size s + 1) s in
  let s := set_csa (blit (csa s) 0 (stack s) _BPX (_size s)) s in
  set_csa (upd (csa s) (_size s) (_size s)) s.      (* csa[_size] = _size *)

Definition coresume (pf : platform) (s : kernel) : control * kernel :=
  if coroutineCount s >? 1 then switch_to_top pf (store_running pf s)
  else (ReturnToCaller, s).

Definition getCoroutineCount (s : kernel) : Z := coroutineCount s.

(** [invoke( coroutine, argCount, ... )]; [va] holds the variadic arguments. *)
Definition invoke (pf : platform) (cleanup_fn : Z) (coroutine argCount : Z)
                  (va : list Z) (s : kernel) : kernel :=
  let '(s, fillerCount) := push_frame_head pf cleanup_fn coroutine s in
  let '(s, fillerCount) := push_parameters argCount va fillerCount s in
  let s := push (marked_size pf argCount fillerCount) s in
  set_coroutineCount (coroutineCount s + 1) s.

(** ** The kernel's surroundings: what coroutines see and do *)

(** The [i]-th parameter (from 0) of a function that has just been entered
    with the stack pointer on its return address: the ABI's argument
    registers first, then the stack, immediately above the return slot on
    System V and immediately above the four longs of shadow space on x64. *)
Definition parameter (pf : platform) (s : kernel) (i : nat) : Z :=
  let r := regs s in
  match pf with
  | SysV =>
      match i with
      | 0%nat => rdi r | 1%nat => rsi r | 2%nat => rdx r
      | 3%nat => rcx r | 4%nat => r8 r | 5%nat => r9 r
      | _ => stack s (rsp r + 1 + (Z.of_nat i - 6))
      end
  | Cygwin =>
      match i with
      | 0%nat => rcx r | 1%nat => rdx r | 2%nat => r8 r | 3%nat => r9 r
      | _ => stack s (rsp r + 1 + 4 + (Z.of_nat i - 4))
      end
  end.

(** A coroutine returns: [ret] takes the address under the stack pointer. *)
Definition coroutine_returns (s : kernel) : Z * kernel :=
  (stack s (rsp (regs s)), set_rsp (rsp (regs s) + 1) s).

(** Coroutines that return as soon as they are entered: the list of entry
    points given control, in order, and where control ends up.  Each return
    must land on [cleanup + CLEANUP_OFFSET] for the run to go on. *)
Fixpoint run_returning (pf : platform) (cleanup_fn : Z) (fuel : nat)
                       (c : control) (s : kernel) : list Z * control * kernel :=
  match c, fuel with
  | Resume pc, S fuel' =>
      let '(ra, s1) := coroutine_returns s in
      if ra =? cleanup_fn + CLEANUP_OFFSET pf then
        let '(c', s2) := cleanup pf s1 in
        let '(t, c'', s3) := run_returning pf cleanup_fn fuel' c' s2 in
        (pc :: t, c'', s3)
      else ([pc], Resume ra, s1)
  | _, _ => ([], c, s)
  end.

(** The variadic arguments of [cobegin] for coroutines given as pairs of an
    entry point and its parameters. *)
Definition cobegin_args (l : list (Z * list Z)) : list Z :=
  flat_map (fun ea => fst ea :: Z.of_nat (length (snd ea)) :: snd ea) l.

(** The raw counts the loop of [cobegin] reads from its arguments. *)
Fixpoint va_counts (n : nat) (va : list Z) : list Z :=
  match n with
  | O => []
  | S n' =>
      let c := hd 0 (tl va) in
      c :: va_counts n' (if int8 c >? 0 then va_drop (int8 c) (tl (tl va))
                         else tl (tl va))
  end.

(** [m] with the longs [l] written from position [a] upwards. *)
Definition write_list (m : mem) (a : Z) (l : list Z) : mem :=
  fun x => if (a <=? x) && (x <? a + Z.of_nat (length l))
           then nth (Z.to_nat (x - a)) l 0 else m x.

(** The value of [rbp] inside [coresume] for which [_BPX] is [start]. *)
Definition rbp_for (pf : platform) (start : Z) : Z :=
  match pf with SysV => start + 1 | Cygwin => start - 1 end.

(** The running coroutine reaches [coresume] with [frame] as the content of
    the stack from [_BPX] up to [base - 2]. *)
Definition calls_coresume (pf : platform) (frame : list Z) (s : kernel) : kernel :=
  let start := base s - 2 - Z.of_nat (length frame) in
  let s := set_stack (write_list (stack s) start frame) s in
  set_rbp (rbp_for pf start) (set_rsp start s).

(** The frame [popCoroutine] has just put on the stack. *)
Definition restored_frame (s : kernel) : list Z :=
  read (stack s) (baseMinusSize s) (Z.to_nat (_size s)).

(** A ring whose coroutines keep yielding: a coroutine given control at [pc]
    runs and calls [coresume] with the frame [body pc s].  The result lists
    the addresses at which control was given, in order. *)
Fixpoint ring_run (pf : platform) (body : Z -> kernel -> list Z) (fuel : nat)
                  (c : control) (s : kernel) : list Z :=
  match c, fuel with
  | Resume pc, S fuel' =>
      let cs := coresume pf (calls_coresume pf (body pc s) s) in
      pc :: ring_run pf body fuel' (fst cs) (snd cs)
  | _, _ => []
  end.

(** The sizes of the coroutines stored in the csa, read the way the kernel
    reads them: the size of the topmost one sits under [csavail], and under
    each coroutine comes the size of the next. *)
Fixpoint walk (fuel : nat) (c : mem) (cur : Z) : list Z :=
  match fuel with
  | O => []
  | S fuel' =>
      if cur <=? 0 then []
      else let size := Z.land (c (cur - 1)) SIZE_MASK in
           size :: walk fuel' c (cur - 1 - size)
  end.

Definition image_sizes (s : kernel) : list Z :=
  walk (Z.to_nat (csavail s)) (csa s) (csavail s).

Definition sum (l : list Z) : Z := fold_right Z.add 0 l.

(** Who runs: the host (no ring is running) or a coroutine of a ring. *)
Inductive mode := InHost | InRing.

Definition mode_after (c : control) : mode :=
  match c with Resume _ => InRing | _ => InHost end.

(** The states the kernel goes through.  It starts with an empty csa; the
    host or the running coroutine changes the stack and the registers at
    will between kernel calls; [invoke] may be called at any time, [cobegin]
    by the host, [coresume] by a coroutine, and [cleanup] runs when a
    coroutine returns.  Every call stays within the csa, argument counts are
    within the seven bits the mark keeps for them (0 to 127), and the
    yielding frame does not reach above [base - 2]. *)
Inductive reachable (pf : platform) (cleanup_fn : Z) : mode -> kernel -> Prop :=
| reach_start s :
    csavail s = 0 -> coroutineCount s = 0 ->
    reachable pf cleanup_fn InHost s
| reach_user m s st r :
    reachable pf cleanup_fn m s ->
    reachable pf cleanup_fn m (set_regs r (set_stack st s))
| reach_invoke m s coroutine argCount va :
    reachable pf cleanup_fn m s ->
    0 <= argCount <= 127 ->
    csavail (invoke pf cleanup_fn coroutine argCount va s) <= CSA_SIZE ->
    reachable pf cleanup_fn m (invoke pf cleanup_fn coroutine argCount va s)
| reach_cobegin s n va :
    reachable pf cleanup_fn InHost s ->
    Forall (fun c => 0 <= c <= 127) (va_counts n va) ->
    csavail (cobegin_loop pf cleanup_fn n va (cobegin_start pf s)) <= CSA_SIZE ->
    reachable pf cleanup_fn (mode_after (fst (cobegin pf cleanup_fn n va s)))
              (snd (cobegin pf cleanup_fn n va s))
| reach_coresume s :
    reachable pf cleanup_fn InRing s ->
    0 <= base s - 2 - BPX pf (rbp (regs s)) ->
    csavail s + (base s - 2 - BPX pf (rbp (regs s))) + 1 <= CSA_SIZE ->
    reachable pf cleanup_fn InRing (snd (coresume pf s))
| reach_cleanup s :
    reachable pf cleanup_fn InRing s ->
    reachable pf cleanup_fn (mode_after (fst (cleanup pf s)))
              (snd (cleanup pf s)).

(** ** kbhit.cpp *)

(** What [select( 1, &read_fd, NULL, NULL, &tv )] answers: -1, or the
    descriptors found readable (only stdin was asked for). *)
Inductive select_result :=
| SelectFailed
| SelectDone (stdin_readable : bool).

(** [kbhit] with what it returns and the lines it writes to standard
    output. *)
Definition kbhit (r : select_result) : Z * list string :=
  match r with
  | SelectFailed => (0, [])                 (* An error occured *)
  | SelectDone true => (1, [])              (* Character pending on stdin *)
  | SelectDone false => (0, [])             (* no characters were pending *)
  end.

(** ** histo.cpp *)

Definition OVERN_TRACE_COUNT : nat := 10.

Record Histogram := mkHistogram {
  overN : list Z;
  overValueN : list Z;
  overTSN : list Z;
  countsPerBin : Z;
  nBins : Z;
  minBin : Z;
  minData : Z;
  maxData : Z;
  maxFreq : Z;
  n : Z;                         (* unsigned int *)
  summation : float;             (* double *)
  binVector : list Z             (* nBins + 2 counters *)
}.

Definition double_of_Z (z : Z) : float :=
  if z <? 0 then PrimFloat.opp (PrimFloat.of_uint63 (Uint63.of_Z (- z)))
  else PrimFloat.of_uint63 (Uint63.of_Z z).

Fixpoint set_nth (i : nat) (v : Z) (l : list Z) : list Z :=
  match l, i with
  | [], _ => []
  | _ :: t, O => v :: t
  | x :: t, S i' => x :: set_nth i' v t
  end.

(** The standard constructor (the allocation is assumed to succeed, which
    needs [bins + 18] not to be negative; the loop that clears the counters
    is the source's for [0 <= bins + 2]).  The constructor leaves
    [overValueN] and [overTSN] as the memory happens to be; they start at 0
    here, and no statement depends on what they start with. *)
Definition Histogram_new (min countsPer bins : Z) : Histogram :=
  mkHistogram (repeat 0 OVERN_TRACE_COUNT) (repeat 0 OVERN_TRACE_COUNT)
              (repeat 0 OVERN_TRACE_COUNT)
              countsPer (uint32 bins) min
              (uint32 (min + countsPer * bins)) min 0 0 PrimFloat.zero
              (repeat 0 (Z.to_nat (bins + 2))).

(** The loop of [Add] that records the first [OVERN_TRACE_COUNT] samples that
    went over: the first free entry takes the sample (and, built without
    THE_TEST_BUILD, the time stamp 0). *)
Fixpoint first_free (l : list Z) : option nat :=
  match l with
  | [] => None
  | x :: t => if x =? 0 then Some O else option_map S (first_free t)
  end.

(** [Add].  The division is the source's unsigned division for a bin width
    that is not 0 (the source traps on 0, [Z] division gives 0), and
    [binVector[targetBin]] is the source's access for an index within the
    [nBins + 2] counters ([set_nth] and [nth] do nothing outside them): the
    statements about [Add] are made for [histogram_parameters]. *)
Definition Add (data : Z) (h : Histogram) : Histogram :=
  let targetBin :=
    if data >=? minBin h
    then uint32 (uint32 (data - minBin h) / countsPerBin h + 1)
    else 0 in
  let over := targetBin >? nBins h in
  let targetBin := if over then uint32 (nBins h + 1) else targetBin in
  let '(oN, oV, oT) :=
    if over then
      match first_free (overN h) with
      | Some i => (set_nth i (uint32 (n h + 1)) (overN h),
                   set_nth i data (overValueN h),
                   set_nth i 0 (overTSN h))
      | None => (overN h, overValueN h, overTSN h)
      end
    else (overN h, overValueN h, overTSN h) in
  let count := uint32 (nth (Z.to_nat targetBin) (binVector h) 0 + 1) in
  let bins := set_nth (Z.to_nat targetBin) count (binVector h) in
  let freq := if count >? maxFreq h then count else maxFreq h in
  let '(lo, hi) :=
    if data <? minData h then (data, maxData h)
    else if data >? maxData h then (minData h, data)
    else (minData h, maxData h) in
  mkHistogram oN oV oT (countsPerBin h) (nBins h) (minBin h) lo hi freq
              (uint32 (n h + 1))
              (PrimFloat.add (summation h) (double_of_Z data))
              bins.

(** The two ways through [MeanValue]: the quotient [summation / int( n )]
    with its operands, or the constant 0.0. *)
Inductive mean_path :=
| Quotient (dividend : float) (divisor : Z)
| Zero.

Definition MeanValue_path (h : Histogram) : mean_path :=
  if n h >? 0 then Quotient (summation h) (int32 (n h)) else Zero.

Definition MeanValue (h : Histogram) : float :=
  match MeanValue_path h with
  | Quotient x d => PrimFloat.div x (double_of_Z d)
  | Zero => PrimFloat.zero
  end.

(** [l] with its first [k] elements set to 0. *)
Definition zero_first (k : nat) (l : list Z) : list Z :=
  repeat 0 (Nat.min k (length l)) ++ skipn k l.

(** [Reset]: its loops write the counters 0 to [nBins + 1] and the
    [OVERN_TRACE_COUNT] entries of [overN]; [overValueN] and [overTSN] are
    left as they are. *)
Definition Reset (h : Histogram) : Histogram :=
  mkHistogram (repeat 0 OVERN_TRACE_COUNT) (overValueN h) (overTSN h)
              (countsPerBin h) (nBins h) (minBin h)
              (uint32 (minBin h + countsPerBin h * nBins h)) (minBin h) 0 0
              PrimFloat.zero
              (zero_first (Z.to_nat (uint32 (nBins h + 2))) (binVector h)).

(** The accessors of histo.h. *)
Definition NValues (h : Histogram) : Z := n h.
Definition MinValue (h : Histogram) : Z := minData h.
Definition MaxValue (h : Histogram) : Z := maxData h.
Definition MinBin (h : Histogram) : Z := minBin h.
Definition CountsPerBin (h : Histogram) : Z := countsPerBin h.
Definition NBins (h : Histogram) : Z := int32 (nBins h).
Definition MaxBinCount (h : Histogram) : Z := maxFreq h.

(** [BinCount( int binNumber )]; the comparison is made on
    [(unsigned int) binNumber] and the unsigned sum [nBins + 1]. *)
Definition BinCount (binNumber : Z) (h : Histogram) : Z :=
  if (binNumber >=? 0) && (uint32 binNumber <=? uint32 (nBins h + 1))
  then nth (Z.to_nat binNumber) (binVector h) 0
  else 0.

(** ** histospt.cpp *)

(** What [gettimeofday] answers: 0 with the time stored, or a failure with
    [errno] set and the [timeval] left as it was. *)
Inductive gettimeofday_result :=
| TimeIs (tv_sec tv_usec : Z)
| TimeFailed (errno : Z).

(** The members of [TimeIntervalHistogram] that [tally] uses. *)
Record TimeIntervalHistogram := mkTIH {
  histogram : Histogram;         (* the base class *)
  firstTime : bool;
  tvPrevTimeValue : Z * Z;       (* tv_sec, tv_usec *)
  tvNextTimeValue : Z * Z
}.

(** The line [tally] prints when [gettimeofday] fails. *)
Definition gettimeofday_failed (errno : Z) : string :=
  ("gettimeofday failed: errno is "
     ++ DecimalString.NilZero.string_of_int (Z.to_int errno))%string.

Definition uDelta (next prev : Z * Z) : Z :=
  wrap64 ((fst next - fst prev) * 1000000 + snd next - snd prev).

(** [tally] with the lines it writes to standard output (built without
    THE_TEST_BUILD, which would pass the same line to RRTLog as well). *)
Definition tally (g : gettimeofday_result) (t : TimeIntervalHistogram)
  : TimeIntervalHistogram * list string :=
  if firstTime t then
    match g with
    | TimeIs sec usec =>
        (mkTIH (histogram t) false (sec, usec) (tvNextTimeValue t), [])
    | TimeFailed errno =>
        (mkTIH (histogram t) false (tvPrevTimeValue t) (tvNextTimeValue t),
         [gettimeofday_failed errno])
    end
  else
    let '(next, out) :=
      match g with
      | TimeIs sec usec => ((sec, usec), [])
      | TimeFailed errno => (tvNextTimeValue t, [gettimeofday_failed errno])
      end in
    let h := Add (uint32 (uDelta next (tvPrevTimeValue t))) (histogram t) in
    (mkTIH h false next next, out).

(** The constructor; [prev] and [next] stand for what the two [timeval]
    members, which it does not initialise, happen to hold. *)
Definition TimeIntervalHistogram_new (min countsPer bins : Z)
                                     (prev next : Z * Z)
  : TimeIntervalHistogram :=
  mkTIH (Histogram_new min countsPer bins) true prev next.

(** [restartTimer]: the result of [gettimeofday] is not looked at. *)
Definition restartTimer (g : gettimeofday_result) (t : TimeIntervalHistogram)
  : TimeIntervalHistogram :=
  match g with
  | TimeIs sec usec =>
      mkTIH (histogram t) (firstTime t) (sec, usec) (tvNextTimeValue t)
  | TimeFailed _ => t
  end.

(** [add] and [reset] pass on to the base class. *)
Definition add (data : Z) (t : TimeIntervalHistogram) : TimeIntervalHistogram :=
  mkTIH (Add data (histogram t)) (firstTime t)
        (tvPrevTimeValue t) (tvNextTimeValue t).
Definition reset (t : TimeIntervalHistogram) : TimeIntervalHistogram :=
  mkTIH (Reset (histogram t)) (firstTime t)
        (tvPrevTimeValue t) (tvNextTimeValue t).

(** ** What printf writes *)

(** What [printf] and [sprintf] write is kept as the list of the characters
    written. *)
Definition text := list ascii.

(** [printf]'s conversion of an unsigned number: its digits in the base and
    with the figures of [alphabet], most significant first and without
    leading zeros; [fuel] is the greatest number of digits the type has. *)
Fixpoint number (alphabet : text) (fuel : nat) (v : Z) (acc : text) : text :=
  match fuel with
  | O => acc
  | S fuel' =>
      let b := Z.of_nat (length alphabet) in
      let acc := nth (Z.to_nat (v mod b)) alphabet "0"%char :: acc in
      if v / b =? 0 then acc else number alphabet fuel' (v / b) acc
  end.

(** A field width: the text right-justified in [width] columns. *)
Definition justify (width : nat) (t : text) : text :=
  repeat " "%char (width - length t) ++ t.

(** ** dump.cpp *)

(** Memory addressed in bytes; a pointer is its [unsigned long] value. *)
Definition bytes := Z -> Byte.byte.

Definition byte_value (b : Byte.byte) : Z := Z.of_N (Byte.to_N b).

Definition lower_hex : text := list_ascii_of_string "0123456789abcdef".

(** [%lx] of an [unsigned long] and [%12lx]. *)
Definition printf_lx (v : Z) : text := number lower_hex 16 v [].
Definition printf_12lx (v : Z) : text := justify 12 (printf_lx v).

Definition hex_digit (d : Z) : ascii := nth (Z.to_nat d) lower_hex "0"%char.

(** [%02x] of a byte. *)
Definition printf_02x (b : Byte.byte) : text :=
  [hex_digit (byte_value b / 16); hex_digit (byte_value b mod 16)].

(** The test that [p] lies in the region asked for:
    [p >= pMemory && p < pMemory + size]. *)
Definition shown (pMemory size p : Z) : bool :=
  (p >=? pMemory) && (p <? pMemory + size).

Definition hex_cell (m : bytes) (pMemory size p : Z) : text :=
  if shown pMemory size p then printf_02x (m p)
  else list_ascii_of_string "  ".

Definition char_cell (m : bytes) (pMemory size p : Z) : text :=
  if shown pMemory size p then
    if byte_value (m p) <? 0x20 then list_ascii_of_string "."
    else [ascii_of_byte (m p)]                        (* %c *)
  else list_ascii_of_string " ".

(** The blank written before the columns 4, 8 and 12. *)
Definition gap (k : Z) : text :=
  if (k =? 4) || (k =? 8) || (k =? 12) then list_ascii_of_string " " else [].

Definition dataBytesDisplayedPerLine : Z := 16.

(** One of the two inner loops: [p] runs from [pMem] to [pMem + 16]. *)
Definition cells (cell : Z -> text) (pMem : Z) : text :=
  flat_map (fun k => gap (Z.of_nat k) ++ cell (pMem + Z.of_nat k))
           (seq 0 (Z.to_nat dataBytesDisplayedPerLine)).

Definition newline : text := ["010"%char].

(** One turn of the outer loop. *)
Definition dump_line (m : bytes) (pMemory size pMem pShow : Z) : text :=
  printf_12lx pShow ++ list_ascii_of_string "  "
  ++ cells (hex_cell m pMemory size) pMem
  ++ list_ascii_of_string "  "
  ++ cells (char_cell m pMemory size) pMem
  ++ newline.

(** The outer loop; each turn moves [pMem] and [pShow] up by 16. *)
Fixpoint dump_lines (fuel : nat) (m : bytes) (pMemory size pMem pShow : Z)
  : list text :=
  match fuel with
  | O => []
  | S fuel' =>
      if pMem <? pMemory + size
      then dump_line m pMemory size pMem pShow
           :: dump_lines fuel' m pMemory size
                         (pMem + dataBytesDisplayedPerLine)
                         (pShow + dataBytesDisplayedPerLine)
      else []
  end.

Definition dump_header : text :=
  newline
  ++ list_ascii_of_string "               0 1 2 3  4 5 6 7  8 9 a b  c d e f  "
  ++ list_ascii_of_string "0123 4567 89ab cdef" ++ newline ++ newline.

(** The lines of the dump, one for each turn of the outer loop (which has
    at most [pMemory + size - pMem] turns).  Addresses are integers: the
    region and the rows shown are taken to end below 2^64, where the source's
    pointers do not wrap around. *)
Definition dump_rows (m : bytes) (pMemory size pShow : Z) : list text :=
  let pMem := Z.land pMemory 0xfffffffffffffff0 in
  let pShow := if pShow =? 0 then pMem else pShow in
  dump_lines (Z.to_nat (pMemory + size - pMem)) m pMemory size pMem pShow.

(** [dump( pMemory, size, pShow )]: what it writes to standard output. *)
Definition dump (m : bytes) (pMemory size pShow : Z) : text :=
  dump_header ++ concat (dump_rows m pMemory size pShow) ++ newline.

(** ** histospt.cpp: the labels of the display *)

(** The display properties of histospt.h: [enum { base10, base16, graph,
    data }]. *)
Definition base10 : Z := 0.
Definition base16 : Z := 1.

(** The canvass limits. *)
Definition width : Z := 79.
Definition height : Z := 58.

(** The members of [TimeIntervalHistogram] that [DisplayHistBins] uses.  The
    canvass [char window[height][width + 1]] is kept as the array of its
    [height * (width + 1)] characters, the way the rows follow each other in
    memory: [window[i][j]] is at [i * (width + 1) + j]. *)
Record canvass := mkCanvass {
  window : Z -> ascii;
  top : Z;
  col : Z
}.

(** What the constructor makes of [top] and [col]. *)
Definition canvass_new (w : Z -> ascii) : canvass := mkCanvass w 3 0.

(** [strncpy( &window[ row ][ column ], str, strlen( str ) )] *)
Definition strncpy_window (row column : Z) (str : text) (d : canvass) : canvass :=
  let at0 := row * (width + 1) + column in
  mkCanvass (fun x => if (at0 <=? x) && (x <? at0 + Z.of_nat (length str))
                      then nth (Z.to_nat (x - at0)) str " "%char
                      else window d x)
            (top d) (col d).

Definition decimal : text := list_ascii_of_string "0123456789".
Definition upper_hex : text := list_ascii_of_string "0123456789ABCDEF".

(** [sprintf( str, "%6u ", thisBin )] and [sprintf( str, "%6X ", thisBin )]
    for an [unsigned int]. *)
Definition sprintf_6u (v : Z) : text :=
  justify 6 (number decimal 10 v []) ++ list_ascii_of_string " ".
Definition sprintf_6X (v : Z) : text :=
  justify 6 (number upper_hex 8 v []) ++ list_ascii_of_string " ".

(** One turn of the loop of [DisplayHistBins], on [thisBin] and the
    canvass. *)
Definition DisplayHistBins_turn (nBins countsPerBin radix : Z)
                                (acc : Z * canvass) (i : Z) : Z * canvass :=
  let '(thisBin, d) := acc in
  if i =? 0 then
    (thisBin, strncpy_window (i + top d) (col d)
                             (list_ascii_of_string " Under") d)
  else if i <? nBins + 1 then
    let str := if radix =? base10 then sprintf_6u thisBin
               else sprintf_6X thisBin in
    (uint32 (thisBin + countsPerBin),
     strncpy_window (i + top d) (col d) str d)
  else
    (thisBin, strncpy_window (i + top d) (col d)
                             (list_ascii_of_string "  Over") d).

(** [DisplayHistBins( dataSet, radix )], [dataSet] being given as its base
    class and its canvass; [i] runs from 0 to [nBins + 1]. *)
Definition DisplayHistBins (h : Histogram) (d : canvass) (radix : Z) : canvass :=
  let thisBin := MinBin h in
  let countsPerBin := uint32 (CountsPerBin h) in
  let nBins := Z.min (height - 10) (NBins h) in
  snd (fold_left (DisplayHistBins_turn nBins countsPerBin radix)
                 (map Z.of_nat (seq 0 (Z.to_nat (nBins + 2))))
                 (thisBin, d)).

(** ** The csa as a sequence of stored coroutines *)

(** A stored coroutine: its longs and the size word written above them. *)
Definition image := (list Z * Z)%type.

Definition encode (ring : list image) : list Z :=
  flat_map (fun im => fst im ++ [snd im]) ring.

(** The size [popCoroutine] takes from a size word. *)
Definition pop_size (d : Z) : Z :=
  if d <? 0 then Z.land d SIZE_MASK else d.

(** The number of parameters [popCoroutine] takes from a size word. *)
Definition pop_mark (d : Z) : Z :=
  if d <? 0 then int8 (Z.land (int8 (Z.shiftr d 56)) 0x7F) else 0.

Definition well_sized (im : image) : Prop :=
  pop_size (snd im) = Z.of_nat (length (fst im)) /\
  Z.land (snd im) SIZE_MASK = Z.of_nat (length (fst im)).

(** The csa holds [ring] (bottom first) from position [a] up to [csavail]. *)
Definition stored (s : kernel) (a : Z) (ring : list image) : Prop :=
  csavail s = a + Z.of_nat (length (encode ring)) /\
  read (csa s) a (length (encode ring)) = encode ring /\
  Forall well_sized ring.

(** The filler [push_parameters] adds after [argc] parameters. *)
Definition filler (argc : Z) : Z :=
  if argc =? 0 then 2 else if Z.odd argc then 1 else 0.

(** The longs of a coroutine that has not run yet. *)
Definition frame_head (pf : platform) (cleanup_fn base_ coroutine : Z) : list Z :=
  match pf with
  | SysV => [0; base_; coroutine; cleanup_fn + CLEANUP_OFFSET pf]
  | Cygwin => [0; 0; 0; base_; coroutine; cleanup_fn + CLEANUP_OFFSET pf;
               SHADOW_SPACE_VALUE; SHADOW_SPACE_VALUE;
               SHADOW_SPACE_VALUE; SHADOW_SPACE_VALUE]
  end.

Definition virgin_words (pf : platform) (cleanup_fn base_ coroutine : Z)
                        (args : list Z) : list Z :=
  frame_head pf cleanup_fn base_ coroutine ++ args
    ++ repeat FILLER_VALUE (Z.to_nat (filler (Z.of_nat (length args)))).

Definition virgin_image (pf : platform) (cleanup_fn base_ coroutine : Z)
                        (args : list Z) : image :=
  let w := virgin_words pf cleanup_fn base_ coroutine args in
  (w, marked_size pf (Z.of_nat (length args))
        (Z.of_nat (length w) - Z.of_nat (length args)
         - (LONG_COUNT pf + 2))).

(** Position, within a frame, of the address its [ret] goes to. *)
Definition pc_slot (pf : platform) : nat :=
  match pf with SysV => 2%nat | Cygwin => 4%nat end.

(** ** Notions used to state and prove the properties *)

(** The high-order byte of a size word. *)
Definition high_byte (d : Z) : Z := Z.land (Z.shiftr d 56) 0xFF.

(** The longs of a new coroutine below its parameters, shadow space
    included. *)
Definition head_count (pf : platform) : Z :=
  LONG_COUNT pf + 2 + match pf with SysV => 0 | Cygwin => 4 end.

(** The number of longs of a stored coroutine. *)
Definition size_of (im : image) : Z := Z.of_nat (length (fst im)).

(** For a count that fits the seven bits of the mark, the size word is
    negative, carries the size in its low 56 bits and [0x80 | argc] in its
    high-order byte, and [popCoroutine] reads the count back. *)
Definition mark_ok (pf : platform) (argc : Z) : bool :=
  let fc := filler argc + match pf with SysV => 0 | Cygwin => 4 end in
  let d := marked_size pf argc fc in
  (d <? 0)
  && (Z.land d SIZE_MASK =? argc + fc + (LONG_COUNT pf + 2))
  && (pop_size d =? argc + fc + (LONG_COUNT pf + 2))
  && (pop_mark d =? argc)
  && (Z.land (Z.shiftr d 56) 0xFF =? Z.lor 0x80 argc)
  && (int8 argc =? argc)
  && (marked_size pf (int8 argc) (int8 fc) =? d).

(** For a count that fits a byte, the size word [invoke] writes carries the
    size in its low 56 bits and [0x80 | argc] in its high-order byte. *)
Definition size_word_ok (pf : platform) (argc : Z) : bool :=
  let fc := filler argc + match pf with SysV => 0 | Cygwin => 4 end in
  let d := marked_size pf argc fc in
  (Z.land d SIZE_MASK =? argc + fc + (LONG_COUNT pf + 2))
  && (high_byte d =? Z.lor 0x80 argc).

(** [s'] is [s] with the longs [l] pushed onto the csa. *)
Definition appended (s s' : kernel) (l : list Z) : Prop :=
  csavail s' = csavail s + Z.of_nat (length l) /\
  read (csa s') (csavail s) (length l) = l /\
  (forall x, x < csavail s -> csa s' x = csa s x) /\
  base s' = base s /\ stack s' = stack s /\ regs s' = regs s /\
  coroutineCount s' = coroutineCount s /\
  coRBP s' = coRBP s /\ COBEGIN_EPILOG s' = COBEGIN_EPILOG s.

(** [s'] is [s] with the coroutine [im] added on top of the csa. *)
Definition spawned (s s' : kernel) (im : image) : Prop :=
  appended s (set_coroutineCount (coroutineCount s) s') (fst im ++ [snd im]) /\
  coroutineCount s' = coroutineCount s + 1.

(** The state [popCoroutine] leaves, before the parameters of a new
    coroutine are dealt with. *)
Definition popped (pf : platform) (s : kernel) : kernel :=
  let d := csa s (csavail s - 1) in
  let bms := base s - pop_size d - 2 in
  mkKernel (csa s) (csavail s - 1 - pop_size d) (COBEGIN_EPILOG s) (coRBP s)
           (pop_size d) (bms - MAGIC_OFFSET pf / sizeof_long) bms (base s)
           (coroutineCount s)
           (blit (stack s) bms (csa s) (csavail s - 1 - pop_size d) (pop_size d))
           (regs s).

(** What [popCoroutine] does for the parameters of a new coroutine. *)
Definition place_parameters (pf : platform) (mark p : Z) (s : kernel) : kernel :=
  let p := if negb (Z.rem mark 2 =? 0) then p - 1 else p in
  let first_p := p in
  let excessCount := int8 (mark - IN_REGISTERS_COUNT pf) in
  let '(mark, p) := if mark >? IN_REGISTERS_COUNT pf
                    then (IN_REGISTERS_COUNT pf, p - excessCount)
                    else (mark, p) in
  let s := if excessCount >? 0
           then set_stack (blit (stack s) (baseMinusSize s + excess_home pf)
                                (csa s) (first_p - excessCount + 1)
                                excessCount) s
           else s in
  load_registers pf mark p s.

(** What [switch_to_top] passes to [popCoroutine]. *)
Definition moved_away (s : kernel) : kernel :=
  let s := set_size (csa s (csavail s - 1)) s in
  let s := set_size (Z.land (_size s) SIZE_MASK) s in
  let s := set_RSP (rsp (regs s)) s in
  let s := set_RSP (_RSP s - (_size s + EXTRA_STACK)) s in
  set_rsp (_RSP s) s.

(** The coroutines the loop of [cobegin] stores for its arguments. *)
Fixpoint va_images (pf : platform) (cleanup_fn b : Z) (n : nat) (va : list Z)
  : list image :=
  match n with
  | O => []
  | S n' =>
      let c := hd 0 (tl va) in
      virgin_image pf cleanup_fn b (hd 0 va) (va_take c (tl (tl va)))
      :: va_images pf cleanup_fn b n' (va_drop c (tl (tl va)))
  end.

(** The coroutine [cobegin] stores for an entry point and its parameters. *)
Definition spec_image (pf : platform) (cleanup_fn b : Z) (ea : Z * list Z) : image :=
  virgin_image pf cleanup_fn b (fst ea) (snd ea).

(** The csa holds a sequence of coroutines, and [coroutineCount] counts them
    together with the running one. *)
Definition ring_invariant (m : mode) (s : kernel) : Prop :=
  exists ring,
    stored s 0 ring /\
    coroutineCount s
    = Z.of_nat (length ring) + match m with InRing => 1 | InHost => 0 end.

(** The address a stored coroutine is resumed at. *)
Definition pc_of (pf : platform) (im : image) : Z := nth (pc_slot pf) (fst im) 0.

(** A stored coroutine reaches up to the address it is resumed at. *)
Definition resumable (pf : platform) (im : image) : Prop :=
  (pc_slot pf < length (fst im))%nat.

(** The ABI's argument registers, in calling-convention order. *)
Definition argument_registers (pf : platform) (s : kernel) : list Z :=
  let r := regs s in
  match pf with
  | SysV => [rdi r; rsi r; rdx r; rcx r; r8 r; r9 r]
  | Cygwin => [rcx r; rdx r; r8 r; r9 r]
  end.

(** The [n] longs where a function just entered finds the arguments passed
    on the stack: above the return slot, and on x64 above the shadow space. *)
Definition stack_arguments (pf : platform) (s : kernel) (n : nat) : list Z :=
  read (stack s)
       (rsp (regs s) + 1 + match pf with SysV => 0 | Cygwin => 4 end) n.

(** The running coroutine calls [coresume] with each frame of [fs] in turn,
    every call made by the coroutine the one before has resumed. *)
Definition yields (pf : platform) (fs : list (list Z)) (cs : control * kernel)
  : control * kernel :=
  fold_left (fun cs f => coresume pf (calls_coresume pf f (snd cs))) fs cs.

(** A coroutine stored by [coresume]. *)
Definition yielded (f : list Z) : image := (f, Z.of_nat (length f)).

(** A coroutine whose frame was [f] has been given control back: [f] is on
    the stack where it was taken from, below [b - 2], and the epilogue has
    popped the saved registers, the frame pointer and the return address. *)
Definition resumed_with (pf : platform) (b : Z) (f : list Z)
                        (cs : control * kernel) : Prop :=
  let start := b - 2 - Z.of_nat (length f) in
  fst cs = Resume (nth (pc_slot pf) f 0) /\
  read (stack (snd cs)) start (length f) = f /\
  rsp (regs (snd cs)) = start + Z.of_nat (pc_slot pf) + 1 /\
  rbp (regs (snd cs)) = nth (pc_slot pf - 1) f 0.

(** The longs a new coroutine with [argc] parameters takes in the csa: the
    head of its frame, the parameters, the filler and the size word. *)
Definition spawn_longs (pf : platform) (argc : Z) : Z :=
  head_count pf + argc + filler argc + 1.

(** Every call of [coresume] in [yields] finds room in the csa for the frame
    it stores and its size word. *)
Fixpoint yields_within (pf : platform) (fs : list (list Z)) (s : kernel)
  : Prop :=
  match fs with
  | [] => True
  | f :: fs' =>
      csavail s + Z.of_nat (length f) + 1 <= CSA_SIZE /\
      yields_within pf fs' (snd (coresume pf (calls_coresume pf f s)))
  end.

(** The same for a run of [ring_run]. *)
Fixpoint ring_run_within (pf : platform) (body : Z -> kernel -> list Z)
                         (fuel : nat) (c : control) (s : kernel) : Prop :=
  match c, fuel with
  | Resume pc, S fuel' =>
      let cs := coresume pf (calls_coresume pf (body pc s) s) in
      csavail s + Z.of_nat (length (body pc s)) + 1 <= CSA_SIZE /\
      ring_run_within pf body fuel' (fst cs) (snd cs)
  | _, _ => True
  end.

(** The samples [samples] added in order. *)
Definition Add_all (samples : list Z) (h : Histogram) : Histogram :=
  fold_left (fun h d => Add d h) samples h.

(** The bin a sample belongs to: 0 below the range, [bins + 1] above it. *)
Definition bin_of (min countsPer bins data : Z) : Z :=
  if data <? min then 0
  else if data <? min + countsPer * bins then (data - min) / countsPer + 1
  else bins + 1.

(** The index [Add] increments. *)
Definition targetBin (data : Z) (h : Histogram) : Z :=
  let t := if data >=? minBin h
           then uint32 (uint32 (data - minBin h) / countsPerBin h + 1)
           else 0 in
  if t >? nBins h then uint32 (nBins h + 1) else t.

(** Whether [Add] finds the sample above the range ([targetBin > nBins]
    before the index is clamped). *)
Definition goes_over (data : Z) (h : Histogram) : bool :=
  (if data >=? minBin h
   then uint32 (uint32 (data - minBin h) / countsPerBin h + 1)
   else 0) >? nBins h.

(** The 1-based positions, counted from [k + 1], of the samples at or above
    [limit]. *)
Fixpoint over_ordinals (limit k : Z) (samples : list Z) : list Z :=
  match samples with
  | [] => []
  | d :: t =>
      if d >=? limit then (k + 1) :: over_ordinals limit (k + 1) t
      else over_ordinals limit (k + 1) t
  end.

(** Each sample is below the one before it, the first below [bound]. *)
Fixpoint descending (bound : Z) (samples : list Z) : Prop :=
  match samples with
  | [] => True
  | d :: t => d < bound /\ descending d t
  end.

(** The parameters a histogram can be made with: unsigned values, a bin
    width that is not 0, a number of bins that is not negative. *)
Definition histogram_parameters (min countsPer bins : Z) : Prop :=
  0 <= min < 2 ^ 32 /\ 0 < countsPer < 2 ^ 32 /\ 0 <= bins < 2 ^ 31.

(** The largest element of a list of counters. *)
Definition largest (l : list Z) : Z := fold_right Z.max 0 l.

(** What [Add] keeps: the parameters, one counter per bin, and a sample
    count and a largest counter that agree with the counters. *)
Definition counted (min countsPer bins k : Z) (h : Histogram) : Prop :=
  minBin h = min /\ countsPerBin h = countsPer /\ nBins h = bins /\
  length (binVector h) = Z.to_nat (bins + 2) /\
  Forall (fun c => 0 <= c) (binVector h) /\
  sum (binVector h) = k /\ n h = k /\ maxFreq h = largest (binVector h).

(** [tally] called once for each clock reading of [gs], in order. *)
Definition tally_all (gs : list gettimeofday_result)
                     (t : TimeIntervalHistogram)
  : TimeIntervalHistogram * list string :=
  fold_left (fun acc g => let r := tally g (fst acc) in
                          (fst r, snd acc ++ snd r)) gs (t, []).

(** The microseconds from [prev] to [next]. *)
Definition elapsed (prev next : Z * Z) : Z :=
  (fst next - fst prev) * 1000000 + snd next - snd prev.

(** Whether a clock reading failed. *)
Definition clock_failed (g : gettimeofday_result) : bool :=
  match g with TimeFailed _ => true | TimeIs _ _ => false end.

(** The value of a hexadecimal digit, and of the two digits of a byte. *)
Definition digit_value (c : ascii) : option Z :=
  let n := Z.of_nat (nat_of_ascii c) in
  if (48 <=? n) && (n <=? 57) then Some (n - 48)
  else if (97 <=? n) && (n <=? 102) then Some (n - 87)
  else None.

Definition read_02x (t : text) : option Z :=
  match t with
  | [h; l] => match digit_value h, digit_value l with
              | Some a, Some b => Some (16 * a + b)
              | _, _ => None
              end
  | _ => None
  end.

(** The columns of a line at which the byte of offset [k] is shown. *)
Definition hex_column (k : nat) : nat := (14 + 2 * k + k / 4)%nat.
Definition char_column (k : nat) : nat := (51 + k + k / 4)%nat.

(** The [n] characters of the canvass from [column] of [row]. *)
Definition shows (d : canvass) (row column : Z) (n : nat) : text :=
  map (fun j => window d (row * (width + 1) + column + Z.of_nat j)) (seq 0 n).

(** The text [DisplayHistBins] puts on the [i]-th row of its rows. *)
Definition bin_label (h : Histogram) (radix nb i : Z) : text :=
  if i =? 0 then list_ascii_of_string " Under"
  else if i <? nb + 1 then
    let v := uint32 (MinBin h + (i - 1) * CountsPerBin h) in
    if radix =? base10 then sprintf_6u v else sprintf_6X v
  else list_ascii_of_string "  Over".

(** ** Sample states *)

(** A kernel as the program starts: the module variables as their
    initialisers leave them, and some stack pointer and frame pointer. *)
Definition boot : kernel :=
  mkKernel (fun _ => 0) 0 0 0 0 0 0 0 0 (fun _ => 0)
           (mkRegs 1000 1010 0 0 0 0 0 0).

(** Two coroutines started by [cobegin] from [boot]; the second one runs. *)
Definition two_started (pf : platform) : kernel :=
  snd (cobegin pf 5000 2 [111; 0; 222; 1; 7] boot).

(** The second coroutine of [two_started], about to call [coresume] with the
    frame pointer at 980. *)
Definition about_to_yield (pf : platform) : kernel :=
  set_regs (mkRegs 970 980 0 0 0 0 0 0)
           (set_stack (fun x => x + 1) (two_started pf)).

(** A coroutine whose code starts at a multiple of 1000 and whose call to
    [coresume] returns five bytes further on. *)
Definition sample_owner (pc : Z) : Z := pc / 1000 * 1000.

(** Its frame when it calls [coresume]: rbx, rbp, the return address and a
    local. *)
Definition sample_body (pc : Z) (s : kernel) : list Z :=
  [0; base s; sample_owner pc + 5; 0].

(** A histogram of ten bins with the samples 3 and 5. *)
Definition two_samples : Histogram := Add 5 (Add 3 (Histogram_new 0 1 10)).

(** A memory whose byte at [a] is [a] modulo 256. *)
Definition counting : bytes :=
  fun a => match Byte.of_N (Z.to_N (a mod 256)) with
           | Some b => b
           | None => Byte.x00
           end.

(** A canvass of blanks. *)
Definition blank : Z -> ascii := fun _ => " "%char.

(** * Properties *)

(** ** Memory and machine integers *)

(** [(a <=? x) && (x <? b)] is [true] when arithmetic says so. *)
Ltac in_range :=
  symmetry; apply andb_true_iff; split;
  [apply Z.leb_le | apply Z.ltb_lt]; lia.

Lemma read_length m a n : length (read m a n) = n.
Proof. unfold read. now rewrite length_map, length_seq. Qed.

Lemma nth_read m a n i d :
  (i < n)%nat -> nth i (read m a n) d = m (a + Z.of_nat i).
Proof.
  intros Hi. unfold read.
  rewrite (nth_indep _ d (m (a + Z.of_nat 0))) by now rewrite length_map, length_seq.
  rewrite (map_nth (fun i => m (a + Z.of_nat i))), seq_nth by assumption.
  reflexivity.
Qed.

Lemma read_ext m1 m2 a1 a2 n :
  (forall i, (i < n)%nat -> m1 (a1 + Z.of_nat i) = m2 (a2 + Z.of_nat i)) ->
  read m1 a1 n = read m2 a2 n.
Proof.
  intros H. unfold read. apply map_ext_in.
  intros i Hi. apply in_seq in Hi. apply H. lia.
Qed.

Lemma map_seq_from {A} (f : nat -> A) k n :
  map f (seq k n) = map (fun i => f (k + i)%nat) (seq 0 n).
Proof.
  revert k f. induction n as [|n IH]; intros k f; [reflexivity|].
  simpl. f_equal; [f_equal; lia|].
  rewrite (IH (S k)), (IH 1%nat). apply map_ext. intros i. f_equal. lia.
Qed.

Lemma read_app m a n1 n2 :
  read m a (n1 + n2) = read m a n1 ++ read m (a + Z.of_nat n1) n2.
Proof.
  unfold read. rewrite seq_app, map_app. f_equal.
  simpl. rewrite map_seq_from. apply map_ext. intros i. f_equal. lia.
Qed.

Lemma app_inj_length {A} (l1 l1' l2 l2' : list A) :
  l1 ++ l2 = l1' ++ l2' -> length l1 = length l1' -> l1 = l1' /\ l2 = l2'.
Proof.
  revert l1'. induction l1 as [|x l1 IH]; intros [|y l1']; simpl;
    try discriminate; intros H Hl.
  - split; [reflexivity | assumption].
  - injection H as -> H. injection Hl as Hl.
    destruct (IH _ H Hl) as [-> ->]. split; reflexivity.
Qed.

Lemma read_eq_iff m a l :
  read m a (length l) = l <->
  forall i, (i < length l)%nat -> m (a + Z.of_nat i) = nth i l 0.
Proof.
  split.
  - intros H i Hi.
    assert (E : nth i (read m a (length l)) 0 = nth i l 0) by now rewrite H.
    now rewrite nth_read in E.
  - intros H. apply (nth_ext _ _ 0 0).
    + apply read_length.
    + intros i Hi. rewrite read_length in Hi. rewrite nth_read by assumption.
      now apply H.
Qed.

Lemma read_app_inv m a l1 l2 :
  read m a (length (l1 ++ l2)) = l1 ++ l2 ->
  read m a (length l1) = l1 /\ read m (a + Z.of_nat (length l1)) (length l2) = l2.
Proof.
  rewrite length_app, read_app. intros H.
  apply app_inj_length in H; [exact H | apply read_length].
Qed.

(** *** The size word of a new coroutine *)

Lemma mark_ok_all :
  forallb (fun a => mark_ok SysV (Z.of_nat a) && mark_ok Cygwin (Z.of_nat a))
          (seq 0 128) = true.
Proof. vm_compute. reflexivity. Qed.

Lemma mark_ok_range pf argc : 0 <= argc <= 127 -> mark_ok pf argc = true.
Proof.
  intros H.
  pose proof (proj1 (forallb_forall _ _) mark_ok_all (Z.to_nat argc)) as A.
  cbv beta in A. rewrite Z2Nat.id in A by lia.
  assert (I : In (Z.to_nat argc) (seq 0 128)) by (apply in_seq; lia).
  specialize (A I). apply andb_prop in A. destruct pf; tauto.
Qed.

Lemma marked_size_facts pf argc :
  0 <= argc <= 127 ->
  let fc := filler argc + match pf with SysV => 0 | Cygwin => 4 end in
  let d := marked_size pf argc fc in
  d < 0 /\
  Z.land d SIZE_MASK = argc + fc + (LONG_COUNT pf + 2) /\
  pop_size d = argc + fc + (LONG_COUNT pf + 2) /\
  pop_mark d = argc /\
  Z.land (Z.shiftr d 56) 0xFF = Z.lor 0x80 argc /\
  int8 argc = argc /\
  marked_size pf (int8 argc) (int8 fc) = d.
Proof.
  intros H fc d. pose proof (mark_ok_range pf argc H) as A.
  unfold mark_ok in A. fold fc in A. fold d in A.
  repeat (apply andb_prop in A; destruct A as [A ?]).
  repeat match goal with
         | E : (_ =? _) = true |- _ => apply Z.eqb_eq in E
         | E : (_ <? _) = true |- _ => apply Z.ltb_lt in E
         end.
  tauto.
Qed.

(** *** Pushing onto the csa *)

Lemma appended_refl s : appended s s [].
Proof. unfold appended. simpl. repeat split; try reflexivity; lia. Qed.

Lemma appended_push v s : appended s (push v s) [v].
Proof.
  unfold appended, push, read, upd. simpl. repeat split; try reflexivity.
  - replace (csavail s + 0 =? csavail s) with true by (symmetry; apply Z.eqb_eq; lia).
    reflexivity.
  - intros x Hx. destruct (Z.eqb_spec x (csavail s)); [lia | reflexivity].
Qed.

Lemma appended_trans s1 s2 s3 l1 l2 :
  appended s1 s2 l1 -> appended s2 s3 l2 -> appended s1 s3 (l1 ++ l2).
Proof.
  intros (A1 & R1 & B1 & F1) (A2 & R2 & B2 & F2).
  unfold appended. rewrite length_app, Nat2Z.inj_add. repeat split; try lia; try intuition congruence.
  - rewrite read_app. f_equal.
    + etransitivity; [|exact R1]. apply read_ext. intros i Hi. apply B2. lia.
    + rewrite <- A1. exact R2.
  - intros x Hx. rewrite B2 by lia. now apply B1.
Qed.

Lemma appended_push_all l s : appended s (push_all l s) l.
Proof.
  revert s. induction l as [|v l IH]; intros s.
  - apply appended_refl.
  - change (v :: l) with ([v] ++ l). eapply appended_trans.
    + apply appended_push.
    + apply IH.
Qed.

Lemma appended_snoc s s' l v :
  appended s s' l -> appended s (push v s') (l ++ [v]).
Proof. intros A. eapply appended_trans; [exact A | apply appended_push]. Qed.

Lemma appended_frame_head pf cleanup_fn coroutine s :
  appended s (fst (push_frame_head pf cleanup_fn coroutine s))
           (frame_head pf cleanup_fn (base s) coroutine) /\
  snd (push_frame_head pf cleanup_fn coroutine s)
  = match pf with SysV => 0 | Cygwin => 4 end.
Proof.
  split; [|destruct pf; reflexivity].
  destruct pf; unfold push_frame_head, frame_head; cbn [fst].
  - apply (appended_snoc _ _ [0; base s; coroutine]).
    apply (appended_snoc _ _ [0; base s]).
    apply (appended_snoc _ _ [0]).
    apply (appended_snoc _ _ []).
    apply appended_refl.
  - set (v := SHADOW_SPACE_VALUE). set (c := cleanup_fn + CLEANUP_OFFSET Cygwin).
    apply (appended_snoc _ _ [0; 0; 0; base s; coroutine; c; v; v; v]).
    apply (appended_snoc _ _ [0; 0; 0; base s; coroutine; c; v; v]).
    apply (appended_snoc _ _ [0; 0; 0; base s; coroutine; c; v]).
    apply (appended_snoc _ _ [0; 0; 0; base s; coroutine; c]).
    apply (appended_snoc _ _ [0; 0; 0; base s; coroutine]).
    apply (appended_snoc _ _ [0; 0; 0; base s]).
    apply (appended_snoc _ _ [0; 0; 0]).
    apply (appended_snoc _ _ [0; 0]).
    apply (appended_snoc _ _ [0]).
    apply (appended_snoc _ _ []).
    apply appended_refl.
Qed.

Lemma length_va_take argc va : length (va_take argc va) = Z.to_nat argc.
Proof. unfold va_take. now rewrite length_map, length_seq. Qed.

Lemma appended_parameters argc va fc s :
  0 <= argc ->
  appended s (fst (push_parameters argc va fc s))
           (va_take argc va ++ repeat FILLER_VALUE (Z.to_nat (filler argc))) /\
  snd (push_parameters argc va fc s) = fc + filler argc.
Proof.
  intros H. unfold push_parameters, filler.
  destruct (Z.eqb_spec argc 0) as [->|N].
  - simpl. split; [|reflexivity].
    exact (appended_push_all [FILLER_VALUE; FILLER_VALUE] s).
  - replace (argc >? 0) with true by (symmetry; apply Z.gtb_lt; lia).
    rewrite Z.rem_mod_nonneg, <- Z.bit0_mod, Z.bit0_odd by lia.
    destruct (Z.odd argc); simpl.
    + split; [|reflexivity].
      eapply appended_trans; [apply appended_push_all | apply appended_push].
    + split; [|lia]. rewrite app_nil_r. apply appended_push_all.
Qed.

Lemma length_frame_head pf cleanup_fn b e :
  Z.of_nat (length (frame_head pf cleanup_fn b e))
  = LONG_COUNT pf + 2 + match pf with SysV => 0 | Cygwin => 4 end.
Proof. destruct pf; reflexivity. Qed.

Lemma length_virgin_words pf cleanup_fn b e args :
  Z.of_nat (length (virgin_words pf cleanup_fn b e args))
  = LONG_COUNT pf + 2 + match pf with SysV => 0 | Cygwin => 4 end
    + Z.of_nat (length args) + filler (Z.of_nat (length args)).
Proof.
  unfold virgin_words. rewrite !length_app, repeat_length, !Nat2Z.inj_add.
  rewrite length_frame_head, Z2Nat.id; [lia|].
  unfold filler. destruct (_ =? 0); [lia|]. destruct (Z.odd _); lia.
Qed.

Lemma virgin_image_size_word pf cleanup_fn b e args :
  snd (virgin_image pf cleanup_fn b e args)
  = marked_size pf (Z.of_nat (length args))
      (filler (Z.of_nat (length args)) + match pf with SysV => 0 | Cygwin => 4 end).
Proof.
  unfold virgin_image. cbv zeta. cbn [snd].
  rewrite length_virgin_words. f_equal. lia.
Qed.

Lemma well_sized_virgin pf cleanup_fn b e args :
  (length args <= 127)%nat -> well_sized (virgin_image pf cleanup_fn b e args).
Proof.
  intros H. unfold well_sized. rewrite virgin_image_size_word.
  destruct (marked_size_facts pf (Z.of_nat (length args))) as (_ & L & P & _); [lia|].
  cbv zeta in L, P. rewrite L, P.
  unfold virgin_image. cbv zeta. cbn [fst]. rewrite length_virgin_words. lia.
Qed.

Lemma virgin_image_longs pf cleanup_fn b e args :
  fst (virgin_image pf cleanup_fn b e args)
    ++ [snd (virgin_image pf cleanup_fn b e args)]
  = (frame_head pf cleanup_fn b e
     ++ args ++ repeat FILLER_VALUE (Z.to_nat (filler (Z.of_nat (length args)))))
    ++ [marked_size pf (Z.of_nat (length args))
          (filler (Z.of_nat (length args))
           + match pf with SysV => 0 | Cygwin => 4 end)].
Proof. now rewrite virgin_image_size_word. Qed.

Lemma appended_spawned s s' im :
  appended s s' (fst im ++ [snd im]) ->
  spawned s (set_coroutineCount (coroutineCount s' + 1) s') im.
Proof.
  intros (? & ? & ? & ? & ? & ? & ? & ? & ?).
  unfold spawned, appended. cbn. repeat split; try assumption; lia.
Qed.

Lemma size_word_ok_all :
  forallb (fun a => size_word_ok SysV (Z.of_nat a)
                    && size_word_ok Cygwin (Z.of_nat a))
          (seq 0 256) = true.
Proof. vm_compute. reflexivity. Qed.

Lemma size_word_ok_range pf argc :
  0 <= argc <= 255 -> size_word_ok pf argc = true.
Proof.
  intros H.
  pose proof (proj1 (forallb_forall _ _) size_word_ok_all (Z.to_nat argc)) as A.
  cbv beta in A. rewrite Z2Nat.id in A by lia.
  assert (I : In (Z.to_nat argc) (seq 0 256)) by (apply in_seq; lia).
  specialize (A I). apply andb_prop in A. destruct pf; tauto.
Qed.

Lemma invoke_spawned_any pf cleanup_fn coroutine argCount va s :
  0 <= argCount ->
  spawned s (invoke pf cleanup_fn coroutine argCount va s)
          (virgin_image pf cleanup_fn (base s) coroutine (va_take argCount va)).
Proof.
  intros H. unfold invoke.
  destruct (appended_frame_head pf cleanup_fn coroutine s) as [A1 F1].
  destruct (push_frame_head pf cleanup_fn coroutine s) as [s1 fc1].
  cbn [fst snd] in A1, F1.
  destruct (appended_parameters argCount va fc1 s1) as [A2 F2]; [lia|].
  destruct (push_parameters argCount va fc1 s1) as [s2 fc2].
  cbn [fst snd] in A2, F2.
  pose proof (appended_push (marked_size pf argCount fc2) s2) as A3.
  pose proof (appended_trans _ _ _ _ _ (appended_trans _ _ _ _ _ A1 A2) A3) as A.
  apply appended_spawned.
  rewrite virgin_image_longs, length_va_take, Z2Nat.id by lia.
  rewrite (Z.add_comm (filler argCount)). subst fc2 fc1. exact A.
Qed.

Lemma invoke_spawned pf cleanup_fn coroutine argCount va s :
  0 <= argCount <= 127 ->
  spawned s (invoke pf cleanup_fn coroutine argCount va s)
          (virgin_image pf cleanup_fn (base s) coroutine (va_take argCount va)).
Proof. intros H. apply invoke_spawned_any. lia. Qed.

Lemma cobegin_spawn_spawned pf cleanup_fn va s :
  0 <= hd 0 (tl va) <= 127 ->
  fst (cobegin_spawn pf cleanup_fn va s) = va_drop (hd 0 (tl va)) (tl (tl va)) /\
  spawned s (snd (cobegin_spawn pf cleanup_fn va s))
          (virgin_image pf cleanup_fn (base s) (hd 0 va)
                        (va_take (hd 0 (tl va)) (tl (tl va)))).
Proof.
  intros H. unfold cobegin_spawn.
  set (c := hd 0 (tl va)) in *. set (rest := tl (tl va)).
  destruct (marked_size_facts pf c H) as (_ & _ & _ & _ & _ & I8 & M).
  cbv zeta in M. rewrite I8 in *.
  destruct (appended_frame_head pf cleanup_fn (hd 0 va) s) as [A1 F1].
  destruct (push_frame_head pf cleanup_fn (hd 0 va) s) as [s1 fc1].
  cbn [fst snd] in A1, F1.
  destruct (appended_parameters c rest fc1 s1) as [A2 F2]; [lia|].
  destruct (push_parameters c rest fc1 s1) as [s2 fc2].
  cbn [fst snd] in A2, F2.
  pose proof (appended_push (marked_size pf c (int8 fc2)) s2) as A3.
  pose proof (appended_trans _ _ _ _ _ (appended_trans _ _ _ _ _ A1 A2) A3) as A.
  cbn [fst snd]. split.
  - destruct (Z.gtb_spec c 0); [reflexivity|].
    assert (c = 0) as -> by lia. reflexivity.
  - apply appended_spawned.
    rewrite virgin_image_longs, length_va_take, Z2Nat.id by lia.
    rewrite <- M, (Z.add_comm (filler c)). subst fc2 fc1. exact A.
Qed.

(** *** popCoroutine *)

Lemma load_registers_vars pf mark p s :
  exists r, load_registers pf mark p s = set_regs r s /\ rsp r = rsp (regs s)
            /\ rbp r = rbp (regs s).
Proof.
  unfold load_registers. destruct pf.
  - destruct (mark =? 6), (5 <=? mark), (4 <=? mark), (3 <=? mark),
      (2 <=? mark), (1 <=? mark), (mark <=? 6); cbn;
      (eexists; split; [reflexivity | split; reflexivity])
      || (exists (regs s); destruct s; split; [reflexivity | split; reflexivity]).
  - destruct (mark =? 4), (3 <=? mark),
      (2 <=? mark), (1 <=? mark), (mark <=? 4); cbn;
      (eexists; split; [reflexivity | split; reflexivity])
      || (exists (regs s); destruct s; split; [reflexivity | split; reflexivity]).
Qed.

Lemma popCoroutine_eq pf s :
  popCoroutine pf s =
  let d := csa s (csavail s - 1) in
  let s1 := popped pf s in
  let s2 := if pop_mark d >? 0
            then place_parameters pf (pop_mark d) (csavail s - 2) s1 else s1 in
  set_rsp (_RSP s2) s2.
Proof.
  unfold popCoroutine, popped, place_parameters, pop_mark, pop_size. cbn.
  replace (csavail s - 1 - 1) with (csavail s - 2) by lia.
  destruct (csa s (csavail s - 1) <? 0); cbn; reflexivity.
Qed.

Lemma place_parameters_vars pf mark p s :
  exists r st,
    place_parameters pf mark p s = set_regs r (set_stack st s) /\
    rsp r = rsp (regs s) /\ rbp r = rbp (regs s) /\
    forall x, x < baseMinusSize s + excess_home pf -> st x = stack s x.
Proof.
  unfold place_parameters.
  set (p1 := if negb (Z.rem mark 2 =? 0) then p - 1 else p).
  set (ex := int8 (mark - IN_REGISTERS_COUNT pf)).
  destruct (mark >? IN_REGISTERS_COUNT pf);
    match goal with
    | |- context [load_registers pf ?m ?q ?t] =>
        destruct (load_registers_vars pf m q t) as (r & E & R1 & R2)
    end; rewrite E; clear E;
    (destruct (ex >? 0);
     [ exists r, (blit (stack s) (baseMinusSize s + excess_home pf) (csa s)
                       (p1 - ex + 1) ex)
     | exists r, (stack s) ]);
    (split; [destruct s; reflexivity|]);
    (split; [exact R1|]); (split; [exact R2|]);
    intros x Hx; unfold blit; cbn;
    try destruct (Z.leb_spec (baseMinusSize s + excess_home pf) x);
    try lia; reflexivity.
Qed.

Lemma popCoroutine_vars pf s :
  let d := csa s (csavail s - 1) in
  let bms := base s - pop_size d - 2 in
  let s' := popCoroutine pf s in
  csa s' = csa s /\
  csavail s' = csavail s - 1 - pop_size d /\
  _size s' = pop_size d /\
  baseMinusSize s' = bms /\
  base s' = base s /\
  coroutineCount s' = coroutineCount s /\
  coRBP s' = coRBP s /\ COBEGIN_EPILOG s' = COBEGIN_EPILOG s /\
  rsp (regs s') = bms - MAGIC_OFFSET pf / sizeof_long /\
  (forall x, x < bms + excess_home pf ->
     stack s' x = blit (stack s) bms (csa s) (csavail s - 1 - pop_size d)
                       (pop_size d) x) /\
  (pop_mark d = 0 ->
     stack s' = blit (stack s) bms (csa s) (csavail s - 1 - pop_size d)
                     (pop_size d)).
Proof.
  intros d bms s'. subst s'. rewrite popCoroutine_eq. cbv zeta. fold d.
  destruct (pop_mark d >? 0) eqn:M.
  - destruct (place_parameters_vars pf (pop_mark d) (csavail s - 2) (popped pf s))
      as (r & st & E & R1 & R2 & S).
    rewrite E. cbn. fold d. fold bms.
    repeat split; try reflexivity.
    + intros x Hx. apply S. cbn. fold d. fold bms. exact Hx.
    + intros Z0. rewrite Z0 in M. discriminate.
  - cbn. fold d. fold bms. repeat split; reflexivity.
Qed.

Lemma epilogue_vars pf s :
  let sp := rsp (regs s) + MAGIC_OFFSET pf / sizeof_long in
  let s' := snd (epilogue pf s) in
  fst (epilogue pf s) = Resume (stack s (sp + saved_registers pf + 1)) /\
  rsp (regs s') = sp + saved_registers pf + 2 /\
  rbp (regs s') = stack s (sp + saved_registers pf) /\
  csa s' = csa s /\ csavail s' = csavail s /\ _size s' = _size s /\
  baseMinusSize s' = baseMinusSize s /\ base s' = base s /\
  coroutineCount s' = coroutineCount s /\ stack s' = stack s /\
  coRBP s' = coRBP s /\ COBEGIN_EPILOG s' = COBEGIN_EPILOG s.
Proof. destruct pf; cbn; repeat split; reflexivity. Qed.

Lemma switch_to_top_eq pf s :
  switch_to_top pf s = epilogue pf (popCoroutine pf (moved_away s)).
Proof. reflexivity. Qed.

Lemma switch_to_top_vars pf s :
  let d := csa s (csavail s - 1) in
  let bms := base s - pop_size d - 2 in
  let s' := snd (switch_to_top pf s) in
  fst (switch_to_top pf s) = Resume (stack s' (bms + saved_registers pf + 1)) /\
  rsp (regs s') = bms + saved_registers pf + 2 /\
  rbp (regs s') = stack s' (bms + saved_registers pf) /\
  csa s' = csa s /\
  csavail s' = csavail s - 1 - pop_size d /\
  _size s' = pop_size d /\
  baseMinusSize s' = bms /\
  base s' = base s /\
  coroutineCount s' = coroutineCount s /\
  coRBP s' = coRBP s /\ COBEGIN_EPILOG s' = COBEGIN_EPILOG s /\
  (forall x, x < bms + excess_home pf ->
     stack s' x = blit (stack s) bms (csa s) (csavail s - 1 - pop_size d)
                       (pop_size d) x) /\
  (pop_mark d = 0 ->
     stack s' = blit (stack s) bms (csa s) (csavail s - 1 - pop_size d)
                     (pop_size d)).
Proof.
  intros d bms s'. subst s'. rewrite switch_to_top_eq.
  pose proof (popCoroutine_vars pf (moved_away s)) as P. cbv zeta in P.
  change (csa (moved_away s)) with (csa s) in P.
  change (csavail (moved_away s)) with (csavail s) in P.
  change (base (moved_away s)) with (base s) in P.
  change (stack (moved_away s)) with (stack s) in P.
  change (coroutineCount (moved_away s)) with (coroutineCount s) in P.
  change (coRBP (moved_away s)) with (coRBP s) in P.
  change (COBEGIN_EPILOG (moved_away s)) with (COBEGIN_EPILOG s) in P.
  fold d in P. fold bms in P.
  destruct P as (P1 & P2 & P3 & P4 & P5 & P6 & P7 & P8 & P9 & P10 & P11).
  pose proof (epilogue_vars pf (popCoroutine pf (moved_away s))) as E.
  cbv zeta in E. rewrite P9 in E.
  replace (bms - MAGIC_OFFSET pf / sizeof_long + MAGIC_OFFSET pf / sizeof_long)
    with bms in E by lia.
  destruct E as (E1 & E2 & E3 & E4 & E5 & E6 & E7 & E8 & E9 & E10 & E11 & E12).
  rewrite E1, E2, E3, E4, E5, E6, E7, E8, E9, E10, E11, E12.
  repeat split; assumption.
Qed.

(** *** The stored coroutines under the kernel's operations *)

Lemma encode_app r1 r2 : encode (r1 ++ r2) = encode r1 ++ encode r2.
Proof. apply flat_map_app. Qed.

Lemma encode_snoc r im : encode (r ++ [im]) = encode r ++ fst im ++ [snd im].
Proof. rewrite encode_app. simpl. now rewrite app_nil_r. Qed.

Lemma stored_ext s s' a r :
  csa s' = csa s -> csavail s' = csavail s -> stored s a r -> stored s' a r.
Proof. unfold stored. intros -> ->. tauto. Qed.

Lemma stored_csavail s a ring :
  stored s a ring -> a <= csavail s.
Proof. intros (A & _). lia. Qed.

Lemma stored_spawned s s' a r im :
  stored s a r -> spawned s s' im -> well_sized im -> stored s' a (r ++ [im]).
Proof.
  intros (A & R & W) [(A' & R' & B' & _) _] Wim. cbn in A', R', B'.
  unfold stored. rewrite encode_snoc, length_app, Nat2Z.inj_add.
  split; [lia|]. split.
  - rewrite read_app. f_equal.
    + etransitivity; [|exact R]. apply read_ext. intros i Hi. apply B'. lia.
    + rewrite <- A. exact R'.
  - apply Forall_app. split; [exact W | constructor; [exact Wim | constructor]].
Qed.

Lemma stored_top s a r im :
  stored s a (r ++ [im]) ->
  csa s (csavail s - 1) = snd im /\
  well_sized im /\
  csavail s - 1 - Z.of_nat (length (fst im)) = a + Z.of_nat (length (encode r)) /\
  read (csa s) (csavail s - 1 - Z.of_nat (length (fst im))) (length (fst im))
  = fst im /\
  read (csa s) a (length (encode r)) = encode r /\
  Forall well_sized r.
Proof.
  intros (A & R & W). rewrite encode_snoc in A, R.
  apply Forall_app in W. destruct W as [Wr Wim].
  apply read_app_inv in R. destruct R as [Rr R].
  apply read_app_inv in R. destruct R as [Rw Rd].
  rewrite !length_app, !Nat2Z.inj_add in A. simpl in A.
  apply Forall_inv in Wim.
  assert (E : csavail s - 1 - Z.of_nat (length (fst im))
              = a + Z.of_nat (length (encode r))) by lia.
  split; [|split; [exact Wim|split; [exact E|split; [|split; assumption]]]].
  - unfold read in Rd. simpl in Rd. injection Rd as Rd.
    rewrite <- Rd. f_equal. lia.
  - rewrite E. exact Rw.
Qed.

(** Handing control to the coroutine on top of the csa takes it off the csa
    and puts its longs under [base - 2]. *)
Lemma switch_to_top_stored pf s a r im :
  stored s a (r ++ [im]) ->
  let len := Z.of_nat (length (fst im)) in
  let bms := base s - len - 2 in
  let s' := snd (switch_to_top pf s) in
  stored s' a r /\
  fst (switch_to_top pf s) = Resume (stack s' (bms + saved_registers pf + 1)) /\
  rsp (regs s') = bms + saved_registers pf + 2 /\
  _size s' = len /\
  baseMinusSize s' = bms /\
  base s' = base s /\
  coroutineCount s' = coroutineCount s /\
  coRBP s' = coRBP s /\ COBEGIN_EPILOG s' = COBEGIN_EPILOG s /\
  (forall i, (i < length (fst im))%nat -> Z.of_nat i < excess_home pf ->
     stack s' (bms + Z.of_nat i) = nth i (fst im) 0) /\
  (pop_mark (snd im) = 0 -> restored_frame s' = fst im).
Proof.
  intros St len bms s'.
  destruct (stored_top _ _ _ _ St) as (D & [Wp Wl] & A & Rw & Rr & Wr).
  pose proof (switch_to_top_vars pf s) as V. cbv zeta in V.
  rewrite D, Wp in V. fold len in V. fold bms in V. fold s' in V.
  destruct V as (V1 & V2 & V3 & V4 & V5 & V6 & V7 & V8 & V9 & V10 & V11 & V12 & V13).
  assert (Blit : forall i, (i < length (fst im))%nat ->
            blit (stack s) bms (csa s) (csavail s - 1 - len) len (bms + Z.of_nat i)
            = nth i (fst im) 0).
  { intros i Hi. unfold blit.
    replace ((bms <=? bms + Z.of_nat i) && (bms + Z.of_nat i <? bms + len))
      with true by in_range.
    replace (bms + Z.of_nat i - bms) with (Z.of_nat i) by lia.
    apply (proj1 (read_eq_iff _ _ _) Rw). exact Hi. }
  repeat split; try assumption.
  - lia.
  - rewrite V4. etransitivity; [|exact Rr]. reflexivity.
  - intros i Hi Hh. rewrite V12 by lia. apply Blit. exact Hi.
  - intros M. unfold restored_frame. rewrite V6, V7, (V13 M).
    unfold len. rewrite Nat2Z.id. apply read_eq_iff. exact Blit.
Qed.

Lemma land_size_mask z : 0 <= z < 2 ^ 56 -> Z.land z SIZE_MASK = z.
Proof.
  intros H. change SIZE_MASK with (Z.ones 56).
  rewrite Z.land_ones by lia. apply Z.mod_small. exact H.
Qed.

Lemma well_sized_frame w :
  Z.of_nat (length w) < 2 ^ 56 -> well_sized (w, Z.of_nat (length w)).
Proof.
  intros H. unfold well_sized, pop_size. cbn [fst snd].
  destruct (Z.ltb_spec (Z.of_nat (length w)) 0); [lia|].
  split; [reflexivity | apply land_size_mask; lia].
Qed.

(** The first half of [coresume] moves the stored coroutines up and puts the
    running one under them. *)
Lemma store_running_stored pf s ring :
  let size := base s - 2 - BPX pf (rbp (regs s)) in
  stored s 0 ring ->
  0 <= size < 2 ^ 56 ->
  stored (store_running pf s) 0
         ((read (stack s) (BPX pf (rbp (regs s))) (Z.to_nat size), size) :: ring).
Proof.
  intros size (A & R & W) Hs.
  set (w := read (stack s) (BPX pf (rbp (regs s))) (Z.to_nat size)).
  assert (Lw : Z.of_nat (length w) = size)
    by (unfold w; rewrite read_length; lia).
  unfold stored. cbn [encode flat_map fst snd]. fold (encode ring).
  rewrite <- app_assoc. cbn [app].
  split; [|split].
  - cbn [store_running csavail set_csa set_csavail set_size _size]. fold size.
    rewrite length_app. cbn [length]. lia.
  - apply read_eq_iff. intros i Hi.
    rewrite length_app in Hi. cbn [length] in Hi.
    cbn [store_running csa csavail stack set_csa set_csavail set_size _size].
    fold size. unfold upd, memmove, blit. rewrite Z.add_0_l.
    destruct (Z.eqb_spec (Z.of_nat i) size) as [E|N].
    + rewrite app_nth2 by lia.
      replace (i - length w)%nat with O by lia. reflexivity.
    + destruct (Z.ltb_spec (Z.of_nat i) size) as [L|G].
      * replace ((0 <=? Z.of_nat i) && (Z.of_nat i <? 0 + size)) with true
          by in_range.
        rewrite app_nth1 by lia. unfold w. rewrite nth_read by lia.
        f_equal. lia.
      * replace ((0 <=? Z.of_nat i) && (Z.of_nat i <? 0 + size)) with false
          by (symmetry; apply andb_false_iff; right; apply Z.ltb_ge; lia).
        replace ((size + 1 <=? Z.of_nat i) && (Z.of_nat i <? size + 1 + csavail s))
          with true
          by in_range.
        rewrite app_nth2 by lia.
        replace (i - length w)%nat with (S (i - length w - 1))%nat by lia.
        cbn [nth].
        replace (0 + (Z.of_nat i - (size + 1)))
          with (0 + Z.of_nat (i - length w - 1)) by lia.
        apply (proj1 (read_eq_iff _ _ _) R). lia.
  - constructor; [|exact W].
    rewrite <- Lw. apply well_sized_frame. lia.
Qed.

(** *** Reading the sizes back *)

Lemma walk_stored c ring :
  read c 0 (length (encode ring)) = encode ring ->
  Forall well_sized ring ->
  forall fuel, (length ring <= fuel)%nat ->
  walk fuel c (Z.of_nat (length (encode ring))) = rev (map size_of ring).
Proof.
  induction ring as [|im r IH] using rev_ind; intros R W fuel Hf.
  - destruct fuel; reflexivity.
  - rewrite length_app in Hf. cbn [length] in Hf.
    destruct fuel as [|fuel]; [lia|].
    apply Forall_app in W. destruct W as [Wr Wim]. apply Forall_inv in Wim.
    rewrite encode_snoc in *.
    apply read_app_inv in R. destruct R as [Rr R].
    apply read_app_inv in R. destruct R as [Rw Rd].
    unfold read in Rd. cbn in Rd. injection Rd as Rd.
    rewrite map_app, rev_app_distr. cbn [map rev app walk].
    rewrite !length_app, !Nat2Z.inj_add. cbn [length].
    destruct (Z.leb_spec (Z.of_nat (length (encode r))
                          + (Z.of_nat (length (fst im)) + Z.of_nat 1)) 0); [lia|].
    match goal with
    | |- context [c ?x] =>
        replace (c x) with (snd im) by (rewrite <- Rd; f_equal; lia)
    end.
    destruct Wim as [_ Wl]. rewrite Wl. unfold size_of. f_equal.
    match goal with
    | |- walk _ _ ?x = _ =>
        replace x with (Z.of_nat (length (encode r))) by lia
    end.
    apply IH; [exact Rr | exact Wr | lia].
Qed.

Lemma length_encode_ge ring : (length ring <= length (encode ring))%nat.
Proof.
  induction ring as [|im r IH]; [apply Nat.le_refl|].
  cbn [encode flat_map length]. fold (encode r).
  rewrite !length_app. cbn [length]. lia.
Qed.

Lemma image_sizes_stored s ring :
  stored s 0 ring -> image_sizes s = rev (map size_of ring).
Proof.
  intros (A & R & W). unfold image_sizes. rewrite A, Z.add_0_l.
  apply walk_stored; [exact R | exact W |].
  rewrite Nat2Z.id. apply length_encode_ge.
Qed.

Lemma sum_app l1 l2 : sum (l1 ++ l2) = sum l1 + sum l2.
Proof.
  unfold sum. induction l1 as [|x l1 IH]; cbn [app fold_right]; [reflexivity | lia].
Qed.

Lemma sum_sizes ring :
  sum (map (fun z => z + 1) (rev (map size_of ring)))
  = Z.of_nat (length (encode ring)).
Proof.
  induction ring as [|im r IH]; [reflexivity|].
  cbn [map rev encode flat_map]. fold (encode r).
  rewrite map_app, sum_app, IH, !length_app, !Nat2Z.inj_add.
  unfold size_of. cbn. lia.
Qed.

Lemma length_va_images pf cleanup_fn b n va :
  length (va_images pf cleanup_fn b n va) = n.
Proof.
  revert va. induction n as [|n IH]; intros va; cbn; [reflexivity|].
  now rewrite IH.
Qed.

Lemma spawned_vars s s' im :
  spawned s s' im ->
  base s' = base s /\ stack s' = stack s /\ regs s' = regs s /\
  coRBP s' = coRBP s /\ COBEGIN_EPILOG s' = COBEGIN_EPILOG s.
Proof.
  intros [(? & ? & ? & B & S & R & ? & C & E) ?]. cbn in B, S, R, C, E. tauto.
Qed.

Lemma cobegin_loop_stored pf cleanup_fn n :
  forall va s a ring,
  stored s a ring ->
  Forall (fun c => 0 <= c <= 127) (va_counts n va) ->
  let s' := cobegin_loop pf cleanup_fn n va s in
  stored s' a (ring ++ va_images pf cleanup_fn (base s) n va) /\
  coroutineCount s' = coroutineCount s + Z.of_nat n /\
  base s' = base s /\ stack s' = stack s /\ regs s' = regs s /\
  coRBP s' = coRBP s /\ COBEGIN_EPILOG s' = COBEGIN_EPILOG s.
Proof.
  induction n as [|n IH]; intros va s a ring St Hc.
  - cbn. rewrite app_nil_r. split; [exact St|]. repeat split; try reflexivity. lia.
  - cbn [va_counts] in Hc. inversion Hc as [|c cs Hc1 Hc2]; subst.
    destruct (marked_size_facts pf _ Hc1) as (_ & _ & _ & _ & _ & I8 & _).
    rewrite I8 in Hc2.
    replace (if hd 0 (tl va) >? 0
             then va_drop (hd 0 (tl va)) (tl (tl va)) else tl (tl va))
      with (va_drop (hd 0 (tl va)) (tl (tl va))) in Hc2.
    2:{ destruct (Z.gtb_spec (hd 0 (tl va)) 0); [reflexivity|].
        replace (hd 0 (tl va)) with 0 by lia. reflexivity. }
    destruct (cobegin_spawn_spawned pf cleanup_fn va s Hc1) as [Eva Sp].
    cbn [cobegin_loop va_images].
    destruct (cobegin_spawn pf cleanup_fn va s) as [va1 s1].
    cbn [fst snd] in Eva, Sp. subst va1.
    pose proof (spawned_vars _ _ _ Sp) as (B1 & S1 & R1 & C1 & E1).
    assert (W : well_sized (virgin_image pf cleanup_fn (base s) (hd 0 va)
                              (va_take (hd 0 (tl va)) (tl (tl va))))).
    { apply well_sized_virgin. rewrite length_va_take. lia. }
    pose proof (stored_spawned _ _ _ _ _ St Sp W) as St1.
    destruct (IH _ _ _ _ St1 Hc2) as (St2 & N2 & B2 & S2 & R2 & C2 & E2).
    rewrite B1 in St2. rewrite <- app_assoc in St2. cbn [app] in St2.
    destruct Sp as [_ N1].
    split; [exact St2|]. repeat split; try congruence. lia.
Qed.

(** *** The invariant of the kernel *)

Lemma last_exists {A} (l : list A) :
  l <> [] -> exists r x, l = r ++ [x].
Proof.
  intros H. destruct (exists_last H) as (r & x & E). now exists r, x.
Qed.

Lemma switch_to_top_invariant pf s ring :
  stored s 0 ring -> ring <> [] ->
  coroutineCount s = Z.of_nat (length ring) ->
  fst (switch_to_top pf s) <> ReturnToHost /\
  fst (switch_to_top pf s) <> ReturnToCaller /\
  ring_invariant InRing (snd (switch_to_top pf s)).
Proof.
  intros St Hne Hc. destruct (last_exists _ Hne) as (r & im & ->).
  destruct (switch_to_top_stored pf s 0 r im St)
    as (St' & C & _ & _ & _ & _ & N & _).
  rewrite C. repeat split; try discriminate.
  exists r. split; [exact St'|]. rewrite N, Hc, length_app. cbn. lia.
Qed.

Lemma mode_after_resume c :
  c <> ReturnToHost -> c <> ReturnToCaller -> mode_after c = InRing.
Proof. destruct c; intros; [reflexivity | contradiction | contradiction]. Qed.

Lemma reachable_invariant pf cleanup_fn m s :
  reachable pf cleanup_fn m s -> ring_invariant m s.
Proof.
  induction 1 as [s A C | m s st r _ IH | m s e argc va _ IH Ha Hf
                 | s n va _ IH Hc Hf | s _ IH Hs Hf | s _ IH].
  - exists []. unfold stored. cbn. repeat split; try assumption; constructor.
  - destruct IH as (ring & St & N). exists ring. split; [|exact N].
    revert St. apply stored_ext; reflexivity.
  - destruct IH as (ring & St & N).
    pose proof (invoke_spawned pf cleanup_fn e argc va s Ha) as Sp.
    exists (ring ++ [virgin_image pf cleanup_fn (base s) e (va_take argc va)]).
    split.
    + apply (stored_spawned _ _ _ _ _ St Sp).
      apply well_sized_virgin. rewrite length_va_take. lia.
    + destruct Sp as [_ ->]. rewrite N, length_app. cbn [length]. lia.
  - destruct IH as (ring & St & N).
    assert (St0 : stored (cobegin_start pf s) 0 ring)
      by (revert St; apply stored_ext; destruct pf; reflexivity).
    destruct (cobegin_loop_stored pf cleanup_fn n va _ 0 ring St0 Hc)
      as (St1 & N1 & _).
    replace (coroutineCount (cobegin_start pf s)) with (coroutineCount s) in N1
      by (destruct pf; reflexivity).
    unfold cobegin. cbv zeta.
    destruct (Z.gtb_spec
                (coroutineCount (cobegin_loop pf cleanup_fn n va (cobegin_start pf s))) 0)
      as [G|L].
    + destruct (switch_to_top_invariant pf _ _ St1) as (C1 & C2 & I).
      * intros E. apply (f_equal (@length _)) in E.
        rewrite length_app, length_va_images in E. cbn in E, N. lia.
      * rewrite N1, N, length_app, length_va_images. lia.
      * rewrite (mode_after_resume _ C1 C2). exact I.
    + cbn [fst snd mode_after]. eexists. split; [exact St1|].
      rewrite length_app, length_va_images. lia.
  - destruct IH as (ring & St & N).
    unfold coresume. destruct (Z.gtb_spec (coroutineCount s) 1) as [G|L];
      [|exists ring; split; assumption].
    assert (A : 0 <= csavail s) by (destruct St as [-> _]; lia).
    assert (B : 0 <= base s - 2 - BPX pf (rbp (regs s)) < 2 ^ 56)
      by (unfold CSA_SIZE in Hf; lia).
    pose proof (store_running_stored pf s ring St B) as St1.
    destruct (switch_to_top_invariant pf _ _ St1) as (_ & _ & I).
    + discriminate.
    + cbn [length]. change (coroutineCount (store_running pf s))
        with (coroutineCount s). lia.
    + exact I.
  - destruct IH as (ring & St & N).
    unfold cleanup. cbv zeta.
    change (coroutineCount (set_coroutineCount (coroutineCount s - 1) s))
      with (coroutineCount s - 1).
    destruct (Z.eqb_spec (coroutineCount s - 1) 0) as [E|NE].
    + assert (ring = []) as -> by (destruct ring; [reflexivity | cbn in N; lia]).
      destruct pf; cbn [fst snd mode_after]; exists []; split;
        try (revert St; apply stored_ext; reflexivity); cbn; lia.
    + set (s1 := set_coroutineCount (coroutineCount s - 1) s).
      assert (St1 : stored s1 0 ring)
        by (revert St; apply stored_ext; reflexivity).
      destruct (switch_to_top_invariant pf s1 ring St1) as (C1 & C2 & I).
      * intros ->. cbn in N. lia.
      * cbn. lia.
      * rewrite (mode_after_resume _ C1 C2). exact I.
Qed.

(** *** The counter *)

Lemma count_push_all l s : coroutineCount (push_all l s) = coroutineCount s.
Proof.
  revert s. induction l as [|v l IH]; intros s; [reflexivity|].
  cbn [push_all fold_left]. fold (push_all l (push v s)). now rewrite IH.
Qed.

Lemma count_frame_head pf cleanup_fn e s :
  coroutineCount (fst (push_frame_head pf cleanup_fn e s)) = coroutineCount s.
Proof. destruct pf; reflexivity. Qed.

Lemma count_parameters argc va fc s :
  coroutineCount (fst (push_parameters argc va fc s)) = coroutineCount s.
Proof.
  unfold push_parameters.
  destruct (argc >? 0); [destruct (Z.rem argc 2 =? 1)|destruct (argc =? 0)];
    cbn [fst]; try reflexivity; try apply count_push_all.
  all: try (change (coroutineCount (push_all (va_take argc va) s)
                    = coroutineCount s); apply count_push_all).
Qed.

Lemma count_invoke pf cleanup_fn e argc va s :
  coroutineCount (invoke pf cleanup_fn e argc va s) = coroutineCount s + 1.
Proof.
  unfold invoke.
  pose proof (count_frame_head pf cleanup_fn e s) as H1.
  destruct (push_frame_head pf cleanup_fn e s) as [s1 fc1]. cbn [fst] in H1.
  pose proof (count_parameters argc va fc1 s1) as H2.
  destruct (push_parameters argc va fc1 s1) as [s2 fc2]. cbn [fst] in H2.
  cbn. congruence.
Qed.

Lemma count_cobegin_spawn pf cleanup_fn va s :
  coroutineCount (snd (cobegin_spawn pf cleanup_fn va s)) = coroutineCount s + 1.
Proof.
  unfold cobegin_spawn.
  pose proof (count_frame_head pf cleanup_fn (hd 0 va) s) as H1.
  destruct (push_frame_head pf cleanup_fn (hd 0 va) s) as [s1 fc1].
  cbn [fst] in H1.
  pose proof (count_parameters (int8 (hd 0 (tl va))) (tl (tl va)) fc1 s1) as H2.
  destruct (push_parameters (int8 (hd 0 (tl va))) (tl (tl va)) fc1 s1)
    as [s2 fc2].
  cbn [fst] in H2. cbn. congruence.
Qed.

Lemma count_switch_to_top pf s :
  coroutineCount (snd (switch_to_top pf s)) = coroutineCount s.
Proof.
  pose proof (switch_to_top_vars pf s) as V. cbv zeta in V. tauto.
Qed.

Lemma count_cleanup pf s :
  coroutineCount (snd (cleanup pf s)) = coroutineCount s - 1.
Proof.
  unfold cleanup. cbv zeta.
  change (coroutineCount (set_coroutineCount (coroutineCount s - 1) s))
    with (coroutineCount s - 1).
  destruct (coroutineCount s - 1 =? 0).
  - destruct pf; reflexivity.
  - now rewrite count_switch_to_top.
Qed.

Lemma count_coresume pf s :
  coroutineCount (snd (coresume pf s)) = coroutineCount s.
Proof.
  unfold coresume. destruct (coroutineCount s >? 1); [|reflexivity].
  now rewrite count_switch_to_top.
Qed.

(** ** The kernel's bookkeeping (C6 to C8, X26) *)

(** X26: in every state reached from an empty csa by spawning (invoke,
    cobegin), yielding (coresume) and terminating (cleanup), where every call
    stays within CSA_SIZE and every coroutine is given at most 127
    parameters, the sizes of the coroutines stored in the csa, each counted
    with its size word, add up to [csavail - csa]. *)
Theorem csa_accounting pf cleanup_fn m s :
  reachable pf cleanup_fn m s ->
  sum (map (fun size => size + 1) (image_sizes s)) = csavail s.
Proof.
  intros R. destruct (reachable_invariant _ _ _ _ R) as (ring & St & _).
  rewrite (image_sizes_stored _ _ St), sum_sizes.
  destruct St as [-> _]. lia.
Qed.

Lemma csa_accounting_witness :
  reachable SysV 5000 InHost (invoke SysV 5000 111 1 [7] boot) /\
  sum (map (fun size => size + 1)
           (image_sizes (invoke SysV 5000 111 1 [7] boot)))
  = csavail (invoke SysV 5000 111 1 [7] boot).
Proof.
  assert (R : reachable SysV 5000 InHost (invoke SysV 5000 111 1 [7] boot)).
  { apply reach_invoke.
    - apply reach_start; reflexivity.
    - lia.
    - apply Z.leb_le. vm_compute. reflexivity. }
  split; [exact R | exact (csa_accounting SysV 5000 InHost _ R)].
Defined.

(** C6 as the claim has it fails in a state the code reaches: after the loop
    of cobegin has stored one coroutine given with 128 parameters, which the
    header of mt.cpp allows, [csavail - csa] is 5 (the four longs of the head
    and the size word: the count, read into an [int8_t], is -128) and the
    size word says 2^56 - 124 longs.  invoke, which keeps the count in an
    [int], stores 132 longs under a size word that says 132. *)
Lemma cobegin_128_accounting :
  csavail (cobegin_loop SysV 5000 1 (111 :: 128 :: repeat 7 128)
             (cobegin_start SysV boot)) = 5 /\
  image_sizes (cobegin_loop SysV 5000 1 (111 :: 128 :: repeat 7 128)
                 (cobegin_start SysV boot)) = [2 ^ 56 - 124] /\
  sum (map (fun size => size + 1)
         (image_sizes (cobegin_loop SysV 5000 1 (111 :: 128 :: repeat 7 128)
                         (cobegin_start SysV boot))))
  <> csavail (cobegin_loop SysV 5000 1 (111 :: 128 :: repeat 7 128)
                (cobegin_start SysV boot)) /\
  image_sizes (invoke SysV 5000 111 128 (repeat 7 128) boot) = [132] /\
  csavail (invoke SysV 5000 111 128 (repeat 7 128) boot) = 133.
Proof.
  split; [vm_compute; reflexivity|]. split; [vm_compute; reflexivity|].
  split; [vm_compute; discriminate|].
  split; vm_compute; reflexivity.
Qed.

(** C7: while a ring runs, [coroutineCount] is the number of size words in
    the csa plus one; invoke and each turn of cobegin's loop add one to it,
    cleanup takes one off, coresume leaves it alone, and getCoroutineCount
    returns it. *)
Theorem coroutine_count pf cleanup_fn s :
  reachable pf cleanup_fn InRing s ->
  getCoroutineCount s = Z.of_nat (length (image_sizes s)) + 1 /\
  (forall e argc va,
     getCoroutineCount (invoke pf cleanup_fn e argc va s)
     = getCoroutineCount s + 1) /\
  (forall va,
     getCoroutineCount (snd (cobegin_spawn pf cleanup_fn va s))
     = getCoroutineCount s + 1) /\
  getCoroutineCount (snd (cleanup pf s)) = getCoroutineCount s - 1 /\
  getCoroutineCount (snd (coresume pf s)) = getCoroutineCount s.
Proof.
  intros R. unfold getCoroutineCount.
  destruct (reachable_invariant _ _ _ _ R) as (ring & St & N).
  split; [|split; [|split; [|split]]].
  - rewrite (image_sizes_stored _ _ St), length_rev, length_map. exact N.
  - intros. apply count_invoke.
  - intros. apply count_cobegin_spawn.
  - apply count_cleanup.
  - apply count_coresume.
Qed.

Lemma two_started_reachable pf : reachable pf 5000 InRing (two_started pf).
Proof.
  assert (R : reachable pf 5000
                (mode_after (fst (cobegin pf 5000 2 [111; 0; 222; 1; 7] boot)))
                (two_started pf)).
  { apply reach_cobegin.
    - apply reach_start; reflexivity.
    - cbn. repeat constructor; lia.
    - apply Z.leb_le. destruct pf; vm_compute; reflexivity. }
  destruct pf; exact R.
Defined.

Lemma coroutine_count_witness :
  reachable SysV 5000 InRing (two_started SysV) /\
  getCoroutineCount (two_started SysV)
  = Z.of_nat (length (image_sizes (two_started SysV))) + 1.
Proof.
  split; [apply two_started_reachable|].
  exact (proj1 (coroutine_count SysV 5000 _ (two_started_reachable SysV))).
Defined.

(** C8: with at most one coroutine, [coresume] returns to its caller and
    changes nothing: the csa, [csavail], [coroutineCount] and everything else
    are as before. *)
Theorem coresume_alone pf s :
  coroutineCount s <= 1 -> coresume pf s = (ReturnToCaller, s).
Proof.
  intros H. unfold coresume.
  destruct (Z.gtb_spec (coroutineCount s) 1); [lia | reflexivity].
Qed.

Lemma coresume_alone_witness :
  coroutineCount (invoke SysV 5000 111 0 [] boot) <= 1 /\
  coresume SysV (invoke SysV 5000 111 0 [] boot)
  = (ReturnToCaller, invoke SysV 5000 111 0 [] boot).
Proof.
  assert (H : coroutineCount (invoke SysV 5000 111 0 [] boot) <= 1)
    by (apply Z.leb_le; reflexivity).
  split; [exact H | exact (coresume_alone SysV _ H)].
Defined.

(** ** What a yield and a spawn write (C1, C5, X25) *)

Lemma BPX_offset pf r :
  BPX pf r = r - match pf with SysV => 1 | Cygwin => -1 end.
Proof. destruct pf; reflexivity. Qed.

(** C1 (as the code has it): when [coresume] is called with more than one
    coroutine active, the coroutine it stores at the bottom of the csa has
    (base - 2) - (rbp - k) longs, where k is 1 on macOS and -1 on Cygwin
    (the source subtracts -1 there); that count is the size word written
    above it and the longs are those of the stack from rbp - k upwards. *)
Theorem yielder_size pf cleanup_fn s :
  reachable pf cleanup_fn InRing s ->
  coroutineCount s > 1 ->
  let k := match pf with SysV => 1 | Cygwin => -1 end in
  let size := (base s - 2) - (rbp (regs s) - k) in
  0 <= size ->
  csavail s + size + 1 <= CSA_SIZE ->
  let s' := snd (coresume pf s) in
  last (image_sizes s') 0 = size /\
  csa s' size = size /\
  read (csa s') 0 (Z.to_nat size) = read (stack s) (rbp (regs s) - k) (Z.to_nat size).
Proof.
  intros R C k size H0 Hf s'.
  destruct (reachable_invariant _ _ _ _ R) as (ring & St & N).
  assert (E : base s - 2 - BPX pf (rbp (regs s)) = size)
    by (rewrite BPX_offset; reflexivity).
  assert (A : 0 <= csavail s) by (destruct St as [-> _]; lia).
  assert (B : 0 <= base s - 2 - BPX pf (rbp (regs s)) < 2 ^ 56)
    by (unfold CSA_SIZE in Hf; lia).
  pose proof (store_running_stored pf s ring St B) as St1.
  rewrite E, BPX_offset in St1. fold k in St1.
  set (w := read (stack s) (rbp (regs s) - k) (Z.to_nat size)) in *.
  assert (Hne : ring <> []) by (intros ->; cbn in N; lia).
  destruct (last_exists _ Hne) as (r & top & ->).
  subst s'. unfold coresume.
  replace (coroutineCount s >? 1) with true by (symmetry; apply Z.gtb_lt; lia).
  change ((w, size) :: r ++ [top]) with (((w, size) :: r) ++ [top]) in St1.
  destruct (switch_to_top_stored pf _ 0 _ _ St1) as (St2 & _).
  pose proof (switch_to_top_vars pf (store_running pf s)) as V. cbv zeta in V.
  destruct V as (_ & _ & _ & V4 & _).
  split; [|split].
  - rewrite (image_sizes_stored _ _ St2). cbn [map rev].
    rewrite last_last. unfold size_of, w. cbn [fst].
    rewrite read_length. lia.
  - rewrite V4. cbn. rewrite E. unfold upd. now rewrite Z.eqb_refl.
  - destruct St2 as (_ & Rd & _).
    cbn [encode flat_map fst snd] in Rd. rewrite <- app_assoc in Rd.
    apply read_app_inv in Rd. destruct Rd as [Rd _].
    unfold w in Rd at 1. rewrite read_length in Rd. exact Rd.
Qed.

Lemma about_to_yield_reachable pf :
  reachable pf 5000 InRing (about_to_yield pf).
Proof. apply reach_user. apply two_started_reachable. Defined.

Lemma yielder_size_witness :
  reachable SysV 5000 InRing (about_to_yield SysV) /\
  coroutineCount (about_to_yield SysV) > 1 /\
  last (image_sizes (snd (coresume SysV (about_to_yield SysV)))) 0
  = (base (about_to_yield SysV) - 2) - (rbp (regs (about_to_yield SysV)) - 1).
Proof.
  split; [apply about_to_yield_reachable|]. split; [reflexivity|].
  refine (proj1 (yielder_size SysV 5000 (about_to_yield SysV)
                   (about_to_yield_reachable SysV) _ _ _)).
  - reflexivity.
  - apply Z.leb_le. vm_compute. reflexivity.
  - apply Z.leb_le. vm_compute. reflexivity.
Defined.

(** C1 as the claim has it fails on Cygwin: with base = 998 and rbp = 980 the
    stored coroutine has 15 longs, where (base - 2) - (rbp - 3) is 19. *)
Lemma yielder_size_cygwin_counterexample :
  reachable Cygwin 5000 InRing (about_to_yield Cygwin) /\
  coroutineCount (about_to_yield Cygwin) = 2 /\
  last (image_sizes (snd (coresume Cygwin (about_to_yield Cygwin)))) 0 = 15 /\
  (base (about_to_yield Cygwin) - 2)
  - (rbp (regs (about_to_yield Cygwin)) - 3) = 19.
Proof.
  split; [apply about_to_yield_reachable|].
  vm_compute. repeat split; reflexivity.
Qed.

(** X25: a spawn for which the csa has room stores the head of the frame,
    the argc parameters and the filler (two longs for argc = 0, one for odd
    argc, none otherwise), and above them a size word whose low 56 bits are
    that number of longs and whose high-order byte is 0x80 | argc: through
    invoke for 0 <= argc <= 255, through a turn of cobegin's loop for
    0 <= argc <= 127. *)
Theorem spawn_size_word pf cleanup_fn e argc va s :
  0 <= csavail s ->
  csavail s + spawn_longs pf argc <= CSA_SIZE ->
  forall s',
    0 <= argc <= 255 /\ s' = invoke pf cleanup_fn e argc va s \/
    0 <= argc <= 127 /\
    s' = snd (cobegin_spawn pf cleanup_fn (e :: argc :: va) s) ->
  let count := head_count pf + argc + filler argc in
  let d := csa s' (csavail s' - 1) in
  csavail s' = csavail s + count + 1 /\
  read (csa s') (csavail s) (Z.to_nat count)
  = frame_head pf cleanup_fn (base s) e ++ va_take argc va
    ++ repeat FILLER_VALUE (Z.to_nat (filler argc)) /\
  Z.land d SIZE_MASK = count /\
  high_byte d = Z.lor 0x80 argc /\
  0 <= csavail s' <= CSA_SIZE.
Proof.
  intros H0 H1 s' Hs' count d.
  assert (H : 0 <= argc <= 255) by (destruct Hs' as [[H _]|[H _]]; lia).
  assert (Sp : spawned s s' (virgin_image pf cleanup_fn (base s) e (va_take argc va))).
  { destruct Hs' as [[_ ->] | [H' ->]].
    - apply invoke_spawned_any. lia.
    - apply (cobegin_spawn_spawned pf cleanup_fn (e :: argc :: va) s). exact H'. }
  destruct Sp as [(A & Rd & _) _]. cbn [csavail set_coroutineCount csa] in A, Rd.
  rewrite virgin_image_longs in A, Rd.
  rewrite length_va_take, Z2Nat.id in A, Rd by lia.
  pose proof (size_word_ok_range pf argc H) as K. unfold size_word_ok in K.
  cbv zeta in K. apply andb_prop in K. destruct K as [L Hb].
  apply Z.eqb_eq in L, Hb.
  set (w := frame_head pf cleanup_fn (base s) e ++ va_take argc va
            ++ repeat FILLER_VALUE (Z.to_nat (filler argc))) in *.
  assert (Lw : Z.of_nat (length w) = count).
  { unfold w, count, head_count.
    rewrite !length_app, repeat_length, length_va_take, !Nat2Z.inj_add,
      length_frame_head, !Z2Nat.id; [lia | | lia].
    unfold filler. destruct (argc =? 0); [lia|]. destruct (Z.odd argc); lia. }
  apply read_app_inv in Rd. destruct Rd as [Rw Rd].
  unfold read in Rd. cbn in Rd. injection Rd as Rd.
  rewrite length_app in A. cbn [length] in A.
  assert (D : d = marked_size pf argc
                    (filler argc + match pf with SysV => 0 | Cygwin => 4 end)).
  { unfold d. rewrite <- Rd. f_equal. lia. }
  split; [lia|]. split; [|split; [|split]].
  - rewrite <- Lw, Nat2Z.id. exact Rw.
  - rewrite D, L. unfold count, head_count. lia.
  - rewrite D. exact Hb.
  - unfold spawn_longs in H1. fold count in H1. lia.
Qed.

Lemma spawn_size_word_witness :
  0 <= csavail boot /\
  csavail boot + spawn_longs SysV 3 <= CSA_SIZE /\
  high_byte (csa (invoke SysV 5000 111 3 [7; 8; 9] boot)
                 (csavail (invoke SysV 5000 111 3 [7; 8; 9] boot) - 1))
  = Z.lor 0x80 3.
Proof.
  assert (H0 : 0 <= csavail boot) by (cbn; lia).
  assert (H1 : csavail boot + spawn_longs SysV 3 <= CSA_SIZE)
    by (apply Z.leb_le; reflexivity).
  split; [exact H0|]. split; [exact H1|].
  refine (proj1 (proj2 (proj2 (proj2
           (spawn_size_word SysV 5000 111 3 [7; 8; 9] boot H0 H1 _
                            (or_introl (conj _ eq_refl))))))).
  lia.
Defined.

(** C5 as the claim has it fails in cobegin for a count of 128, which the
    header of mt.cpp allows (no maximum to the number of longs as
    parameters).  One turn of cobegin's loop reads the count into an
    [int8_t] as -128: it stores the four longs of the head and no parameter,
    and a size word whose low 56 bits are 2^56 - 124 and whose high-order
    byte is 0xFF, where 0x80 | 128 is 0x80.  invoke, which keeps the count
    in an [int], stores the head and the 128 parameters under a size word
    whose low 56 bits are 132 and whose high-order byte is 0x80. *)
Lemma cobegin_128_size_word :
  (csavail (snd (cobegin_spawn SysV 5000 (111 :: 128 :: repeat 7 128) boot))
   - 1 - csavail boot = 4 /\
   Z.land (csa (snd (cobegin_spawn SysV 5000 (111 :: 128 :: repeat 7 128) boot))
               4) SIZE_MASK = 2 ^ 56 - 124 /\
   high_byte (csa (snd (cobegin_spawn SysV 5000 (111 :: 128 :: repeat 7 128) boot))
                  4) = 0xFF /\
   Z.lor 0x80 128 = 0x80) /\
  (csavail (invoke SysV 5000 111 128 (repeat 7 128) boot)
   - 1 - csavail boot = 132 /\
   Z.land (csa (invoke SysV 5000 111 128 (repeat 7 128) boot) 132) SIZE_MASK
   = 132 /\
   high_byte (csa (invoke SysV 5000 111 128 (repeat 7 128) boot) 132) = 0x80).
Proof. vm_compute. repeat split; reflexivity. Qed.

(** ** C2: the parameters of a coroutine entered for the first time *)

Lemma load_registers_spec pf m p s :
  1 <= m <= IN_REGISTERS_COUNT pf ->
  forall i, Z.of_nat i < m ->
    nth i (argument_registers pf (load_registers pf m p s)) 0
    = csa s (p - m + 1 + Z.of_nat i).
Proof.
  intros Hm i Hi. destruct pf; cbn [IN_REGISTERS_COUNT] in Hm.
  - assert (E : m = 1 \/ m = 2 \/ m = 3 \/ m = 4 \/ m = 5 \/ m = 6) by lia.
    destruct E as [-> | [-> | [-> | [-> | [-> | ->]]]]];
      destruct i as [|[|[|[|[|[|i]]]]]]; try lia; cbn; f_equal; lia.
  - assert (E : m = 1 \/ m = 2 \/ m = 3 \/ m = 4) by lia.
    destruct E as [-> | [-> | [-> | ->]]];
      destruct i as [|[|[|[|i]]]]; try lia; cbn; f_equal; lia.
Qed.

Lemma int8_small z : -128 <= z <= 127 -> int8 z = z.
Proof.
  intros H. unfold int8. rewrite Z.mod_small by lia. lia.
Qed.

Lemma place_parameters_spec pf N p s :
  1 <= N <= 127 ->
  let R := IN_REGISTERS_COUNT pf in
  let last_p := if Z.odd N then p - 1 else p in
  let s' := place_parameters pf N p s in
  (forall i, Z.of_nat i < Z.min N R ->
     nth i (argument_registers pf s') 0 = csa s (last_p - N + 1 + Z.of_nat i)) /\
  stack s' = (if N >? R
              then blit (stack s) (baseMinusSize s + excess_home pf) (csa s)
                        (last_p - N + 1 + R) (N - R)
              else stack s).
Proof.
  intros HN R last_p s'. subst s'. unfold place_parameters.
  assert (HR : 4 <= R <= 6) by (unfold R; destruct pf; cbn; lia).
  replace (negb (Z.rem N 2 =? 0)) with (Z.odd N).
  2:{ rewrite Z.rem_mod_nonneg, <- Z.bit0_mod, Z.bit0_odd by lia.
      destruct (Z.odd N); reflexivity. }
  fold last_p. fold R. rewrite (int8_small (N - R)) by lia.
  destruct (Z.gtb_spec N R) as [G|L].
  - replace (N - R >? 0) with true by (symmetry; apply Z.gtb_lt; lia).
    destruct (load_registers_vars pf R (last_p - (N - R))
                (set_stack (blit (stack s) (baseMinusSize s + excess_home pf)
                                 (csa s) (last_p - (N - R) + 1) (N - R)) s))
      as (r & E & _).
    split.
    + intros i Hi. rewrite load_registers_spec by (unfold R in *; lia).
      cbn [csa set_stack]. f_equal. lia.
    + rewrite E. cbn [stack set_regs set_stack]. f_equal. lia.
  - replace (N - R >? 0) with false
      by (symmetry; rewrite Z.gtb_ltb; apply Z.ltb_ge; lia).
    destruct (load_registers_vars pf N last_p s) as (r & E & _).
    split.
    + intros i Hi. rewrite load_registers_spec by (unfold R in *; lia).
      f_equal.
    + rewrite E. reflexivity.
Qed.

Lemma parameter_register pf s i :
  Z.of_nat i < IN_REGISTERS_COUNT pf ->
  parameter pf s i = nth i (argument_registers pf s) 0.
Proof.
  intros H. destruct pf; cbn [IN_REGISTERS_COUNT] in H.
  - destruct i as [|[|[|[|[|[|i]]]]]]; try lia; reflexivity.
  - destruct i as [|[|[|[|i]]]]; try lia; reflexivity.
Qed.

Lemma parameter_stack pf s i :
  IN_REGISTERS_COUNT pf <= Z.of_nat i ->
  parameter pf s i
  = stack s (rsp (regs s) + 1 + match pf with SysV => 0 | Cygwin => 4 end
             + (Z.of_nat i - IN_REGISTERS_COUNT pf)).
Proof.
  intros H. destruct pf; cbn [IN_REGISTERS_COUNT] in *.
  - destruct i as [|[|[|[|[|[|i]]]]]]; try lia.
    unfold parameter. f_equal. lia.
  - destruct i as [|[|[|[|i]]]]; try lia.
    unfold parameter. f_equal.
Qed.

Lemma epilogue_argument_registers pf s :
  argument_registers pf (snd (epilogue pf s)) = argument_registers pf s.
Proof. destruct pf; reflexivity. Qed.

Lemma nth_virgin_parameter pf cleanup_fn b e args i :
  (i < length args)%nat ->
  nth (Z.to_nat (head_count pf) + i)
      (virgin_words pf cleanup_fn b e args) 0 = nth i args 0.
Proof.
  intros H. unfold virgin_words.
  replace (Z.to_nat (head_count pf))
    with (length (frame_head pf cleanup_fn b e)) by (destruct pf; reflexivity).
  rewrite app_nth2_plus. now rewrite app_nth1.
Qed.

Lemma filler_last argc :
  1 <= argc -> filler argc - (if Z.odd argc then 1 else 0) = 0.
Proof.
  intros H. unfold filler. destruct (Z.eqb_spec argc 0); [lia|].
  destruct (Z.odd argc); reflexivity.
Qed.

(** C2: when [popCoroutine] restores, for the first time, a coroutine stored
    with N parameters (as invoke and cobegin store it, see [invoke_spawned]
    and [cobegin_spawn_spawned]; N within the mark's seven bits), the first
    min(N, R) of them are in the ABI's argument registers in
    calling-convention order and the remaining N - R are on the stack where
    the ABI passes arguments; the coroutine is entered at its entry point
    with its return address in [cleanup], and its i-th parameter is the i-th
    one given to the spawn. *)
Theorem virgin_parameters pf cleanup_fn s a r b e args :
  stored s a (r ++ [virgin_image pf cleanup_fn b e args]) ->
  (length args <= 127)%nat ->
  let R := Z.to_nat (IN_REGISTERS_COUNT pf) in
  let s' := snd (epilogue pf (popCoroutine pf s)) in
  fst (epilogue pf (popCoroutine pf s)) = Resume e /\
  stack s' (rsp (regs s')) = cleanup_fn + CLEANUP_OFFSET pf /\
  firstn (length args) (argument_registers pf s') = firstn R args /\
  stack_arguments pf s' (length args - R) = skipn R args /\
  forall i, (i < length args)%nat -> parameter pf s' i = nth i args 0.
Proof.
  intros St HN R s'.
  set (im := virgin_image pf cleanup_fn b e args) in *.
  set (w := fst im). set (N := Z.of_nat (length args)).
  destruct (stored_top _ _ _ _ St) as (D & [Wp Wl] & _ & Rw & _).
  fold w in Wp, Wl, Rw.
  assert (Lw : Z.of_nat (length w)
               = head_count pf + N + filler N)
    by (unfold w, im, virgin_image, head_count, N; cbv zeta; cbn [fst];
        rewrite length_virgin_words; lia).
  assert (HN' : 0 <= N <= 127) by (unfold N; lia).
  assert (Hh : 4 <= head_count pf) by (destruct pf; cbn; lia).
  assert (HRz : Z.of_nat R = IN_REGISTERS_COUNT pf)
    by (unfold R; destruct pf; reflexivity).
  assert (HRr : 4 <= IN_REGISTERS_COUNT pf <= 6) by (destruct pf; cbn; lia).
  assert (Hpc : Z.of_nat (pc_slot pf) = saved_registers pf + 1 /\
                saved_registers pf + 2 < excess_home pf /\
                (pc_slot pf < 5)%nat)
    by (destruct pf; cbn; lia).
  assert (Hf : 0 <= filler N)
    by (unfold filler; destruct (N =? 0); [lia|]; destruct (Z.odd N); lia).
  assert (Hf2 : 2 <= N + filler N).
  { unfold filler. destruct (Z.eqb_spec N 0); [lia|].
    destruct (Z.eq_dec N 1) as [->|]; [cbn; lia|].
    destruct (Z.odd N); lia. }
  assert (M : pop_mark (snd im) = N).
  { unfold im. rewrite virgin_image_size_word.
    destruct (marked_size_facts pf N HN') as (_ & _ & _ & M & _). exact M. }
  set (A := csavail s - 1 - Z.of_nat (length w)) in *.
  set (bms := base s - Z.of_nat (length w) - 2).
  assert (Csa : forall i, (i < length args)%nat ->
            csa s (A + head_count pf + Z.of_nat i) = nth i args 0).
  { intros i Hi.
    rewrite <- (nth_virgin_parameter pf cleanup_fn b e args i Hi).
    change (virgin_words pf cleanup_fn b e args) with w.
    rewrite <- (proj1 (read_eq_iff _ _ _) Rw) by lia.
    f_equal. lia. }
  (* the frame as popCoroutine leaves it *)
  pose proof (popCoroutine_vars pf s) as V. cbv zeta in V.
  rewrite D, Wp in V. fold bms in V. fold A in V.
  destruct V as (_ & _ & _ & _ & _ & _ & _ & _ & V9 & V10 & _).
  pose proof (epilogue_vars pf (popCoroutine pf s)) as E. cbv zeta in E.
  rewrite V9 in E.
  replace (bms - MAGIC_OFFSET pf / sizeof_long + MAGIC_OFFSET pf / sizeof_long)
    with bms in E by lia.
  fold s' in E.
  destruct E as (E1 & E2 & _ & _ & _ & _ & _ & _ & _ & E10 & _).
  assert (Head : forall i, (i < 6)%nat -> Z.of_nat i < excess_home pf ->
            stack s' (bms + Z.of_nat i) = nth i w 0).
  { intros i Hi Hh'. rewrite E10, V10 by lia. unfold blit.
    replace ((bms <=? bms + Z.of_nat i)
             && (bms + Z.of_nat i <? bms + Z.of_nat (length w)))
      with true by in_range.
    rewrite <- (proj1 (read_eq_iff _ _ _) Rw) by lia. f_equal. lia. }
  (* the parameters *)
  assert (P : (forall i, (i < length args)%nat -> (i < R)%nat ->
                 nth i (argument_registers pf s') 0 = nth i args 0) /\
              (forall i, (i < length args)%nat -> (R <= i)%nat ->
                 stack s' (bms + excess_home pf + Z.of_nat (i - R))
                 = nth i args 0)).
  { rewrite E10. unfold s'. rewrite epilogue_argument_registers.
    rewrite popCoroutine_eq. cbv zeta. rewrite D, M.
    destruct (Z.gtb_spec N 0) as [G|L].
    2:{ split; intros i Hi; unfold N in L; lia. }
    destruct (place_parameters_spec pf N (csavail s - 2) (popped pf s))
      as [Pr Ps]; [lia|].
    change (csa (popped pf s)) with (csa s) in Pr, Ps.
    change (baseMinusSize (popped pf s))
      with (base s - pop_size (csa s (csavail s - 1)) - 2) in Ps.
    rewrite D, Wp in Ps. fold bms in Ps.
    pose proof (filler_last N ltac:(lia)) as Fl.
    assert (Lp : (if Z.odd N then csavail s - 2 - 1 else csavail s - 2) - N + 1
                 = A + head_count pf).
    { unfold A. destruct (Z.odd N); lia. }
    rewrite Lp in Pr, Ps.
    split.
    - intros i Hi HR. cbn [argument_registers regs set_rsp set_regs].
      etransitivity; [|apply (Csa i Hi)].
      etransitivity; [|apply Pr; lia].
      destruct pf; reflexivity.
    - intros i Hi HR. cbn [stack set_rsp set_regs]. rewrite Ps.
      replace (N >? IN_REGISTERS_COUNT pf) with true
        by (symmetry; apply Z.gtb_lt; unfold N; lia).
      unfold blit.
      replace ((bms + excess_home pf <=? bms + excess_home pf + Z.of_nat (i - R))
               && (bms + excess_home pf + Z.of_nat (i - R)
                   <? bms + excess_home pf + (N - IN_REGISTERS_COUNT pf)))
        with true
        by (unfold N; in_range).
      rewrite <- (Csa i Hi). f_equal. lia. }
  destruct P as [Pr Ps].
  assert (Sp : rsp (regs s') + 1 + match pf with SysV => 0 | Cygwin => 4 end
               = bms + excess_home pf)
    by (rewrite E2; destruct pf; cbn; lia).
  destruct Hpc as (Hpc1 & Hpc2 & Hpc3).
  split; [|split; [|split; [|split]]].
  - rewrite E1, <- E10. f_equal.
    replace (bms + saved_registers pf + 1)
      with (bms + Z.of_nat (pc_slot pf)) by lia.
    rewrite Head by lia.
    destruct pf; reflexivity.
  - rewrite E2.
    replace (bms + saved_registers pf + 2)
      with (bms + Z.of_nat (S (pc_slot pf))) by lia.
    rewrite Head by lia.
    destruct pf; reflexivity.
  - apply (nth_ext _ _ 0 0).
    + rewrite !length_firstn.
      replace (length (argument_registers pf s')) with R
        by (destruct pf; reflexivity).
      lia.
    + intros i Hi. rewrite length_firstn in Hi.
      replace (length (argument_registers pf s')) with R in Hi
        by (destruct pf; reflexivity).
      rewrite !nth_firstn.
      destruct (Nat.ltb_spec i (length args)); [|lia].
      destruct (Nat.ltb_spec i R); [|lia].
      apply Pr; assumption.
  - unfold stack_arguments. rewrite Sp.
    rewrite <- (length_skipn R args).
    apply read_eq_iff. intros i Hi. rewrite length_skipn in Hi.
    rewrite nth_skipn.
    rewrite <- (Ps (R + i)%nat) by lia. f_equal. f_equal. lia.
  - intros i Hi. destruct (Nat.ltb_spec i R) as [L|G].
    + rewrite parameter_register by lia. apply Pr; assumption.
    + rewrite parameter_stack by lia.
      rewrite Sp, <- (Ps i Hi G). f_equal. lia.
Qed.

Lemma boot_empty : stored boot 0 [].
Proof. unfold stored. cbn. repeat split; constructor. Qed.

Lemma virgin_parameters_witness :
  stored (invoke SysV 5000 111 8 [1; 2; 3; 4; 5; 6; 7; 8] boot) 0
         ([] ++ [virgin_image SysV 5000 0 111 [1; 2; 3; 4; 5; 6; 7; 8]]) /\
  (8 <= 127)%nat /\
  stack_arguments SysV
    (snd (epilogue SysV
            (popCoroutine SysV
               (invoke SysV 5000 111 8 [1; 2; 3; 4; 5; 6; 7; 8] boot)))) 2
  = [7; 8].
Proof.
  assert (St : stored (invoke SysV 5000 111 8 [1; 2; 3; 4; 5; 6; 7; 8] boot) 0
                 ([] ++ [virgin_image SysV 5000 0 111 [1; 2; 3; 4; 5; 6; 7; 8]])).
  { apply (stored_spawned boot _ 0 []).
    - apply boot_empty.
    - apply (invoke_spawned SysV 5000 111 8 [1; 2; 3; 4; 5; 6; 7; 8] boot). lia.
    - apply well_sized_virgin. cbn. lia. }
  assert (H : (length [1; 2; 3; 4; 5; 6; 7; 8] <= 127)%nat) by (cbn; lia).
  split; [exact St|]. split; [lia|].
  exact (proj1 (proj2 (proj2 (proj2
           (virgin_parameters SysV 5000 _ 0 [] 0 111 [1; 2; 3; 4; 5; 6; 7; 8]
                              St H))))).
Defined.

(** ** The order in which cobegin's coroutines run (C3, X24) *)

Lemma va_take_app args rest :
  va_take (Z.of_nat (length args)) (args ++ rest) = args.
Proof.
  unfold va_take. rewrite Nat2Z.id. apply (nth_ext _ _ 0 0).
  - now rewrite length_map, length_seq.
  - intros i Hi. rewrite length_map, length_seq in Hi.
    rewrite (nth_indep _ 0 (nth 0 (args ++ rest) 0))
      by now rewrite length_map, length_seq.
    rewrite (map_nth (fun i => nth i (args ++ rest) 0)), seq_nth by assumption.
    now rewrite app_nth1.
Qed.

Lemma va_drop_app args rest :
  va_drop (Z.of_nat (length args)) (args ++ rest) = rest.
Proof.
  unfold va_drop. rewrite Nat2Z.id, skipn_app, skipn_all, Nat.sub_diag.
  reflexivity.
Qed.

Lemma va_images_args pf cleanup_fn b l :
  va_images pf cleanup_fn b (length l) (cobegin_args l)
  = map (spec_image pf cleanup_fn b) l.
Proof.
  induction l as [|[e args] l IH]; [reflexivity|].
  cbn [length va_images cobegin_args flat_map fst snd app hd tl map].
  fold (cobegin_args l).
  rewrite va_take_app, va_drop_app, IH. reflexivity.
Qed.

Lemma va_counts_args l :
  Forall (fun ea => (length (snd ea) <= 127)%nat) l ->
  Forall (fun c => 0 <= c <= 127) (va_counts (length l) (cobegin_args l)).
Proof.
  induction 1 as [|[e args] l H _ IH]; [constructor|].
  cbn [length va_counts cobegin_args flat_map fst snd app hd tl].
  fold (cobegin_args l). cbn [snd] in H.
  rewrite (int8_small (Z.of_nat (length args))) by lia.
  constructor; [lia|].
  replace (if Z.of_nat (length args) >? 0
           then va_drop (Z.of_nat (length args)) (args ++ cobegin_args l)
           else args ++ cobegin_args l)
    with (cobegin_args l); [exact IH|].
  destruct (Z.gtb_spec (Z.of_nat (length args)) 0).
  - now rewrite va_drop_app.
  - destruct args; [reflexivity | cbn in *; lia].
Qed.

(** Entering a coroutine that has not run yet: control reaches its entry
    point with the return address into [cleanup] under the stack pointer. *)
Lemma enter_virgin pf cleanup_fn s a r b e args :
  stored s a (r ++ [virgin_image pf cleanup_fn b e args]) ->
  let s' := snd (switch_to_top pf s) in
  fst (switch_to_top pf s) = Resume e /\
  stack s' (rsp (regs s')) = cleanup_fn + CLEANUP_OFFSET pf /\
  stored s' a r /\
  coroutineCount s' = coroutineCount s.
Proof.
  intros St s'.
  destruct (switch_to_top_stored pf s a r _ St)
    as (St' & C & Sp & _ & _ & _ & N & _ & _ & Hd & _).
  fold s' in St', C, Sp, N, Hd.
  set (w := fst (virgin_image pf cleanup_fn b e args)) in *.
  set (bms := base s - Z.of_nat (length w) - 2) in *.
  assert (Lw : (6 <= length w)%nat).
  { unfold w, virgin_image, virgin_words. cbv zeta. cbn [fst].
    rewrite !length_app, repeat_length. unfold filler.
    destruct args as [|x [|y args]]; destruct pf; cbn; try lia.
    all: destruct (Z.odd _); cbn; lia. }
  assert (Hpc : Z.of_nat (pc_slot pf) = saved_registers pf + 1 /\
                saved_registers pf + 2 < excess_home pf /\
                (pc_slot pf < 5)%nat)
    by (destruct pf; cbn; lia).
  destruct Hpc as (P1 & P2 & P3).
  split; [|split; [|split; [exact St' | exact N]]].
  - rewrite C. f_equal.
    replace (bms + saved_registers pf + 1)
      with (bms + Z.of_nat (pc_slot pf)) by lia.
    rewrite Hd by lia. destruct pf; reflexivity.
  - rewrite Sp.
    replace (bms + saved_registers pf + 2)
      with (bms + Z.of_nat (S (pc_slot pf))) by lia.
    rewrite Hd by lia. destruct pf; reflexivity.
Qed.

Lemma run_returning_step pf cleanup_fn fuel pc s :
  stack s (rsp (regs s)) = cleanup_fn + CLEANUP_OFFSET pf ->
  run_returning pf cleanup_fn (S fuel) (Resume pc) s
  = let cs := cleanup pf (set_rsp (rsp (regs s) + 1) s) in
    let r := run_returning pf cleanup_fn fuel (fst cs) (snd cs) in
    (pc :: fst (fst r), snd (fst r), snd r).
Proof.
  intros H. cbn [run_returning]. unfold coroutine_returns.
  rewrite H, Z.eqb_refl. cbv zeta.
  destruct (cleanup pf (set_rsp (rsp (regs s) + 1) s)) as [c' s2].
  cbn [fst snd].
  destruct (run_returning pf cleanup_fn fuel c' s2) as [[t c''] s3].
  reflexivity.
Qed.

Lemma run_returning_done pf cleanup_fn fuel s :
  run_returning pf cleanup_fn fuel ReturnToHost s = ([], ReturnToHost, s).
Proof. destruct fuel; reflexivity. Qed.

Lemma cleanup_last pf s :
  coroutineCount s = 1 ->
  fst (cleanup pf s) = ReturnToHost /\
  coroutineCount (snd (cleanup pf s)) = 0 /\
  csavail (snd (cleanup pf s)) = csavail s.
Proof.
  intros H. unfold cleanup. cbv zeta.
  change (coroutineCount (set_coroutineCount (coroutineCount s - 1) s))
    with (coroutineCount s - 1).
  rewrite H. cbn [Z.sub Z.add Z.opp Z.pos_sub Z.eqb].
  destruct pf; cbn; repeat split; lia.
Qed.

Lemma cleanup_next pf s :
  coroutineCount s <> 1 ->
  cleanup pf s
  = switch_to_top pf (set_coroutineCount (coroutineCount s - 1) s).
Proof.
  intros H. unfold cleanup. cbv zeta.
  change (coroutineCount (set_coroutineCount (coroutineCount s - 1) s))
    with (coroutineCount s - 1).
  destruct (Z.eqb_spec (coroutineCount s - 1) 0); [lia | reflexivity].
Qed.

(** Where [cleanup] puts the stack pointer to return to the host: on cobegin's
    saved rbx, found from what [cobegin] noted when it started. *)
Lemma cleanup_last_rsp pf s :
  coroutineCount s = 1 ->
  rsp (regs (snd (cleanup pf s)))
  = match pf with
    | SysV => coRBP s - CLEANUP_RSP_ADJUST / sizeof_long - 1
    | Cygwin => COBEGIN_EPILOG s
    end.
Proof.
  intros H. unfold cleanup. cbv zeta.
  change (coroutineCount (set_coroutineCount (coroutineCount s - 1) s))
    with (coroutineCount s - 1).
  rewrite H. cbn [Z.sub Z.add Z.opp Z.pos_sub Z.eqb].
  destruct pf; reflexivity.
Qed.

Lemma run_returning_all pf cleanup_fn b l :
  forall s a pc,
  stored s a (map (spec_image pf cleanup_fn b) l) ->
  coroutineCount s = Z.of_nat (length l) + 1 ->
  stack s (rsp (regs s)) = cleanup_fn + CLEANUP_OFFSET pf ->
  exists s',
    run_returning pf cleanup_fn (S (length l)) (Resume pc) s
    = (pc :: rev (map fst l), ReturnToHost, s') /\
    coroutineCount s' = 0 /\ csavail s' = a /\
    rsp (regs s')
    = match pf with
      | SysV => coRBP s - CLEANUP_RSP_ADJUST / sizeof_long - 1
      | Cygwin => COBEGIN_EPILOG s
      end.
Proof.
  induction l as [|x l IH] using rev_ind; intros s a pc St N En.
  - rewrite (run_returning_step _ _ _ _ _ En). cbv zeta.
    set (s1 := set_rsp (rsp (regs s) + 1) s).
    destruct (cleanup_last pf s1) as (C & N' & A'); [exact N|].
    pose proof (cleanup_last_rsp pf s1 N) as R'.
    rewrite C, run_returning_done. cbn [fst snd].
    eexists. split; [reflexivity|]. split; [exact N'|].
    split; [|exact R'].
    rewrite A'. destruct St as (A & _). cbn in A.
    change (csavail s1) with (csavail s). lia.
  - rewrite length_app in *. cbn [length] in *.
    replace (length l + 1)%nat with (S (length l)) in * by lia.
    rewrite (run_returning_step _ _ _ _ _ En). cbv zeta.
    set (s1 := set_rsp (rsp (regs s) + 1) s).
    rewrite (cleanup_next pf s1)
      by (change (coroutineCount s1) with (coroutineCount s); lia).
    set (s2 := set_coroutineCount (coroutineCount s1 - 1) s1).
    rewrite map_app in St. cbn [map] in St.
    assert (St2 : stored s2 a (map (spec_image pf cleanup_fn b) l
                               ++ [spec_image pf cleanup_fn b x]))
      by (revert St; apply stored_ext; reflexivity).
    destruct (enter_virgin pf cleanup_fn s2 a _ b (fst x) (snd x) St2)
      as (C & En3 & St3 & N3).
    destruct (switch_to_top_vars pf s2)
      as (_ & _ & _ & _ & _ & _ & _ & _ & _ & K1 & K2 & _).
    rewrite C.
    destruct (IH _ a (fst x) St3) as (s' & Run & N' & A' & R'); [|exact En3|].
    + rewrite N3. change (coroutineCount s2) with (coroutineCount s - 1). lia.
    + rewrite Run. exists s'. split; [|split; [|split]]; try assumption.
      * cbn [fst snd]. rewrite map_app, rev_app_distr. reflexivity.
      * rewrite R', K1, K2. reflexivity.
Qed.

Lemma size_of_spec_image pf cleanup_fn b ea :
  size_of (spec_image pf cleanup_fn b ea) + 1
  = spawn_longs pf (Z.of_nat (length (snd ea))).
Proof.
  unfold size_of, spec_image, virgin_image. cbv zeta. cbn [fst].
  rewrite length_virgin_words. unfold spawn_longs, head_count. lia.
Qed.

Lemma length_encode_spec pf cleanup_fn b l :
  Z.of_nat (length (encode (map (spec_image pf cleanup_fn b) l)))
  = sum (map (fun ea => spawn_longs pf (Z.of_nat (length (snd ea)))) l).
Proof.
  induction l as [|ea l IH]; [reflexivity|].
  cbn [map encode flat_map sum fold_right].
  fold (encode (map (spec_image pf cleanup_fn b) l)).
  fold (sum (map (fun ea => spawn_longs pf (Z.of_nat (length (snd ea)))) l)).
  rewrite !length_app, !Nat2Z.inj_add, IH,
    <- (size_of_spec_image pf cleanup_fn b ea).
  unfold size_of. cbn [length]. lia.
Qed.

(** The loop of [cobegin] moves [csavail] up by the longs of its
    coroutines. *)
Lemma cobegin_loop_longs pf cleanup_fn l s :
  Forall (fun ea : Z * list Z => (length (snd ea) <= 127)%nat) l ->
  csavail (cobegin_loop pf cleanup_fn (length l) (cobegin_args l)
             (cobegin_start pf s))
  = csavail s
    + sum (map (fun ea => spawn_longs pf (Z.of_nat (length (snd ea)))) l).
Proof.
  intros Hl.
  assert (St0 : stored (cobegin_start pf s) (csavail s) []).
  { unfold stored. cbn [encode flat_map length read seq map].
    repeat split; try constructor. destruct pf; cbn; lia. }
  destruct (cobegin_loop_stored pf cleanup_fn (length l) (cobegin_args l)
              _ _ _ St0 (va_counts_args l Hl))
    as ((A & _) & _).
  rewrite va_images_args in A. cbn [app] in A.
  rewrite A. f_equal. apply length_encode_spec.
Qed.

Lemma sum_room {X} (f : X -> Z) M l :
  Forall (fun x => f x <= M) l -> sum (map f l) <= Z.of_nat (length l) * M.
Proof.
  induction 1 as [|x l H _ IH]; [cbn; lia|].
  cbn [map sum fold_right length]. fold (sum (map f l)).
  rewrite Nat2Z.inj_succ, Z.mul_succ_l. lia.
Qed.


(** What [cobegin] notes when it starts, in terms of the registers it is
    called with. *)
Lemma cobegin_start_vars pf s :
  let s0 := cobegin_start pf s in
  csa s0 = csa s /\ csavail s0 = csavail s /\
  coroutineCount s0 = coroutineCount s /\
  base s0 = rsp (regs s) - 2 /\
  match pf with
  | SysV => coRBP s0 = rbp (regs s)
  | Cygwin => COBEGIN_EPILOG s0
              = rsp (regs s)
                + (COBEGIN_STACK_ADJUST - CLEANUP_STACK_ADJUST) / sizeof_long
  end.
Proof.
  destruct pf; cbn; repeat split; try reflexivity.
  unfold upd. now rewrite Z.eqb_refl.
Qed.

(** X24: [cobegin] hands control to the coroutine given last; when every
    coroutine returns as soon as it is entered, the coroutines run in the
    reverse of the order in which they were given, after which [cleanup]
    returns to the host with no coroutine left, [csavail] where it was and
    the stack pointer on cobegin's saved rbx (four longs below cobegin's
    frame pointer on macOS, four longs above the stack pointer cobegin
    started with on Cygwin).  This for coroutines of at most 127 parameters
    each that the csa has room for; the loop of cobegin moves [csavail] up by
    their longs. *)
Theorem cobegin_order pf cleanup_fn l s :
  l <> [] ->
  Forall (fun ea => (length (snd ea) <= 127)%nat) l ->
  0 <= coroutineCount s ->
  0 <= csavail s ->
  csavail s
  + sum (map (fun ea => spawn_longs pf (Z.of_nat (length (snd ea)))) l)
  <= CSA_SIZE ->
  let start := cobegin pf cleanup_fn (length l) (cobegin_args l) s in
  let run := run_returning pf cleanup_fn (length l) (fst start) (snd start) in
  csavail (cobegin_loop pf cleanup_fn (length l) (cobegin_args l)
             (cobegin_start pf s))
  = csavail s
    + sum (map (fun ea => spawn_longs pf (Z.of_nat (length (snd ea)))) l) /\
  fst start = Resume (fst (last l (0, []))) /\
  (coroutineCount s = 0 ->
   fst (fst run) = rev (map fst l) /\
   snd (fst run) = ReturnToHost /\
   coroutineCount (snd run) = 0 /\
   csavail (snd run) = csavail s /\
   rsp (regs (snd run))
   = match pf with
     | SysV => rbp (regs s) - CLEANUP_RSP_ADJUST / sizeof_long - 1
     | Cygwin => rsp (regs s)
                 + (COBEGIN_STACK_ADJUST - CLEANUP_STACK_ADJUST) / sizeof_long
     end).
Proof.
  intros Hne Hl Hc Ha Hroom start run.
  split; [apply cobegin_loop_longs; exact Hl|].
  destruct (cobegin_start_vars pf s) as (K1 & K2 & K3 & _ & K5).
  assert (St0 : stored (cobegin_start pf s) (csavail s) []).
  { unfold stored. cbn [encode flat_map length read seq map].
    repeat split; try constructor. rewrite K2. lia. }
  destruct (cobegin_loop_stored pf cleanup_fn (length l) (cobegin_args l)
              _ _ _ St0 (va_counts_args l Hl))
    as (St1 & N1 & _ & _ & _ & C1 & E1).
  rewrite va_images_args in St1. cbn [app] in St1.
  rewrite K3 in N1.
  destruct (last_exists _ Hne) as (l' & x & ->).
  rewrite map_app in St1. cbn [map] in St1.
  subst run start. unfold cobegin. cbv zeta.
  set (s1 := cobegin_loop pf cleanup_fn (length (l' ++ [x]))
               (cobegin_args (l' ++ [x])) (cobegin_start pf s)) in *.
  replace (coroutineCount s1 >? 0) with true
    by (symmetry; apply Z.gtb_lt; rewrite N1, length_app; cbn; lia).
  destruct (enter_virgin pf cleanup_fn s1 _ _ _ (fst x) (snd x) St1)
    as (C & En & St2 & N2).
  destruct (switch_to_top_vars pf s1)
    as (_ & _ & _ & _ & _ & _ & _ & _ & _ & C2 & E2 & _).
  rewrite last_last. split; [exact C|].
  intros Z0. rewrite C.
  destruct (run_returning_all pf cleanup_fn _ l' _ _ (fst x) St2)
    as (s' & Run & N' & A' & R'); [|exact En|].
  - rewrite N2, N1, Z0, length_app. cbn. lia.
  - rewrite length_app. cbn [length].
    replace (length l' + 1)%nat with (S (length l')) by lia.
    rewrite Run. cbn [fst snd].
    rewrite map_app, rev_app_distr. repeat split; try assumption.
    rewrite R', C2, E2, C1, E1. destruct pf; rewrite K5; reflexivity.
Qed.

Lemma cobegin_order_witness :
  [(111, []); (222, [7])] <> [] /\
  Forall (fun ea : Z * list Z => (length (snd ea) <= 127)%nat)
         [(111, []); (222, [7])] /\
  fst (run_returning SysV 5000 2
         (fst (cobegin SysV 5000 2 (cobegin_args [(111, []); (222, [7])]) boot))
         (snd (cobegin SysV 5000 2 (cobegin_args [(111, []); (222, [7])]) boot)))
  = ([222; 111], ReturnToHost) /\
  rsp (regs (snd (run_returning SysV 5000 2
         (fst (cobegin SysV 5000 2 (cobegin_args [(111, []); (222, [7])]) boot))
         (snd (cobegin SysV 5000 2 (cobegin_args [(111, []); (222, [7])]) boot)))))
  = rbp (regs boot) - 4.
Proof.
  assert (H1 : [(111, []); (222, [7])] <> ([] : list (Z * list Z)))
    by discriminate.
  assert (H2 : Forall (fun ea : Z * list Z => (length (snd ea) <= 127)%nat)
                      [(111, []); (222, [7])])
    by (repeat constructor; cbn; lia).
  assert (H3 : 0 <= coroutineCount boot) by (cbn; lia).
  assert (H4 : 0 <= csavail boot) by (cbn; lia).
  split; [exact H1|]. split; [exact H2|].
  destruct (proj2 (proj2 (cobegin_order SysV 5000 _ boot H1 H2 H3 H4
                            ltac:(apply Z.leb_le; vm_compute; reflexivity)))
              eq_refl)
    as (T & C & _ & _ & R).
  split; [apply injective_projections; [exact T | exact C] | exact R].
Defined.

(** C3 as the claim has it fails for a coroutine given with 128 parameters,
    which the header of mt.cpp allows (no maximum to the number of longs as
    parameters): cobegin reads the count into an [int8_t] as -128, stores
    the four longs of the head with no parameter, and a size word whose low
    56 bits are 2^56 - 124; the coroutine is not entered (popCoroutine takes
    that size for the number of longs to copy, and control goes where the
    long found at the wrong place says).  invoke, which keeps the count in
    an [int], stores the 128 parameters. *)
Lemma cobegin_128_not_entered :
  fst (cobegin SysV 5000 1 (111 :: 128 :: repeat 7 128) boot) <> Resume 111 /\
  _size (snd (cobegin SysV 5000 1 (111 :: 128 :: repeat 7 128) boot))
  = 2 ^ 56 - 124 /\
  csavail (cobegin_loop SysV 5000 1 (111 :: 128 :: repeat 7 128)
             (cobegin_start SysV boot)) = 5 /\
  csavail (invoke SysV 5000 111 128 (repeat 7 128) boot) = 133.
Proof.
  split; [|vm_compute; repeat split; reflexivity].
  vm_compute. discriminate.
Qed.

(** ** C4: the ring is first in, first out *)

Lemma read_write_list m a l : read (write_list m a l) a (length l) = l.
Proof.
  apply read_eq_iff. intros i Hi. unfold write_list.
  replace ((a <=? a + Z.of_nat i) && (a + Z.of_nat i <? a + Z.of_nat (length l)))
    with true by in_range.
  f_equal. lia.
Qed.

Lemma calls_coresume_vars pf f s :
  let s0 := calls_coresume pf f s in
  csa s0 = csa s /\ csavail s0 = csavail s /\ base s0 = base s /\
  coroutineCount s0 = coroutineCount s /\
  BPX pf (rbp (regs s0)) = base s - 2 - Z.of_nat (length f) /\
  read (stack s0) (base s - 2 - Z.of_nat (length f)) (length f) = f.
Proof.
  cbn. repeat split; try reflexivity.
  - destruct pf; cbn; lia.
  - apply read_write_list.
Qed.

(** One yield: the running coroutine goes to the bottom of the csa, the one
    on top of the csa is resumed. *)
Lemma yield_step pf f s r top :
  stored s 0 (r ++ [top]) ->
  1 < coroutineCount s ->
  resumable pf top ->
  Z.of_nat (length f) < 2 ^ 56 ->
  let cs := coresume pf (calls_coresume pf f s) in
  fst cs = Resume (pc_of pf top) /\
  stored (snd cs) 0 ((f, Z.of_nat (length f)) :: r) /\
  coroutineCount (snd cs) = coroutineCount s.
Proof.
  intros St C Hr Hf cs. subst cs.
  destruct (calls_coresume_vars pf f s) as (V1 & V2 & V3 & V4 & V5 & V6).
  set (s0 := calls_coresume pf f s) in *.
  assert (St0 : stored s0 0 (r ++ [top]))
    by (revert St; apply stored_ext; assumption).
  assert (B : 0 <= base s0 - 2 - BPX pf (rbp (regs s0)) < 2 ^ 56)
    by (rewrite V5, V3; lia).
  pose proof (store_running_stored pf s0 _ St0 B) as St1.
  replace (base s0 - 2 - BPX pf (rbp (regs s0))) with (Z.of_nat (length f))
    in St1 by (rewrite V5, V3; lia).
  rewrite Nat2Z.id, V5, V6 in St1.
  change ((f, Z.of_nat (length f)) :: r ++ [top])
    with (((f, Z.of_nat (length f)) :: r) ++ [top]) in St1.
  unfold coresume.
  replace (coroutineCount s0 >? 1) with true
    by (symmetry; apply Z.gtb_lt; rewrite V4; lia).
  destruct (switch_to_top_stored pf _ 0 _ _ St1)
    as (St2 & Ct & _ & _ & _ & _ & N & _ & _ & Hd & _).
  split; [|split; [exact St2|]].
  - rewrite Ct. unfold pc_of. f_equal.
    rewrite <- Hd; [f_equal; destruct pf; cbn; lia | exact Hr |].
    destruct pf; cbn; lia.
  - rewrite N. exact V4.
Qed.

Lemma nth_rotate {A} (x : A) (L : list A) d j :
  nth (j mod S (length L)) (L ++ [x]) d
  = nth (S j mod S (length L)) (x :: L) d.
Proof.
  set (n := S (length L)).
  assert (Hk : (j mod n < n)%nat) by (apply Nat.mod_upper_bound; lia).
  replace (S j) with (j + 1)%nat by lia.
  rewrite <- Nat.Div0.add_mod_idemp_l.
  destruct (Nat.eq_dec (j mod n) (length L)) as [E|NE].
  - rewrite E. replace (length L + 1)%nat with n by (unfold n; lia).
    rewrite Nat.Div0.mod_same, app_nth2, Nat.sub_diag by lia. reflexivity.
  - rewrite (Nat.mod_small (j mod n + 1)) by (unfold n in *; lia).
    rewrite app_nth1 by (unfold n in *; lia).
    replace (j mod n + 1)%nat with (S (j mod n)) by lia. reflexivity.
Qed.

Lemma encode_room M ring :
  Forall (fun im => size_of im + 1 <= M) ring ->
  Z.of_nat (length (encode ring)) <= Z.of_nat (length ring) * M.
Proof.
  induction 1 as [|im r H _ IH]; [cbn; lia|].
  cbn [encode flat_map]. fold (encode r).
  rewrite !length_app. cbn [length]. unfold size_of in H.
  rewrite Nat2Z.inj_succ, Z.mul_succ_l. lia.
Qed.

Section Rotation.

Variable pf : platform.
Variable body : Z -> kernel -> list Z.
Context {A : Type} (owner : Z -> A).

(** The frame a coroutine yields with reaches down to the return address
    of its call to [coresume], fits the size field, and returns into the
    coroutine that built it. *)
Hypothesis body_frame :
  forall pc s,
    (pc_slot pf < length (body pc s))%nat /\
    Z.of_nat (length (body pc s)) < 2 ^ 56 /\
    owner (nth (pc_slot pf) (body pc s) 0) = owner pc.

Lemma ring_run_step fuel pc s :
  ring_run pf body (S fuel) (Resume pc) s
  = pc :: ring_run pf body fuel
            (fst (coresume pf (calls_coresume pf (body pc s) s)))
            (snd (coresume pf (calls_coresume pf (body pc s) s))).
Proof. reflexivity. Qed.

(** With n coroutines in the ring, the coroutine given control at the i-th
    yield is the one that has waited longest: control goes round the
    coroutines in one fixed order. *)
Lemma ring_run_owners d fuel :
  forall pc s ring i,
  ring <> [] ->
  stored s 0 ring ->
  coroutineCount s = Z.of_nat (length ring) + 1 ->
  Forall (resumable pf) ring ->
  (i < fuel)%nat ->
  nth i (map owner (ring_run pf body fuel (Resume pc) s)) d
  = nth (i mod S (length ring))
        (owner pc :: rev (map (fun im => owner (pc_of pf im)) ring)) d.
Proof.
  induction fuel as [|fuel IH]; intros pc s ring i Hne St N Hr Hi; [lia|].
  rewrite ring_run_step. cbn [map].
  destruct (last_exists _ Hne) as (r & top & ->).
  apply Forall_app in Hr. destruct Hr as [Hr Ht]. apply Forall_inv in Ht.
  destruct (body_frame pc s) as (F1 & F2 & F3).
  destruct (yield_step pf (body pc s) s r top St) as (C & St' & N');
    [rewrite N, length_app; cbn; lia | exact Ht | exact F2 |].
  rewrite C.
  destruct i as [|j].
  - rewrite Nat.Div0.mod_0_l. reflexivity.
  - transitivity
      (nth j (map owner
                (ring_run pf body fuel (Resume (pc_of pf top))
                   (snd (coresume pf (calls_coresume pf (body pc s) s))))) d);
      [reflexivity|].
    rewrite (IH _ _ ((body pc s, Z.of_nat (length (body pc s))) :: r));
      [|discriminate | exact St' | | |lia].
    + cbn [length map rev].
      change (pc_of pf (body pc s, Z.of_nat (length (body pc s))))
        with (nth (pc_slot pf) (body pc s) 0).
      rewrite F3.
      rewrite map_app, rev_app_distr, length_app. cbn [map rev app length].
      replace (length r + 1)%nat with (S (length r)) by lia.
      replace (S (length r))
        with (length (owner (pc_of pf top)
                      :: rev (map (fun im => owner (pc_of pf im)) r)))
        by (cbn [length]; now rewrite length_rev, length_map).
      apply (nth_rotate (owner pc)
               (owner (pc_of pf top)
                :: rev (map (fun im => owner (pc_of pf im)) r))).
    + rewrite N', N, length_app. cbn. lia.
    + constructor; [exact F1 | exact Hr].
Qed.

Variable M : Z.

(** Every frame a coroutine yields with takes, with its size word, at most
    [M] longs of the csa. *)
Hypothesis body_room : forall pc s, Z.of_nat (length (body pc s)) + 1 <= M.

(** With n coroutines whose stored forms take at most [M] longs each and a
    csa of at least n times [M] longs, every yield finds room. *)
Lemma ring_run_room fuel :
  forall pc s ring,
  ring <> [] ->
  stored s 0 ring ->
  coroutineCount s = Z.of_nat (length ring) + 1 ->
  Forall (resumable pf) ring ->
  Forall (fun im => size_of im + 1 <= M) ring ->
  (Z.of_nat (length ring) + 1) * M <= CSA_SIZE ->
  ring_run_within pf body fuel (Resume pc) s.
Proof.
  induction fuel as [|fuel IH]; intros pc s ring Hne St N Hr Hm Hc; [exact I|].
  cbn [ring_run_within]. cbv zeta.
  destruct (last_exists _ Hne) as (r & top & ->).
  pose proof (encode_room M _ Hm) as Room.
  apply Forall_app in Hr. destruct Hr as [Hr Ht]. apply Forall_inv in Ht.
  apply Forall_app in Hm. destruct Hm as [Hm _].
  destruct (body_frame pc s) as (F1 & F2 & F3).
  pose proof (body_room pc s) as F4.
  destruct (yield_step pf (body pc s) s r top St) as (C & St' & N');
    [rewrite N, length_app; cbn; lia | exact Ht | exact F2 |].
  split.
  - destruct St as (Ea & _). rewrite Ea.
    rewrite Z.mul_add_distr_r in Hc. lia.
  - rewrite C.
    apply (IH _ _ ((body pc s, Z.of_nat (length (body pc s))) :: r)).
    + discriminate.
    + exact St'.
    + rewrite N', N, length_app. cbn. lia.
    + constructor; [exact F1 | exact Hr].
    + constructor; [exact F4 | exact Hm].
    + rewrite length_app in Hc. cbn [length] in *.
      replace (length r + 1)%nat with (S (length r)) in Hc by lia. exact Hc.
Qed.

End Rotation.

Lemma pc_of_virgin pf cleanup_fn b e args :
  pc_of pf (virgin_image pf cleanup_fn b e args) = e /\
  resumable pf (virgin_image pf cleanup_fn b e args).
Proof.
  unfold pc_of, resumable, virgin_image, virgin_words. cbv zeta. cbn [fst].
  destruct pf; cbn; split; try reflexivity; lia.
Qed.


(** [cobegin] stores its coroutines and enters the last one. *)
Lemma cobegin_enters pf cleanup_fn l x s :
  Forall (fun ea : Z * list Z => (length (snd ea) <= 127)%nat) (l ++ [x]) ->
  0 <= coroutineCount s ->
  let start := cobegin pf cleanup_fn (length (l ++ [x]))
                 (cobegin_args (l ++ [x])) s in
  fst start = Resume (fst x) /\
  stored (snd start) (csavail s)
         (map (spec_image pf cleanup_fn (base (cobegin_start pf s))) l) /\
  coroutineCount (snd start) = coroutineCount s + Z.of_nat (length l) + 1.
Proof.
  intros Hl Hc start.
  assert (St0 : stored (cobegin_start pf s) (csavail s) []).
  { unfold stored. cbn [encode flat_map length read seq map].
    repeat split; try constructor. destruct pf; cbn; lia. }
  destruct (cobegin_loop_stored pf cleanup_fn (length (l ++ [x]))
              (cobegin_args (l ++ [x])) _ _ _ St0 (va_counts_args _ Hl))
    as (St1 & N1 & _).
  rewrite va_images_args in St1. cbn [app] in St1.
  replace (coroutineCount (cobegin_start pf s)) with (coroutineCount s) in N1
    by (destruct pf; reflexivity).
  rewrite map_app in St1. cbn [map] in St1.
  subst start. unfold cobegin. cbv zeta.
  set (s1 := cobegin_loop pf cleanup_fn (length (l ++ [x]))
               (cobegin_args (l ++ [x])) (cobegin_start pf s)) in *.
  replace (coroutineCount s1 >? 0) with true
    by (symmetry; apply Z.gtb_lt; rewrite N1, length_app; cbn; lia).
  destruct (enter_virgin pf cleanup_fn s1 _ _ _ (fst x) (snd x) St1)
    as (C & _ & St2 & N2).
  split; [exact C|]. split; [exact St2|].
  rewrite N2, N1, length_app. cbn. lia.
Qed.


Lemma sample_body_frame pc k :
  (pc_slot SysV < length (sample_body pc k))%nat /\
  3 * (Z.of_nat (length (sample_body pc k)) + 1) <= CSA_SIZE /\
  sample_owner (nth (pc_slot SysV) (sample_body pc k) 0) = sample_owner pc.
Proof.
  cbn [pc_slot sample_body length nth]. split; [lia|].
  split; [unfold CSA_SIZE; lia|].
  unfold sample_owner. f_equal.
  rewrite Z.add_comm, Z.div_add by lia. reflexivity.
Qed.

Lemma sample_body_room pc k :
  (pc_slot SysV < length (sample_body pc k))%nat /\
  Z.of_nat (length (sample_body pc k)) + 1 <= 100 /\
  sample_owner (nth (pc_slot SysV) (sample_body pc k) 0) = sample_owner pc.
Proof.
  destruct (sample_body_frame pc k) as (F1 & _ & F3).
  split; [exact F1|]. split; [cbn; lia | exact F3].
Qed.


(** ** C9 and C10: the diagnostic collaborators *)

(** C9 as the claim has it fails for [kbhit]: when [select] fails it writes
    nothing to standard output. *)
Lemma kbhit_logs_nothing_counterexample : snd (kbhit SelectFailed) = [].
Proof. reflexivity. Qed.

(** C9 (as the code has it): when [select] fails, [kbhit] returns 0 and
    writes nothing; when [gettimeofday] fails, [tally] writes one line with
    errno to standard output and goes on: the first call only clears
    [firstTime], a later call adds the interval between the two stored times
    to the histogram and keeps the later one. *)
Theorem soft_anomalies :
  kbhit SelectFailed = (0, []) /\
  forall errno t,
    let r := tally (TimeFailed errno) t in
    snd r = [gettimeofday_failed errno] /\
    firstTime (fst r) = false /\
    tvNextTimeValue (fst r) = tvNextTimeValue t /\
    (firstTime t = true ->
     histogram (fst r) = histogram t /\
     tvPrevTimeValue (fst r) = tvPrevTimeValue t) /\
    (firstTime t = false ->
     histogram (fst r)
     = Add (uint32 (uDelta (tvNextTimeValue t) (tvPrevTimeValue t)))
           (histogram t) /\
     tvPrevTimeValue (fst r) = tvNextTimeValue t).
Proof.
  split; [reflexivity|].
  intros errno t. unfold tally. destruct (firstTime t); cbn.
  - repeat split; try reflexivity; discriminate.
  - repeat split; try reflexivity; discriminate.
Qed.

Example gettimeofday_failed_line :
  gettimeofday_failed 22 = "gettimeofday failed: errno is 22"%string.
Proof. reflexivity. Qed.

(** C10: [MeanValue] takes the quotient only when n > 0, and then the
    divisor int( n ) is not zero; when n is 0 it returns 0.0. *)
Theorem MeanValue_guard h :
  0 <= n h < 2 ^ 32 ->
  match MeanValue_path h with
  | Quotient x d =>
      0 < n h /\ d <> 0 /\ x = summation h /\
      MeanValue h = PrimFloat.div (summation h) (double_of_Z d)
  | Zero => n h = 0 /\ MeanValue h = PrimFloat.zero
  end.
Proof.
  intros H. unfold MeanValue, MeanValue_path.
  destruct (Z.gtb_spec (n h) 0) as [G|L].
  - split; [exact G|]. split; [|split; reflexivity].
    unfold int32. intros E.
    destruct (Z.lt_ge_cases (n h) (2 ^ 31)) as [S|B].
    + rewrite Z.mod_small in E by lia. lia.
    + replace (n h + 2 ^ 31) with (n h - 2 ^ 31 + 1 * 2 ^ 32) in E by lia.
      rewrite Z.mod_add, Z.mod_small in E by lia. lia.
  - split; [lia | reflexivity].
Qed.

Lemma MeanValue_guard_witness :
  0 <= n two_samples < 2 ^ 32 /\
  match MeanValue_path two_samples with
  | Quotient x d =>
      0 < n two_samples /\ d <> 0 /\ x = summation two_samples /\
      MeanValue two_samples
      = PrimFloat.div (summation two_samples) (double_of_Z d)
  | Zero => n two_samples = 0 /\ MeanValue two_samples = PrimFloat.zero
  end.
Proof.
  assert (H : 0 <= n two_samples < 2 ^ 32)
    by (split; [apply Z.leb_le | apply Z.ltb_lt]; vm_compute; reflexivity).
  exact (conj H (MeanValue_guard two_samples H)).
Defined.

Example MeanValue_two_samples : MeanValue two_samples = 4%float.
Proof. vm_compute. reflexivity. Qed.

Example MeanValue_empty : MeanValue (Histogram_new 0 1 10) = 0%float.
Proof. vm_compute. reflexivity. Qed.

(** * Further properties *)

(** ** mt.cpp: a yield there and back, new coroutines, the end of a ring *)

Lemma pop_mark_yielded f : pop_mark (snd (yielded f)) = 0.
Proof.
  unfold pop_mark, yielded. cbn [snd].
  destruct (Z.ltb_spec (Z.of_nat (length f)) 0); [lia | reflexivity].
Qed.

Lemma switch_to_top_resumed pf s a r f :
  stored s a (r ++ [yielded f]) ->
  resumable pf (yielded f) ->
  resumed_with pf (base s) f (switch_to_top pf s).
Proof.
  intros St Hr.
  destruct (switch_to_top_stored pf s a r _ St)
    as (_ & C & R & Sz & B & _ & _ & _ & _ & Hd & F).
  destruct (switch_to_top_vars pf s) as (_ & _ & Rb & _).
  destruct (stored_top s a r _ St) as (D & W & _).
  rewrite D in Rb. destruct W as [W _]. rewrite W in Rb.
  specialize (F (pop_mark_yielded f)).
  cbn [fst yielded] in *. unfold resumable in Hr. cbn [fst yielded] in Hr.
  set (s' := snd (switch_to_top pf s)) in *.
  assert (read (stack s') (base s - 2 - Z.of_nat (length f)) (length f) = f) as Rd.
  { unfold restored_frame in F. rewrite B, Sz, Nat2Z.id in F.
    rewrite <- F at 3. f_equal. lia. }
  pose proof (proj1 (read_eq_iff _ _ _) Rd) as Nth.
  unfold resumed_with. cbv zeta. fold s'.
  split; [|split; [exact Rd | split]].
  - rewrite C. f_equal. rewrite <- (Nth _ Hr). f_equal.
    destruct pf; cbn; lia.
  - rewrite R. destruct pf; cbn; lia.
  - rewrite Rb. rewrite <- (Nth (pc_slot pf - 1)%nat) by lia. f_equal.
    destruct pf; cbn; lia.
Qed.

Lemma yield_stored pf f s r top :
  stored s 0 (r ++ [top]) ->
  1 < coroutineCount s ->
  Z.of_nat (length f) < 2 ^ 56 ->
  let cs := coresume pf (calls_coresume pf f s) in
  stored (snd cs) 0 (yielded f :: r) /\
  coroutineCount (snd cs) = coroutineCount s /\
  base (snd cs) = base s /\
  (forall g, top = yielded g -> resumable pf top ->
             resumed_with pf (base s) g cs).
Proof.
  intros St C Hf cs. subst cs.
  destruct (calls_coresume_vars pf f s) as (V1 & V2 & V3 & V4 & V5 & V6).
  set (s0 := calls_coresume pf f s) in *.
  assert (St0 : stored s0 0 (r ++ [top]))
    by (revert St; apply stored_ext; assumption).
  assert (B : 0 <= base s0 - 2 - BPX pf (rbp (regs s0)) < 2 ^ 56)
    by (rewrite V5, V3; lia).
  pose proof (store_running_stored pf s0 _ St0 B) as St1.
  replace (base s0 - 2 - BPX pf (rbp (regs s0))) with (Z.of_nat (length f))
    in St1 by (rewrite V5, V3; lia).
  rewrite Nat2Z.id, V5, V6 in St1.
  change ((f, Z.of_nat (length f)) :: r ++ [top])
    with ((yielded f :: r) ++ [top]) in St1.
  unfold coresume.
  replace (coroutineCount s0 >? 1) with true
    by (symmetry; apply Z.gtb_lt; rewrite V4; lia).
  destruct (switch_to_top_stored pf _ 0 _ _ St1)
    as (St2 & _ & _ & _ & _ & Bs & N & _).
  assert (base (store_running pf s0) = base s) as Bq by (rewrite <- V3; reflexivity).
  split; [exact St2|]. split; [rewrite N; exact V4|].
  split; [rewrite Bs; exact Bq|].
  intros g -> Hr. rewrite <- Bq.
  eapply switch_to_top_resumed; [exact St1 | exact Hr].
Qed.

Lemma yield_csavail pf f s r top :
  stored s 0 (r ++ [top]) ->
  1 < coroutineCount s ->
  Z.of_nat (length f) < 2 ^ 56 ->
  csavail (snd (coresume pf (calls_coresume pf f s)))
  <= csavail s + Z.of_nat (length f) + 1.
Proof.
  intros St C Hf.
  destruct (yield_stored pf f s r top St C Hf) as ((A' & _) & _).
  destruct St as (A & _). rewrite A', A, encode_snoc.
  cbn [encode flat_map yielded fst snd]. fold (encode r).
  rewrite !length_app. cbn [length]. lia.
Qed.

Lemma yields_cons pf f fs cs :
  yields pf (f :: fs) cs
  = yields pf fs (coresume pf (calls_coresume pf f (snd cs))).
Proof. reflexivity. Qed.

Lemma yields_turn pf f :
  forall gs Q P cs,
  length gs = S (length Q) ->
  stored (snd cs) 0 (P ++ yielded f :: Q) ->
  coroutineCount (snd cs) = Z.of_nat (length (P ++ yielded f :: Q)) + 1 ->
  resumable pf (yielded f) ->
  yields_within pf gs (snd cs) ->
  let r := yields pf gs cs in
  resumed_with pf (base (snd cs)) f r /\
  stored (snd r) 0 (rev (map yielded gs) ++ P) /\
  coroutineCount (snd r) = coroutineCount (snd cs) /\
  csavail (snd r) <= CSA_SIZE.
Proof.
  induction gs as [|g gs IH]; intros Q P cs Hl St N Hr Hg; [discriminate|].
  destruct Hg as [Hg1 Hg2].
  pose proof (stored_csavail _ _ _ St) as A0.
  rewrite yields_cons. cbn [length] in Hl.
  destruct (last_exists (yielded f :: Q) ltac:(discriminate)) as (Q0 & top & E).
  rewrite E, app_assoc in St.
  destruct (yield_stored pf g (snd cs) (P ++ Q0) top St) as (St' & N' & B' & R');
    [rewrite N; rewrite length_app; cbn [length]; lia
    | unfold CSA_SIZE in Hg1; lia |].
  pose proof (yield_csavail pf g (snd cs) (P ++ Q0) top St) as A'.
  set (cs1 := coresume pf (calls_coresume pf g (snd cs))) in *.
  destruct Q0 as [|q Q0'].
  - (* [f] is on top: this yield resumes it *)
    cbn [app] in E. inversion E; subst top.
    assert (Q = []) as -> by (destruct Q; [reflexivity | discriminate]).
    destruct gs; [|discriminate].
    cbn [yields fold_left map rev app]. rewrite app_nil_r in St'.
    split; [apply R'; [reflexivity | exact Hr]|].
    split; [exact St'|]. split; [exact N'|].
    etransitivity; [apply A'|exact Hg1].
    + rewrite N; rewrite length_app; cbn [length]; lia.
    + unfold CSA_SIZE in Hg1; lia.
  - cbn [app] in E. inversion E as [[E1 E2]]. subst q.
    assert (length Q = S (length Q0')) as LQ
      by (rewrite E2, length_app; cbn; lia).
    destruct (IH Q0' (yielded g :: P) cs1) as (I1 & I2 & I3 & I4).
    + lia.
    + exact St'.
    + rewrite N', N. cbn [length app]. rewrite !length_app. cbn [length]. lia.
    + exact Hr.
    + exact Hg2.
    + rewrite B' in I1. split; [exact I1|]. split; [|split].
      * cbn [map rev]. rewrite <- app_assoc. exact I2.
      * rewrite I3. exact N'.
      * exact I4.
Qed.

Lemma two_started_stored :
  stored (two_started SysV) 0
         [spec_image SysV 5000 (base (cobegin_start SysV boot)) (111, [])] /\
  coroutineCount (two_started SysV) = 2.
Proof.
  destruct (cobegin_enters SysV 5000 [(111, [])] (222, [7]) boot)
    as (_ & St & N).
  - repeat constructor; cbn; lia.
  - cbn. lia.
  - split; [exact St | exact N].
Qed.

(** X1: a coroutine that yields finds its frame again. With n coroutines
    stored (n > 0) the running one calls coresume with the frame f, and each
    coroutine resumed after it calls coresume in its turn, n calls in all,
    each of which finds room in the csa (csavail plus the frame and its size
    word stays within CSA_SIZE): the last of them gives control back to the
    first coroutine at the return address in f, with f on the stack where it
    was taken from (the longs below base - 2), the stack pointer just above
    that return address and the frame pointer that f had saved; the csa then
    holds the n frames of the others, the latest at the bottom. *)
Theorem yield_round_trip pf s ring f gs :
  stored s 0 ring ->
  coroutineCount s = Z.of_nat (length ring) + 1 ->
  ring <> [] ->
  length gs = length ring ->
  (pc_slot pf < length f)%nat ->
  yields_within pf (f :: gs) s ->
  forall c,
  let r := yields pf (f :: gs) (c, s) in
  resumed_with pf (base s) f r /\
  stored (snd r) 0 (rev (map yielded gs)) /\
  coroutineCount (snd r) = coroutineCount s /\
  csavail (snd r) <= CSA_SIZE.
Proof.
  intros St N Hne Hl Hr Hg c r. subst r.
  destruct Hg as [Hf Hgs].
  pose proof (stored_csavail _ _ _ St) as A0.
  destruct (last_exists ring Hne) as (r0 & top & ->).
  rewrite yields_cons. cbn [snd].
  destruct (yield_stored pf f s r0 top St) as (St' & N' & B' & _);
    [rewrite N, length_app; cbn; lia | unfold CSA_SIZE in Hf; lia |].
  set (cs1 := coresume pf (calls_coresume pf f s)) in *.
  rewrite length_app in Hl, N. cbn [length] in Hl, N.
  destruct (yields_turn pf f gs r0 [] cs1) as (I1 & I2 & I3 & I4).
  - lia.
  - exact St'.
  - rewrite N', N. cbn [app length]. lia.
  - exact Hr.
  - exact Hgs.
  - rewrite B' in I1. rewrite app_nil_r in I2.
    split; [exact I1|]. split; [exact I2|]. split; [now rewrite I3 | exact I4].
Qed.

Lemma yield_round_trip_witness :
  stored (two_started SysV) 0
         [spec_image SysV 5000 (base (cobegin_start SysV boot)) (111, [])] /\
  yields_within SysV [[0; 998; 2005; 0]; [0; 998; 1005; 0; 0]]
                (two_started SysV) /\
  read (stack (snd (yields SysV [[0; 998; 2005; 0]; [0; 998; 1005; 0; 0]]
                           (Resume 222, two_started SysV))))
       (base (two_started SysV) - 2 - 4) 4
  = [0; 998; 2005; 0].
Proof.
  destruct two_started_stored as [St N].
  assert (yields_within SysV [[0; 998; 2005; 0]; [0; 998; 1005; 0; 0]]
                        (two_started SysV)) as W.
  { cbn [yields_within].
    split; [apply Z.leb_le; vm_compute; reflexivity|].
    split; [apply Z.leb_le; vm_compute; reflexivity | exact I]. }
  split; [exact St|]. split; [exact W|].
  refine (proj1 (proj2 (proj1
            (yield_round_trip SysV (two_started SysV) _
               [0; 998; 2005; 0] [[0; 998; 1005; 0; 0]]
               St N _ eq_refl _ W (Resume 222))))).
  - discriminate.
  - cbn. lia.
Defined.

(** X2: any number (two or more) of coroutines started by cobegin and yielding
    for ever take turns in one fixed order: the one given last first, then
    backwards through cobegin's arguments, and round again.  This where the
    csa has room: each coroutine has at most 127 parameters and takes, both
    as cobegin stores it and with every frame it yields (size word included),
    at most M longs, and the n coroutines times M fit CSA_SIZE; then cobegin
    and every yield of the run stay within the csa. *)
Theorem ring_round_robin pf cleanup_fn {A : Type} (owner : Z -> A)
        (body : Z -> kernel -> list Z) l s M :
  (forall pc k,
     (pc_slot pf < length (body pc k))%nat /\
     Z.of_nat (length (body pc k)) + 1 <= M /\
     owner (nth (pc_slot pf) (body pc k) 0) = owner pc) ->
  (2 <= length l)%nat ->
  Forall (fun ea : Z * list Z =>
            (length (snd ea) <= 127)%nat /\
            spawn_longs pf (Z.of_nat (length (snd ea))) <= M) l ->
  Z.of_nat (length l) * M <= CSA_SIZE ->
  csavail s = 0 -> coroutineCount s = 0 ->
  let start := cobegin pf cleanup_fn (length l) (cobegin_args l) s in
  csavail (cobegin_loop pf cleanup_fn (length l) (cobegin_args l)
             (cobegin_start pf s)) <= CSA_SIZE /\
  forall fuel,
    ring_run_within pf body fuel (fst start) (snd start) /\
    forall i d, (i < fuel)%nat ->
      nth i (map owner (ring_run pf body fuel (fst start) (snd start))) d
      = nth (i mod length l) (rev (map (fun ea => owner (fst ea)) l)) d.
Proof.
  intros Hb Hn Hl2 HM Hs Hc start.
  assert (Hl : Forall (fun ea : Z * list Z => (length (snd ea) <= 127)%nat) l)
    by (revert Hl2; apply Forall_impl; tauto).
  assert (Hw : Forall (fun ea : Z * list Z =>
                         spawn_longs pf (Z.of_nat (length (snd ea))) <= M) l)
    by (revert Hl2; apply Forall_impl; tauto).
  assert (M1 : 1 <= M) by (destruct (Hb 0 s) as (_ & B2 & _); lia).
  assert (M2 : M <= CSA_SIZE) by nia.
  assert (Hf : forall pc k,
             (pc_slot pf < length (body pc k))%nat /\
             Z.of_nat (length (body pc k)) < 2 ^ 56 /\
             owner (nth (pc_slot pf) (body pc k) 0) = owner pc).
  { intros pc k. destruct (Hb pc k) as (B1 & B2 & B3).
    unfold CSA_SIZE in M2. repeat split; [exact B1 | lia | exact B3]. }
  assert (Hm : forall pc k, Z.of_nat (length (body pc k)) + 1 <= M)
    by (intros pc k; apply (Hb pc k)).
  split.
  - rewrite (cobegin_loop_longs pf cleanup_fn l s Hl), Hs.
    pose proof (sum_room _ M l Hw). lia.
  - intros fuel.
    destruct (last_exists l) as (l' & x & ->);
      [intros ->; cbn in Hn; lia|].
    rewrite length_app in Hn, HM. cbn [length] in Hn, HM.
    destruct (cobegin_enters pf cleanup_fn l' x s Hl ltac:(lia)) as (C & St & N).
    fold start in C, St, N. rewrite C. rewrite Hs in St.
    set (ring := map (spec_image pf cleanup_fn (base (cobegin_start pf s))) l')
      in *.
    assert (Hne : ring <> []).
    { intros E. apply (f_equal (@length _)) in E. unfold ring in E.
      rewrite length_map in E. cbn in E. lia. }
    assert (Hk : coroutineCount (snd start) = Z.of_nat (length ring) + 1)
      by (rewrite N, Hc; unfold ring; rewrite length_map; lia).
    assert (Hr : Forall (resumable pf) ring).
    { unfold ring. apply Forall_forall. intros im Him.
      apply in_map_iff in Him. destruct Him as (ea & <- & _).
      apply pc_of_virgin. }
    split.
    + apply (ring_run_room pf body owner Hf M Hm fuel _ _ ring Hne St Hk Hr).
      * unfold ring. apply Forall_forall. intros im Him.
        apply in_map_iff in Him. destruct Him as (ea & <- & Hin).
        rewrite size_of_spec_image.
        apply Forall_app in Hw. destruct Hw as [Hw _].
        apply (proj1 (Forall_forall _ _) Hw ea Hin).
      * unfold ring. rewrite length_map.
        replace (Z.of_nat (length l') + 1) with (Z.of_nat (length l' + 1))
          by lia.
        exact HM.
    + intros i d Hi.
      rewrite (ring_run_owners pf body owner Hf d fuel _ _ ring i Hne St Hk Hr Hi).
      unfold ring. rewrite length_map, length_app. cbn [length].
      replace (length l' + 1)%nat with (S (length l')) by lia.
      rewrite map_app, rev_app_distr. cbn [map rev app].
      f_equal. f_equal. rewrite map_map. f_equal. apply map_ext.
      intros ea. unfold spec_image. now rewrite (proj1 (pc_of_virgin _ _ _ _ _)).
Qed.

Lemma ring_round_robin_witness :
  (2 <= length [(1000, []); (2000, [7]); (3000, []); (4000, [8; 9])])%nat /\
  Z.of_nat (length [(1000, []); (2000, [7]); (3000, []); (4000, [8; 9])]) * 100
  <= CSA_SIZE /\
  nth 5 (map sample_owner
           (ring_run SysV sample_body 7
              (fst (cobegin SysV 5000 4
                      (cobegin_args [(1000, []); (2000, [7]); (3000, []);
                                     (4000, [8; 9])]) boot))
              (snd (cobegin SysV 5000 4
                      (cobegin_args [(1000, []); (2000, [7]); (3000, []);
                                     (4000, [8; 9])]) boot))))
      0
  = 3000.
Proof.
  split; [cbn; lia|]. split; [cbn; unfold CSA_SIZE; lia|].
  refine (proj2 (proj2 (ring_round_robin SysV 5000 sample_owner sample_body
            [(1000, []); (2000, [7]); (3000, []); (4000, [8; 9])] boot 100
            sample_body_room _ _ _ eq_refl eq_refl) 7%nat) 5%nat 0 _).
  - cbn. lia.
  - repeat constructor; cbn; lia.
  - cbn. unfold CSA_SIZE. lia.
  - lia.
Defined.

(** X3: a coroutine put on the ring by invoke (with at most 127 parameters)
    is the next to run: where the csa has room for the new coroutine and for
    the caller's frame, the first coresume after the invoke enters the new
    coroutine at its entry point, with a return into cleanup, ahead of the
    coroutines that were waiting; the caller goes to the bottom of the
    csa. *)
Theorem invoke_runs_next pf cleanup_fn s ring e args f :
  stored s 0 ring ->
  1 <= coroutineCount s ->
  (length args <= 127)%nat ->
  let s1 := invoke pf cleanup_fn e (Z.of_nat (length args)) args s in
  csavail s1 + Z.of_nat (length f) + 1 <= CSA_SIZE ->
  let cs := coresume pf (calls_coresume pf f s1) in
  csavail s1 = csavail s + spawn_longs pf (Z.of_nat (length args)) /\
  fst cs = Resume e /\
  stack (snd cs) (rsp (regs (snd cs))) = cleanup_fn + CLEANUP_OFFSET pf /\
  stored (snd cs) 0 (yielded f :: ring) /\
  coroutineCount (snd cs) = coroutineCount s + 1.
Proof.
  intros St C Ha s1 Hf cs.
  pose proof (invoke_spawned pf cleanup_fn e (Z.of_nat (length args)) args s
                ltac:(lia)) as Sp.
  fold s1 in Sp.
  rewrite <- (app_nil_r args) in Sp at 2. rewrite va_take_app in Sp.
  set (v := virgin_image pf cleanup_fn (base s) e args) in *.
  assert (well_sized v) as Wv by (apply well_sized_virgin; exact Ha).
  pose proof (stored_spawned s s1 0 ring v St Sp Wv) as St1.
  pose proof (stored_csavail _ _ _ St1) as A1.
  assert (csavail s1 = csavail s + spawn_longs pf (Z.of_nat (length args)))
    as L1.
  { destruct Sp as [(A & _) _]. cbn [csavail set_coroutineCount] in A.
    rewrite A, length_app. unfold v, virgin_image. cbv zeta. cbn [fst length].
    rewrite Nat2Z.inj_add, length_virgin_words.
    unfold spawn_longs, head_count. cbn [Z.of_nat]. lia. }
  destruct Sp as [_ N1].
  destruct (calls_coresume_vars pf f s1) as (V1 & V2 & V3 & V4 & V5 & V6).
  set (s0 := calls_coresume pf f s1) in *.
  assert (St0 : stored s0 0 (ring ++ [v]))
    by (revert St1; apply stored_ext; assumption).
  assert (B : 0 <= base s0 - 2 - BPX pf (rbp (regs s0)) < 2 ^ 56)
    by (rewrite V5, V3; unfold CSA_SIZE in Hf; lia).
  pose proof (store_running_stored pf s0 _ St0 B) as St2.
  replace (base s0 - 2 - BPX pf (rbp (regs s0))) with (Z.of_nat (length f))
    in St2 by (rewrite V5, V3; lia).
  rewrite Nat2Z.id, V5, V6 in St2.
  change ((f, Z.of_nat (length f)) :: ring ++ [v])
    with ((yielded f :: ring) ++ [v]) in St2.
  subst cs. unfold coresume. fold s0.
  replace (coroutineCount s0 >? 1) with true
    by (symmetry; apply Z.gtb_lt; rewrite V4, N1; lia).
  destruct (enter_virgin pf cleanup_fn _ 0 _ (base s) e args St2)
    as (E1 & E2 & E3 & E4).
  split; [exact L1|].
  split; [exact E1|]. split; [exact E2|]. split; [exact E3|].
  rewrite E4. change (coroutineCount (store_running pf s0))
    with (coroutineCount s0). now rewrite V4, N1.
Qed.

Lemma invoke_runs_next_witness :
  1 <= coroutineCount (two_started SysV) /\
  fst (coresume SysV
         (calls_coresume SysV [0; 998; 2005; 0]
            (invoke SysV 5000 333 2 [8; 9] (two_started SysV))))
  = Resume 333.
Proof.
  destruct two_started_stored as [St N].
  split; [rewrite N; lia|].
  refine (proj1 (proj2 (invoke_runs_next SysV 5000 (two_started SysV) _ 333
                          [8; 9] [0; 998; 2005; 0] St _ _ _))).
  - rewrite N. lia.
  - cbn. lia.
  - apply Z.leb_le. vm_compute. reflexivity.
Defined.

Lemma filler_even argc : 0 <= argc -> Z.even (argc + filler argc) = true.
Proof.
  intros H. unfold filler.
  destruct (Z.eqb_spec argc 0) as [->|]; [reflexivity|].
  rewrite Z.even_add. destruct (Z.odd argc) eqn:E.
  - rewrite <- Z.negb_odd, E. reflexivity.
  - rewrite <- Z.negb_odd, E. reflexivity.
Qed.

Lemma one_invoked_stored :
  stored (invoke SysV 5000 111 3 [7; 8; 9] boot) 0
         ([] ++ [virgin_image SysV 5000 0 111 [7; 8; 9]]).
Proof.
  apply (stored_spawned boot _ 0 []).
  - apply boot_empty.
  - apply (invoke_spawned SysV 5000 111 3 [7; 8; 9] boot). lia.
  - apply well_sized_virgin. cbn. lia.
Qed.

(** X4: the filler makes the size of every new coroutine even, so that a
    coroutine entered for the first time finds the stack pointer an odd number
    of longs below base: with base on a 16-byte boundary that is the alignment
    the ABI prescribes at the entry of a function. *)
Theorem virgin_entry_aligned pf cleanup_fn s a r b e args :
  stored s a (r ++ [virgin_image pf cleanup_fn b e args]) ->
  let s' := snd (switch_to_top pf s) in
  Z.even (size_of (virgin_image pf cleanup_fn b e args)) = true /\
  Z.odd (base s - rsp (regs s')) = true /\
  fst (switch_to_top pf s) = Resume e.
Proof.
  intros St s'.
  destruct (switch_to_top_stored pf s a r _ St) as (_ & _ & R & _).
  destruct (enter_virgin pf cleanup_fn s a r b e args St) as (C & _).
  fold s' in R.
  pose proof (length_virgin_words pf cleanup_fn b e args) as L.
  pose proof (filler_even (Z.of_nat (length args)) ltac:(lia)) as F.
  assert (Z.even (size_of (virgin_image pf cleanup_fn b e args)) = true) as Ev.
  { unfold size_of, virgin_image. cbv zeta. cbn [fst]. rewrite L.
    rewrite <- Z.add_assoc, Z.even_add, F.
    destruct pf; reflexivity. }
  split; [exact Ev|]. split; [|exact C].
  rewrite R. unfold size_of in Ev.
  set (len := Z.of_nat (length (fst (virgin_image pf cleanup_fn b e args)))) in *.
  replace (base s - (base s - len - 2 + saved_registers pf + 2))
    with (len - saved_registers pf) by lia.
  rewrite Z.odd_sub, <- Z.negb_even, Ev. destruct pf; reflexivity.
Qed.

Lemma virgin_entry_aligned_witness :
  stored (invoke SysV 5000 111 3 [7; 8; 9] boot) 0
         ([] ++ [virgin_image SysV 5000 0 111 [7; 8; 9]]) /\
  Z.odd (base (invoke SysV 5000 111 3 [7; 8; 9] boot)
         - rsp (regs (snd (switch_to_top SysV
                             (invoke SysV 5000 111 3 [7; 8; 9] boot)))))
  = true.
Proof.
  split; [exact one_invoked_stored|].
  exact (proj1 (proj2 (virgin_entry_aligned SysV 5000 _ 0 [] 0 111 [7; 8; 9]
                         one_invoked_stored))).
Defined.

Lemma blit_outside dm dst sm src n x :
  x < dst \/ dst + n <= x -> blit dm dst sm src n x = dm x.
Proof.
  intros H. unfold blit.
  destruct (Z.leb_spec dst x); destruct (Z.ltb_spec x (dst + n));
    cbn [andb]; try reflexivity; lia.
Qed.

Lemma switch_to_top_stack pf s :
  let d := csa s (csavail s - 1) in
  let bms := base s - pop_size d - 2 in
  let N := pop_mark d in
  let filled := blit (stack s) bms (csa s) (csavail s - 1 - pop_size d)
                     (pop_size d) in
  1 <= N <= 127 ->
  forall x,
    x < bms + excess_home pf \/
    bms + excess_home pf + (N - IN_REGISTERS_COUNT pf) <= x ->
    stack (snd (switch_to_top pf s)) x = filled x.
Proof.
  intros d bms N filled HN x Hx.
  rewrite switch_to_top_eq.
  destruct (epilogue_vars pf (popCoroutine pf (moved_away s)))
    as (_ & _ & _ & _ & _ & _ & _ & _ & _ & -> & _).
  rewrite popCoroutine_eq. cbv zeta.
  change (csa (moved_away s)) with (csa s).
  change (csavail (moved_away s)) with (csavail s).
  fold d. fold N.
  replace (N >? 0) with true by (symmetry; apply Z.gtb_lt; lia).
  match goal with |- stack (set_rsp _ ?k) x = _ =>
    change (stack (set_rsp (_RSP k) k)) with (stack k) end.
  destruct (place_parameters_spec pf N (csavail s - 2)
              (popped pf (moved_away s)) HN) as [_ ->].
  change (stack (popped pf (moved_away s))) with filled.
  change (baseMinusSize (popped pf (moved_away s))) with bms.
  destruct (N >? IN_REGISTERS_COUNT pf); [|reflexivity].
  apply blit_outside. lia.
Qed.

(** X5: giving control to a stored coroutine (one stored by coresume, or a new
    one with up to 127 parameters) from a stack pointer not more than
    EXTRA_STACK - 2 longs above base: popCoroutine is called with the stack
    pointer at or below the place of the incoming coroutine, the size_of im
    longs below base - 2, from where its calls push downwards; no long of the
    stack at or above base - 2 (the host's) is written and the csa's longs
    stay as they are; a coroutine that has run before gets its longs back as
    they were stored and the argument registers are not touched for it. *)
Theorem resume_stays_in_frame pf cleanup_fn s a r im :
  stored s a (r ++ [im]) ->
  (exists f, im = yielded f) \/
  (exists b e args, (length args <= 127)%nat /\
                    im = virgin_image pf cleanup_fn b e args) ->
  rsp (regs s) <= base s + (EXTRA_STACK - 2) ->
  let s' := snd (switch_to_top pf s) in
  rsp (regs (moved_away s)) <= base s - 2 - size_of im /\
  (forall x, base s - 2 <= x -> stack s' x = stack s x) /\
  csa s' = csa s /\
  (pop_mark (snd im) = 0 ->
   read (stack s') (base s - 2 - size_of im) (length (fst im)) = fst im /\
   argument_registers pf s' = argument_registers pf s).
Proof.
  intros St Him Hsp s'.
  destruct (stored_top s a r im St) as (D & (W1 & W2) & _).
  destruct (switch_to_top_vars pf s)
    as (_ & _ & _ & Ec & _ & _ & _ & _ & _ & _ & _ & Lo & Z0).
  fold s' in Ec, Lo, Z0. rewrite D, W1 in Lo, Z0.
  unfold size_of.
  set (len := Z.of_nat (length (fst im))) in *.
  assert (forall x, base s - 2 <= x -> stack s' x = stack s x) as Out.
  { intros x Hx.
    destruct Him as [[f ->]|(b & e & args & Ha & ->)].
    - rewrite (Z0 (pop_mark_yielded f)). apply blit_outside. lia.
    - destruct (Z.eq_dec (Z.of_nat (length args)) 0) as [E0|E0].
      + rewrite Z0; [apply blit_outside; lia|].
        rewrite virgin_image_size_word.
        destruct (marked_size_facts pf (Z.of_nat (length args)) ltac:(lia))
          as (_ & _ & _ & M & _).
        rewrite M. exact E0.
      + pose proof (switch_to_top_stack pf s) as T. cbv zeta in T.
        fold s' in T. rewrite D, W1 in T. fold len in T.
        rewrite virgin_image_size_word in T.
        destruct (marked_size_facts pf (Z.of_nat (length args)) ltac:(lia))
          as (_ & _ & _ & M & _).
        rewrite M in T.
        pose proof (length_virgin_words pf cleanup_fn b e args) as L.
        assert (len = LONG_COUNT pf + 2
                      + match pf with SysV => 0 | Cygwin => 4 end
                      + Z.of_nat (length args)
                      + filler (Z.of_nat (length args))) as Elen
          by (subst len; exact L).
        assert (0 <= filler (Z.of_nat (length args))) as Fp
          by (unfold filler; destruct (_ =? 0); [lia|];
              destruct (Z.odd _); lia).
        assert (excess_home pf - IN_REGISTERS_COUNT pf
                <= LONG_COUNT pf + 2
                   + match pf with SysV => 0 | Cygwin => 4 end) as Hh
          by (destruct pf; cbn; lia).
        assert (0 <= excess_home pf) as He by (destruct pf; cbn; lia).
        rewrite T; [apply blit_outside; lia | lia | lia]. }
  split; [|split; [exact Out|]].
  { cbn [moved_away rsp regs set_rsp set_regs set_RSP set_size _RSP _size csa
         csavail].
    rewrite D, W2. fold len. unfold EXTRA_STACK in *. lia. }
  split; [exact Ec|]. intros E. split.
  - destruct (switch_to_top_stored pf s a r im St)
      as (_ & _ & _ & Sz & B & _ & _ & _ & _ & _ & F).
    specialize (F E). unfold restored_frame in F. fold s' in Sz, B, F.
    rewrite B, Sz, Nat2Z.id in F. rewrite <- F at 2. f_equal. lia.
  - subst s'. rewrite switch_to_top_eq, epilogue_argument_registers.
    rewrite popCoroutine_eq. cbv zeta.
    change (csa (moved_away s)) with (csa s).
    change (csavail (moved_away s)) with (csavail s).
    rewrite D, E. cbn [Z.gtb Z.compare].
    destruct pf; reflexivity.
Qed.

Lemma resume_stays_in_frame_witness :
  stored (two_started SysV) 0
         [spec_image SysV 5000 (base (cobegin_start SysV boot)) (111, [])] /\
  rsp (regs (two_started SysV))
  <= base (two_started SysV) + (EXTRA_STACK - 2) /\
  stack (snd (switch_to_top SysV (two_started SysV))) 996
  = stack (two_started SysV) 996.
Proof.
  destruct two_started_stored as [St _].
  assert (rsp (regs (two_started SysV))
          <= base (two_started SysV) + (EXTRA_STACK - 2)) as Hsp
    by (apply Z.leb_le; vm_compute; reflexivity).
  split; [exact St|]. split; [exact Hsp|].
  refine (proj1 (proj2 (resume_stays_in_frame SysV 5000 _ 0 [] _ St
                   (or_intror (ex_intro _ _ (ex_intro _ 111
                      (ex_intro _ [] (conj _ eq_refl))))) Hsp)) 996 _).
  - cbn. lia.
  - apply Z.leb_le. vm_compute. reflexivity.
Defined.

Lemma encode_nil_iff ring : encode ring = [] <-> ring = [].
Proof.
  split; [|now intros ->].
  destruct ring as [|[w d] t]; [reflexivity|].
  cbn. intros E. apply app_eq_nil in E. destruct E as [E _].
  apply app_eq_nil in E. destruct E as [_ E]. discriminate.
Qed.

(** X6: while a ring runs, the running coroutine is the only one exactly when
    the csa is empty; cleanup returns to the host exactly then, leaving the
    counter at 0 and the csa empty, and a coresume made then returns to its
    caller with nothing changed. *)
Theorem ring_ends_with_empty_csa pf cleanup_fn s :
  reachable pf cleanup_fn InRing s ->
  (csavail s = 0 <-> getCoroutineCount s = 1) /\
  (fst (cleanup pf s) = ReturnToHost <-> csavail s = 0) /\
  (fst (cleanup pf s) = ReturnToHost ->
   csavail (snd (cleanup pf s)) = 0 /\
   getCoroutineCount (snd (cleanup pf s)) = 0) /\
  (csavail s = 0 -> coresume pf s = (ReturnToCaller, s)).
Proof.
  intros R. destruct (reachable_invariant pf cleanup_fn InRing s R)
    as (ring & St & N).
  unfold getCoroutineCount.
  assert (csavail s = 0 <-> ring = []) as E.
  { destruct St as (A & _). rewrite A, <- encode_nil_iff.
    destruct (encode ring); cbn; split; intros; (lia || congruence). }
  assert (csavail s = 0 <-> coroutineCount s = 1) as E1.
  { rewrite E, N. destruct ring; cbn [length]; split; intros;
      (lia || congruence). }
  assert (fst (cleanup pf s) = ReturnToHost <-> csavail s = 0) as E2.
  { split.
    - intros H. apply E1.
      destruct (Z.eq_dec (coroutineCount s) 1) as [|Hn]; [assumption|].
      rewrite (cleanup_next pf s Hn) in H.
      assert (ring <> []) as Hne by (intros ->; cbn in N; lia).
      destruct (switch_to_top_invariant pf
                  (set_coroutineCount (coroutineCount s - 1) s) ring)
        as (X & _); [exact St | exact Hne | cbn; lia |].
      contradiction.
    - intros H. apply E1 in H. apply (cleanup_last pf s H). }
  split; [exact E1|]. split; [exact E2|]. split.
  - intros H. apply E2 in H. pose proof H as H'. apply E1 in H'.
    destruct (cleanup_last pf s H') as (_ & C & A).
    split; [rewrite A; exact H | exact C].
  - intros H. apply E1 in H. unfold coresume.
    replace (coroutineCount s >? 1) with false; [reflexivity|].
    symmetry. rewrite Z.gtb_ltb. apply Z.ltb_ge. lia.
Qed.

Lemma ring_ends_with_empty_csa_witness :
  reachable SysV 5000 InRing (two_started SysV) /\
  (csavail (two_started SysV) = 0
   <-> getCoroutineCount (two_started SysV) = 1).
Proof.
  split; [apply two_started_reachable|].
  exact (proj1 (ring_ends_with_empty_csa SysV 5000 _
                  (two_started_reachable SysV))).
Defined.

(** ** histo.cpp: what a histogram counts *)

Lemma uint32_small z : 0 <= z < 2 ^ 32 -> uint32 z = z.
Proof. intros H. unfold uint32. now apply Z.mod_small. Qed.

Lemma uint32_range z : 0 <= uint32 z < 2 ^ 32.
Proof. unfold uint32. apply Z.mod_pos_bound. lia. Qed.

Lemma Add_fields d h :
  countsPerBin (Add d h) = countsPerBin h /\
  nBins (Add d h) = nBins h /\
  minBin (Add d h) = minBin h /\
  n (Add d h) = uint32 (n h + 1) /\
  binVector (Add d h)
  = set_nth (Z.to_nat (targetBin d h))
            (uint32 (nth (Z.to_nat (targetBin d h)) (binVector h) 0 + 1))
            (binVector h) /\
  maxFreq (Add d h)
  = (let c := uint32 (nth (Z.to_nat (targetBin d h)) (binVector h) 0 + 1) in
     if c >? maxFreq h then c else maxFreq h) /\
  minData (Add d h) = (if d <? minData h then d else minData h) /\
  maxData (Add d h)
  = (if d <? minData h then maxData h
     else if d >? maxData h then d else maxData h).
Proof.
  unfold Add, targetBin.
  destruct (_ >? nBins h); [destruct (first_free (overN h))|];
    (destruct (d <? minData h); [|destruct (d >? maxData h)]);
    cbn; repeat split; reflexivity.
Qed.

Lemma length_set_nth i v l : length (set_nth i v l) = length l.
Proof.
  revert i; induction l as [|x t IH]; intros [|i]; cbn; auto.
Qed.

Lemma nth_set_nth i j v l :
  nth j (set_nth i v l) 0
  = if (Nat.eqb i j) && (Nat.ltb i (length l)) then v else nth j l 0.
Proof.
  revert i j; induction l as [|x t IH]; intros [|i] [|j]; cbn; auto.
  now destruct (Nat.eqb i j).
Qed.

Lemma sum_set_nth i v l :
  (i < length l)%nat -> sum (set_nth i v l) = sum l - nth i l 0 + v.
Proof.
  unfold sum.
  revert i; induction l as [|x t IH]; intros [|i] H; cbn in *; try lia.
  rewrite IH by lia. lia.
Qed.

Lemma Forall_set_nth (P : Z -> Prop) i v l :
  P v -> Forall P l -> Forall P (set_nth i v l).
Proof.
  intros Hv; revert i; induction l as [|x t IH]; intros [|i] H; cbn; auto;
    inversion H; subst; constructor; auto.
Qed.

Lemma largest_ge l i : nth i l 0 <= largest l.
Proof.
  unfold largest.
  revert i; induction l as [|x t IH]; intros [|i]; cbn; try lia.
  specialize (IH i). lia.
Qed.

Lemma largest_set_nth i v l :
  (i < length l)%nat -> nth i l 0 <= v ->
  largest (set_nth i v l) = Z.max v (largest l).
Proof.
  unfold largest.
  unfold largest.
  revert i; induction l as [|x t IH]; intros [|i] H Hv; cbn in *; try lia.
  rewrite IH by (lia || assumption). lia.
Qed.

Lemma largest_attained l :
  l <> [] -> Forall (fun c => 0 <= c) l ->
  exists i, (i < length l)%nat /\ nth i l 0 = largest l.
Proof.
  unfold largest.
  induction l as [|x t IH]; intros Hne H; [congruence|].
  inversion H as [|? ? Hx Ht]; subst.
  destruct t as [|y t'].
  - exists 0%nat. cbn. split; [lia|]. lia.
  - destruct IH as [i [Hi E]]; [discriminate | assumption |].
    destruct (Z_le_gt_dec (fold_right Z.max 0 (y :: t')) x) as [L|G].
    + exists 0%nat. cbn [nth length fold_right] in *. split; [lia|]. lia.
    + exists (S i). cbn [nth length fold_right] in *. split; [lia|]. lia.
Qed.

Lemma targetBin_range d h :
  0 <= nBins h -> nBins h + 1 < 2 ^ 32 ->
  0 <= targetBin d h <= nBins h + 1.
Proof.
  intros H0 H1. unfold targetBin.
  set (t := if d >=? minBin h then _ else 0).
  assert (0 <= t) as Ht.
  { subst t. destruct (d >=? minBin h); [apply uint32_range | lia]. }
  destruct (t >? nBins h) eqn:E.
  - rewrite uint32_small by lia. lia.
  - rewrite Z.gtb_ltb in E. apply Z.ltb_ge in E. lia.
Qed.

Lemma targetBin_spec d h :
  0 <= minBin h -> 0 < countsPerBin h ->
  0 <= nBins h -> nBins h + 1 < 2 ^ 32 ->
  0 <= d < 2 ^ 32 ->
  d - minBin h < 2 ^ 32 - 1 \/ 1 < countsPerBin h ->
  targetBin d h = bin_of (minBin h) (countsPerBin h) (nBins h) d.
Proof.
  intros Hm Hc Hb Hb' Hd Hw. unfold targetBin, bin_of.
  destruct (d <? minBin h) eqn:E1.
  - apply Z.ltb_lt in E1.
    assert ((d >=? minBin h) = false) as -> by (rewrite Z.geb_leb; apply Z.leb_gt; lia).
    assert ((0 >? nBins h) = false) as -> by (rewrite Z.gtb_ltb; apply Z.ltb_ge; lia).
    reflexivity.
  - apply Z.ltb_ge in E1.
    assert ((d >=? minBin h) = true) as -> by (rewrite Z.geb_leb; apply Z.leb_le; lia).
    rewrite (uint32_small (d - minBin h)) by lia.
    set (q := (d - minBin h) / countsPerBin h).
    assert (0 <= q) as Hq0 by (apply Z.div_pos; lia).
    assert (countsPerBin h * q <= d - minBin h) as Hq1
      by (apply Z.mul_div_le; lia).
    assert (d - minBin h < countsPerBin h * (q + 1)) as Hq2.
    { pose proof (Z.mul_succ_div_gt (d - minBin h) (countsPerBin h) Hc).
      fold q in H. lia. }
    assert (q + 1 < 2 ^ 32) as Hq3 by nia.
    rewrite (uint32_small (q + 1)) by lia.
    destruct (d <? minBin h + countsPerBin h * nBins h) eqn:E2.
    + apply Z.ltb_lt in E2.
      assert ((q + 1 >? nBins h) = false) as ->
        by (rewrite Z.gtb_ltb; apply Z.ltb_ge; nia).
      reflexivity.
    + apply Z.ltb_ge in E2.
      assert ((q + 1 >? nBins h) = true) as ->
        by (rewrite Z.gtb_ltb; apply Z.ltb_lt; nia).
      apply uint32_small. lia.
Qed.

Lemma sum_repeat_0 k : sum (repeat 0 k) = 0.
Proof. unfold sum. induction k; cbn; lia. Qed.

Lemma largest_repeat_0 k : largest (repeat 0 k) = 0.
Proof. unfold largest. induction k; cbn; lia. Qed.

Lemma counted_new min countsPer bins :
  histogram_parameters min countsPer bins ->
  counted min countsPer bins 0 (Histogram_new min countsPer bins).
Proof.
  intros (Hm & Hc & Hb). unfold counted, Histogram_new. cbn.
  repeat split.
  - apply uint32_small. lia.
  - apply repeat_length.
  - apply Forall_forall. intros x Hx. apply repeat_spec in Hx. lia.
  - apply sum_repeat_0.
  - symmetry. apply largest_repeat_0.
Qed.

Lemma nth_le_sum l i :
  Forall (fun c => 0 <= c) l -> nth i l 0 <= sum l.
Proof.
  unfold sum. intros H; revert i.
  induction H as [|x t Hx Ht IH]; intros [|i]; cbn; try lia.
  - assert (0 <= fold_right Z.add 0 t).
    { clear IH. induction Ht; cbn; lia. }
    lia.
  - specialize (IH i). lia.
Qed.

Lemma nth_nonneg l i : Forall (fun c => 0 <= c) l -> 0 <= nth i l 0.
Proof.
  intros H; revert i.
  induction H as [|x t Hx Ht IH]; intros [|i]; cbn; try lia. apply IH.
Qed.

Lemma counted_Add min countsPer bins k d h :
  0 <= bins < 2 ^ 31 -> 0 <= k -> k + 1 < 2 ^ 32 ->
  counted min countsPer bins k h ->
  counted min countsPer bins (k + 1) (Add d h) /\
  binVector (Add d h)
  = set_nth (Z.to_nat (targetBin d h))
            (nth (Z.to_nat (targetBin d h)) (binVector h) 0 + 1) (binVector h) /\
  (Z.to_nat (targetBin d h) < length (binVector h))%nat.
Proof.
  intros Hb Hk0 Hk (Em & Ec & En & El & Ef & Es & Ek & Ex).
  destruct (Add_fields d h) as (F1 & F2 & F3 & F4 & F5 & F6 & _).
  pose proof (targetBin_range d h) as R. rewrite En in R.
  specialize (R ltac:(lia) ltac:(lia)).
  set (b := Z.to_nat (targetBin d h)) in *.
  assert (b < length (binVector h))%nat as Hlt by (rewrite El; subst b; lia).
  pose proof (nth_le_sum (binVector h) b Ef) as Hle.
  pose proof (nth_nonneg (binVector h) b Ef) as Hge.
  rewrite uint32_small in F5, F6 by lia.
  split; [|split; [exact F5 | exact Hlt]].
  unfold counted. rewrite F1, F2, F3, F4, F5, F6.
  repeat split; try assumption.
  - now rewrite length_set_nth.
  - apply Forall_set_nth; [lia | assumption].
  - rewrite sum_set_nth by assumption. lia.
  - rewrite Ek. apply uint32_small. lia.
  - cbv zeta. rewrite largest_set_nth by (assumption || lia).
    rewrite Ex. pose proof (largest_ge (binVector h) b).
    destruct (_ >? _) eqn:E.
    + rewrite Z.gtb_ltb in E. apply Z.ltb_lt in E. lia.
    + rewrite Z.gtb_ltb in E. apply Z.ltb_ge in E. lia.
Qed.

Lemma Add_all_snoc l d h : Add_all (l ++ [d]) h = Add d (Add_all l h).
Proof. unfold Add_all. now rewrite fold_left_app. Qed.

Lemma Add_all_cons d l h : Add_all (d :: l) h = Add_all l (Add d h).
Proof. reflexivity. Qed.

Lemma counted_Add_all min countsPer bins samples :
  histogram_parameters min countsPer bins ->
  Z.of_nat (length samples) < 2 ^ 32 ->
  counted min countsPer bins (Z.of_nat (length samples))
          (Add_all samples (Histogram_new min countsPer bins)).
Proof.
  intros Hp. induction samples as [|d l IH] using rev_ind; intros Hl.
  - apply counted_new, Hp.
  - rewrite Add_all_snoc. rewrite length_app in *. cbn [length] in *.
    replace (Z.of_nat (length l + 1)) with (Z.of_nat (length l) + 1) by lia.
    apply counted_Add; [apply Hp | lia | lia | apply IH; lia].
Qed.

Lemma map_nth_seq (l : list Z) :
  map (fun i => nth i l 0) (seq 0 (length l)) = l.
Proof.
  apply nth_ext with (d := 0) (d' := 0).
  - now rewrite length_map, length_seq.
  - intros i Hi. rewrite length_map, length_seq in Hi.
    rewrite nth_indep with (d' := nth 0%nat l 0)
      by now rewrite length_map, length_seq.
    change (nth 0%nat l 0) with ((fun i => nth i l 0) 0%nat).
    rewrite map_nth. now rewrite seq_nth.
Qed.

Lemma BinCount_in bins i h :
  0 <= bins < 2 ^ 31 -> nBins h = bins -> 0 <= i <= bins + 1 ->
  BinCount i h = nth (Z.to_nat i) (binVector h) 0.
Proof.
  intros Hb En Hi. unfold BinCount. rewrite En.
  rewrite !uint32_small by lia.
  assert ((i >=? 0) = true) as -> by (rewrite Z.geb_leb; apply Z.leb_le; lia).
  assert ((i <=? bins + 1) = true) as -> by (apply Z.leb_le; lia).
  reflexivity.
Qed.

Lemma BinCount_out bins i h :
  0 <= bins < 2 ^ 31 -> nBins h = bins ->
  i < 0 \/ bins + 1 < i < 2 ^ 32 ->
  BinCount i h = 0.
Proof.
  intros Hb En Hi. unfold BinCount. rewrite En.
  destruct Hi as [Hi|Hi].
  - assert ((i >=? 0) = false) as ->
      by (rewrite Z.geb_leb; apply Z.leb_gt; lia).
    reflexivity.
  - rewrite !uint32_small by lia.
    assert ((i <=? bins + 1) = false) as -> by (apply Z.leb_gt; lia).
    now rewrite andb_false_r.
Qed.

Lemma ten_bins : histogram_parameters 0 1 10.
Proof. unfold histogram_parameters. lia. Qed.

(** X7: every sample is counted once. After any samples (fewer than 2^32 of
    them) NValues is their number, the counters of the bins 0 to bins + 1 add
    up to it, and BinCount answers 0 for every other bin number. *)
Theorem bins_add_up min countsPer bins samples :
  histogram_parameters min countsPer bins ->
  Z.of_nat (length samples) < 2 ^ 32 ->
  let h := Add_all samples (Histogram_new min countsPer bins) in
  NValues h = Z.of_nat (length samples) /\
  sum (map (fun i => BinCount (Z.of_nat i) h) (seq 0 (Z.to_nat (bins + 2))))
  = Z.of_nat (length samples) /\
  forall i, i < 0 \/ bins + 1 < i < 2 ^ 32 -> BinCount i h = 0.
Proof.
  intros Hp Hl h.
  destruct (counted_Add_all min countsPer bins samples Hp Hl)
    as (Em & Ec & En & El & Ef & Es & Ek & Ex).
  fold h in Em, Ec, En, El, Ef, Es, Ek, Ex.
  destruct Hp as (Hm & Hc & Hb).
  split; [exact Ek | split].
  - rewrite <- Es, <- El.
    rewrite <- (map_nth_seq (binVector h)) at 2.
    f_equal. apply map_ext_in. intros i Hi. apply in_seq in Hi.
    rewrite (BinCount_in bins) by (assumption || lia).
    now rewrite Nat2Z.id.
  - intros i Hi. now apply (BinCount_out bins).
Qed.

Lemma bins_add_up_witness :
  histogram_parameters 0 1 10 /\
  NValues (Add_all [3; 5; 50] (Histogram_new 0 1 10)) = 3.
Proof.
  split; [exact ten_bins|].
  refine (proj1 (bins_add_up 0 1 10 [3; 5; 50] ten_bins _)). cbn. lia.
Defined.

Lemma bin_of_range min countsPer bins d :
  0 < countsPer -> 0 <= bins ->
  0 <= bin_of min countsPer bins d <= bins + 1.
Proof.
  intros Hc Hb. unfold bin_of.
  destruct (d <? min) eqn:E1; [lia|]. apply Z.ltb_ge in E1.
  destruct (d <? min + countsPer * bins) eqn:E2; [|lia]. apply Z.ltb_lt in E2.
  assert (0 <= (d - min) / countsPer) by (apply Z.div_pos; lia).
  assert ((d - min) / countsPer < bins)
    by (apply Z.div_lt_upper_bound; lia).
  lia.
Qed.

(** X8: Add adds one to the counter of exactly one bin and leaves the others:
    bin 0 for a sample below min, bin (data - min) / countsPer + 1 for a
    sample in the range, bin bins + 1 for a sample at or above min + countsPer
    * bins; this for every sample but the one on which the quotient plus one
    does not fit an unsigned int. *)
Theorem Add_counts_in_bin min countsPer bins samples d :
  histogram_parameters min countsPer bins ->
  Z.of_nat (length samples) + 1 < 2 ^ 32 ->
  0 <= d < 2 ^ 32 ->
  d - min < 2 ^ 32 - 1 \/ 1 < countsPer ->
  let h := Add_all samples (Histogram_new min countsPer bins) in
  forall i, - 2 ^ 31 <= i < 2 ^ 31 ->
    BinCount i (Add d h)
    = BinCount i h + (if i =? bin_of min countsPer bins d then 1 else 0).
Proof.
  intros Hp Hl Hd Hw h i Hi.
  pose proof (counted_Add_all min countsPer bins samples Hp ltac:(lia)) as C.
  fold h in C.
  destruct Hp as (Hm & Hc & Hb).
  destruct (counted_Add min countsPer bins (Z.of_nat (length samples)) d h
              Hb ltac:(lia) Hl C)
    as (C' & Eb & Hlt).
  destruct C as (Em & Ec & En & El & _).
  destruct C' as (_ & _ & En' & _).
  rewrite targetBin_spec in Eb, Hlt by (rewrite ?Em, ?Ec, ?En; lia).
  rewrite Em, Ec, En in Eb, Hlt.
  pose proof (bin_of_range min countsPer bins d ltac:(lia) ltac:(lia)) as R.
  destruct (Z_lt_dec i 0) as [N|N];
    [|destruct (Z_lt_dec (bins + 1) i) as [M|M]].
  - rewrite !(BinCount_out bins) by (assumption || lia).
    destruct (Z.eqb_spec i (bin_of min countsPer bins d)); lia.
  - rewrite !(BinCount_out bins) by (assumption || lia).
    destruct (Z.eqb_spec i (bin_of min countsPer bins d)); lia.
  - rewrite !(BinCount_in bins) by (assumption || lia).
    rewrite Eb, nth_set_nth.
    apply Nat.ltb_lt in Hlt. rewrite Hlt, andb_true_r.
    destruct (Z.eqb_spec i (bin_of min countsPer bins d)) as [E|E].
    + subst i. rewrite Nat.eqb_refl. lia.
    + assert (Nat.eqb (Z.to_nat (bin_of min countsPer bins d)) (Z.to_nat i)
              = false) as -> by (apply Nat.eqb_neq; lia).
      lia.
Qed.

Lemma Add_counts_in_bin_witness :
  histogram_parameters 0 1 10 /\
  BinCount 6 (Add 5 (Add_all [3; 5; 50] (Histogram_new 0 1 10)))
  = BinCount 6 (Add_all [3; 5; 50] (Histogram_new 0 1 10)) + 1.
Proof.
  split; [exact ten_bins|].
  refine (Add_counts_in_bin 0 1 10 [3; 5; 50] 5 ten_bins _ _ _ 6 _);
    cbn; lia.
Defined.

(** X9: the one sample left out above: with min 0 and countsPer 1 the sample
    2^32 - 1, the largest there is, is counted in bin 0, the bin of the
    samples under the range, not in the bin of those over it, and it is not
    entered in overN. *)
Theorem Add_wraps_to_under bins samples :
  0 <= bins < 2 ^ 31 ->
  Z.of_nat (length samples) + 1 < 2 ^ 32 ->
  let h := Add_all samples (Histogram_new 0 1 bins) in
  BinCount 0 (Add (2 ^ 32 - 1) h) = BinCount 0 h + 1 /\
  BinCount (bins + 1) (Add (2 ^ 32 - 1) h) = BinCount (bins + 1) h /\
  overN (Add (2 ^ 32 - 1) h) = overN h.
Proof.
  intros Hb Hl h.
  assert (histogram_parameters 0 1 bins) as Hp by (unfold histogram_parameters; lia).
  pose proof (counted_Add_all 0 1 bins samples Hp ltac:(lia)) as C.
  fold h in C.
  destruct (counted_Add 0 1 bins (Z.of_nat (length samples)) (2 ^ 32 - 1) h
              Hb ltac:(lia) Hl C)
    as (C' & Eb & Hlt).
  destruct C as (Em & Ec & En & El & _).
  destruct C' as (_ & _ & En' & _).
  assert (targetBin (2 ^ 32 - 1) h = 0) as T.
  { unfold targetBin. rewrite Em, Ec, En.
    replace (uint32 (uint32 (2 ^ 32 - 1 - 0) / 1 + 1)) with 0
      by (vm_compute; reflexivity).
    change (2 ^ 32 - 1 >=? 0) with true. cbv iota.
    assert ((0 >? bins) = false) as ->
      by (rewrite Z.gtb_ltb; apply Z.ltb_ge; lia).
    reflexivity. }
  rewrite T in Eb, Hlt. change (Z.to_nat 0) with 0%nat in Eb, Hlt.
  rewrite !(BinCount_in bins) by (assumption || lia).
  rewrite Eb, !nth_set_nth.
  apply Nat.ltb_lt in Hlt. rewrite Hlt.
  change (Z.to_nat 0) with 0%nat.
  assert (Nat.eqb 0 (Z.to_nat (bins + 1)) = false) as ->
    by (apply Nat.eqb_neq; lia).
  cbn [Nat.eqb andb]. repeat split.
  unfold Add. rewrite Em, Ec, En.
  replace (uint32 (uint32 (2 ^ 32 - 1 - 0) / 1 + 1)) with 0
    by (vm_compute; reflexivity).
  change (2 ^ 32 - 1 >=? 0) with true. cbv iota.
  assert ((0 >? bins) = false) as ->
    by (rewrite Z.gtb_ltb; apply Z.ltb_ge; lia).
  destruct (2 ^ 32 - 1 <? minData h); [|destruct (2 ^ 32 - 1 >? maxData h)];
    reflexivity.
Qed.

Lemma Add_wraps_to_under_witness :
  0 <= 10 < 2 ^ 31 /\
  BinCount 0 (Add (2 ^ 32 - 1) (Add_all [3] (Histogram_new 0 1 10)))
  = BinCount 0 (Add_all [3] (Histogram_new 0 1 10)) + 1.
Proof.
  split; [lia|].
  refine (proj1 (Add_wraps_to_under 10 [3] _ _)); cbn; lia.
Defined.

(** X10: MaxBinCount is the largest of the counters: no BinCount exceeds it
    and one of the bins 0 to bins + 1 has it. *)
Theorem MaxBinCount_is_largest min countsPer bins samples :
  histogram_parameters min countsPer bins ->
  Z.of_nat (length samples) < 2 ^ 32 ->
  let h := Add_all samples (Histogram_new min countsPer bins) in
  (forall i, BinCount i h <= MaxBinCount h) /\
  exists i, 0 <= i <= bins + 1 /\ BinCount i h = MaxBinCount h.
Proof.
  intros Hp Hl h.
  destruct (counted_Add_all min countsPer bins samples Hp Hl)
    as (Em & Ec & En & El & Ef & Es & Ek & Ex).
  fold h in Em, Ec, En, El, Ef, Es, Ek, Ex.
  destruct Hp as (Hm & Hc & Hb).
  unfold MaxBinCount. rewrite Ex. split.
  - intros i. unfold BinCount.
    destruct (_ && _); [apply largest_ge|].
    pose proof (largest_ge (binVector h) 0).
    pose proof (nth_nonneg (binVector h) 0 Ef). lia.
  - destruct (largest_attained (binVector h)) as [i [Hi E]].
    + intros E. rewrite E in El. cbn in El. lia.
    + exact Ef.
    + exists (Z.of_nat i). rewrite El in Hi. split; [lia|].
      rewrite (BinCount_in bins) by (assumption || lia).
      now rewrite Nat2Z.id.
Qed.

Lemma MaxBinCount_is_largest_witness :
  histogram_parameters 0 1 10 /\
  BinCount 4 (Add_all [3; 5; 3] (Histogram_new 0 1 10))
  <= MaxBinCount (Add_all [3; 5; 3] (Histogram_new 0 1 10)).
Proof.
  split; [exact ten_bins|].
  refine (proj1 (MaxBinCount_is_largest 0 1 10 [3; 5; 3] ten_bins _) 4).
  cbn. lia.
Defined.

Lemma minData_run samples :
  forall h, minData (Add_all samples h) = fold_left Z.min samples (minData h).
Proof.
  induction samples as [|d l IH]; intros h; [reflexivity|].
  rewrite Add_all_cons, IH. cbn [fold_left]. f_equal.
  destruct (Add_fields d h) as (_ & _ & _ & _ & _ & _ & E & _).
  rewrite E. destruct (Z.ltb_spec d (minData h)); lia.
Qed.

Lemma maxData_run samples h :
  maxData h <= maxData (Add_all samples h) <= fold_left Z.max samples (maxData h) /\
  (maxData (Add_all samples h) = maxData h \/
   In (maxData (Add_all samples h)) samples).
Proof.
  induction samples as [|d l IH] using rev_ind.
  - cbn. split; [lia | now left].
  - rewrite Add_all_snoc, fold_left_app. cbn [fold_left].
    destruct (Add_fields d (Add_all l h)) as (_ & _ & _ & _ & _ & _ & _ & E).
    rewrite E. destruct IH as [[I1 I2] I3].
    destruct (d <? minData (Add_all l h));
      [|destruct (Z.gtb_spec d (maxData (Add_all l h)))].
    + split; [lia|]. destruct I3 as [I3|I3]; [now left|].
      right. apply in_or_app. now left.
    + split; [lia|]. right. apply in_or_app. right. now left.
    + split; [lia|]. destruct I3 as [I3|I3]; [now left|].
      right. apply in_or_app. now left.
Qed.

(** X11: for a histogram made with a bin width that is not 0 and a number of
    bins that is not negative, and samples that are unsigned ints: MinValue
    is the least of the samples and of the upper end of the range, min +
    countsPer * bins (modulo 2^32), which it also returns when nothing was
    added or when every sample lies above it; MaxValue lies between min and
    the largest sample and is min or one of the samples. *)
Theorem extremes_of_samples min countsPer bins samples :
  histogram_parameters min countsPer bins ->
  Forall (fun d => 0 <= d < 2 ^ 32) samples ->
  let h := Add_all samples (Histogram_new min countsPer bins) in
  MinValue h = fold_left Z.min samples (uint32 (min + countsPer * bins)) /\
  min <= MaxValue h <= fold_left Z.max samples min /\
  (MaxValue h = min \/ In (MaxValue h) samples).
Proof.
  intros _ _. split.
  - apply (minData_run samples (Histogram_new min countsPer bins)).
  - exact (maxData_run samples (Histogram_new min countsPer bins)).
Qed.

Lemma extremes_of_samples_witness :
  histogram_parameters 0 1 10 /\
  Forall (fun d => 0 <= d < 2 ^ 32) [30; 3; 5] /\
  MinValue (Add_all [30; 3; 5] (Histogram_new 0 1 10)) = 3.
Proof.
  assert (Forall (fun d => 0 <= d < 2 ^ 32) [30; 3; 5]) as Hs
    by (repeat constructor; lia).
  split; [exact ten_bins|]. split; [exact Hs|].
  exact (proj1 (extremes_of_samples 0 1 10 [30; 3; 5] ten_bins Hs)).
Defined.

Lemma last_cons_default (z : Z) l a b : last (z :: l) a = last (z :: l) b.
Proof.
  revert z; induction l as [|y l IH]; intros z; [reflexivity|].
  change (last (y :: l) a = last (y :: l) b). apply IH.
Qed.

Lemma descending_run samples :
  forall h, descending (minData h) samples ->
  maxData (Add_all samples h) = maxData h /\
  minData (Add_all samples h) = last samples (minData h).
Proof.
  induction samples as [|d l IH]; intros h D; [split; reflexivity|].
  destruct D as [D1 D2].
  destruct (Add_fields d h) as (_ & _ & _ & _ & _ & _ & E1 & E2).
  apply Z.ltb_lt in D1. rewrite D1 in E1, E2.
  rewrite Add_all_cons.
  destruct (IH (Add d h)) as [I1 I2]; [now rewrite E1|].
  rewrite I1, I2, E1, E2. split; [reflexivity|].
  destruct l as [|z l]; [reflexivity|].
  change (last (d :: z :: l) (minData h)) with (last (z :: l) (minData h)).
  apply last_cons_default.
Qed.

(** X12: a sample that sets a new minimum never moves the maximum: for a
    histogram made with a bin width that is not 0 and a number of bins that
    is not negative, after samples (unsigned ints) each smaller than the one
    before it, the first one below the upper end of the range, MaxValue still
    returns min (and MinValue the last sample), whatever the samples; so does
    it after a single sample that lies in the range. *)
Theorem MaxValue_misses_new_minimum min countsPer bins samples :
  histogram_parameters min countsPer bins ->
  Forall (fun d => 0 <= d < 2 ^ 32) samples ->
  descending (uint32 (min + countsPer * bins)) samples ->
  let h := Add_all samples (Histogram_new min countsPer bins) in
  MaxValue h = min /\
  MinValue h = last samples (uint32 (min + countsPer * bins)).
Proof.
  intros _ _ D.
  apply (descending_run samples (Histogram_new min countsPer bins) D).
Qed.

Lemma MaxValue_misses_new_minimum_witness :
  histogram_parameters 0 1 10 /\
  Forall (fun d => 0 <= d < 2 ^ 32) [7; 5] /\
  descending (uint32 (0 + 1 * 10)) [7; 5] /\
  MaxValue (Add_all [7; 5] (Histogram_new 0 1 10)) = 0.
Proof.
  assert (Forall (fun d => 0 <= d < 2 ^ 32) [7; 5]) as Hs
    by (repeat constructor; lia).
  assert (descending (uint32 (0 + 1 * 10)) [7; 5]) as D
    by (vm_compute; repeat split; reflexivity).
  split; [exact ten_bins|]. split; [exact Hs|]. split; [exact D|].
  exact (proj1 (MaxValue_misses_new_minimum 0 1 10 [7; 5] ten_bins Hs D)).
Defined.

Lemma Add_over d h :
  overN (Add d h)
  = (if goes_over d h
     then match first_free (overN h) with
          | Some i => set_nth i (uint32 (n h + 1)) (overN h)
          | None => overN h
          end
     else overN h) /\
  overValueN (Add d h)
  = (if goes_over d h
     then match first_free (overN h) with
          | Some i => set_nth i d (overValueN h)
          | None => overValueN h
          end
     else overValueN h).
Proof.
  unfold Add, goes_over.
  destruct (_ >? nBins h); [destruct (first_free (overN h))|];
    (destruct (d <? minData h); [|destruct (d >? maxData h)]);
    cbn; split; reflexivity.
Qed.

Lemma goes_over_spec d h :
  0 <= minBin h -> 0 < countsPerBin h ->
  0 <= nBins h -> nBins h + 1 < 2 ^ 32 ->
  0 <= d < 2 ^ 32 ->
  d - minBin h < 2 ^ 32 - 1 \/ 1 < countsPerBin h ->
  goes_over d h = (d >=? minBin h + countsPerBin h * nBins h).
Proof.
  intros Hm Hc Hb Hb' Hd Hw.
  pose proof (targetBin_spec d h Hm Hc Hb Hb' Hd Hw) as T.
  unfold targetBin in T. unfold goes_over.
  set (t := if d >=? minBin h then _ else 0) in *.
  unfold bin_of in T.
  destruct (Z.geb_spec d (minBin h + countsPerBin h * nBins h)) as [G|G].
  - assert ((d <? minBin h) = false) as E1 by (apply Z.ltb_ge; nia).
    assert ((d <? minBin h + countsPerBin h * nBins h) = false) as E2
      by (apply Z.ltb_ge; lia).
    rewrite E1, E2 in T.
    destruct (t >? nBins h) eqn:E; [reflexivity|].
    rewrite Z.gtb_ltb in E. apply Z.ltb_ge in E. lia.
  - destruct (t >? nBins h) eqn:E; [|reflexivity].
    rewrite uint32_small in T by lia.
    destruct (d <? minBin h); [lia|].
    assert ((d <? minBin h + countsPerBin h * nBins h) = true) as E2
      by (apply Z.ltb_lt; lia).
    rewrite E2 in T.
    assert ((d - minBin h) / countsPerBin h < nBins h)
      by (apply Z.div_lt_upper_bound; lia).
    lia.
Qed.

Lemma firstn_repeat {A} (x : A) m p :
  firstn m (repeat x p) = repeat x (Nat.min m p).
Proof.
  revert p; induction m as [|m IH]; intros [|p]; cbn; auto. now rewrite IH.
Qed.

Lemma first_free_trace L :
  Forall (fun x => x <> 0) L ->
  forall m p, (m <= p)%nat ->
  first_free (firstn m (L ++ repeat 0 p))
  = if (length L <? m)%nat then Some (length L) else None.
Proof.
  induction 1 as [|x L Hx HL IH]; intros m p Hmp.
  - cbn [app length]. destruct m as [|m]; [reflexivity|].
    destruct p as [|p]; [lia|]. reflexivity.
  - destruct m as [|m]; [reflexivity|].
    cbn [app firstn first_free length].
    apply Z.eqb_neq in Hx. rewrite Hx.
    rewrite (IH m p) by lia.
    change (S (length L) <? S m)%nat with (length L <? m)%nat.
    now destruct (length L <? m)%nat.
Qed.

Lemma set_nth_trace L v :
  forall m p, (length L < m <= p)%nat ->
  set_nth (length L) v (firstn m (L ++ repeat 0 p))
  = firstn m ((L ++ [v]) ++ repeat 0 p).
Proof.
  induction L as [|x L IH]; intros m p Hmp.
  - destruct m as [|m]; [cbn in Hmp; lia|].
    destruct p as [|p]; [lia|].
    cbn. f_equal. rewrite (firstn_repeat 0 m p).
    change (0 :: repeat 0 p) with (repeat 0 (S p)).
    rewrite (firstn_repeat 0 m (S p)). f_equal. lia.
  - destruct m as [|m]; [cbn in Hmp; lia|].
    cbn [app firstn length set_nth]. f_equal. apply IH. cbn in Hmp. lia.
Qed.

Lemma firstn_trace_full L v m p :
  (m <= length L)%nat ->
  firstn m ((L ++ [v]) ++ repeat 0 p) = firstn m (L ++ repeat 0 p).
Proof.
  intros H. rewrite <- app_assoc.
  rewrite !firstn_app.
  replace (m - length L)%nat with 0%nat by lia. reflexivity.
Qed.

Lemma over_ordinals_snoc limit l d :
  forall k,
  over_ordinals limit k (l ++ [d])
  = over_ordinals limit k l
    ++ (if d >=? limit then [k + Z.of_nat (length l) + 1] else []).
Proof.
  induction l as [|x l IH]; intros k.
  - cbn. replace (k + 0 + 1) with (k + 1) by lia.
    now destruct (d >=? limit).
  - cbn [app over_ordinals length]. rewrite IH.
    replace (k + 1 + Z.of_nat (length l) + 1)
      with (k + Z.of_nat (S (length l)) + 1) by lia.
    now destruct (x >=? limit).
Qed.

Lemma over_ordinals_positive limit l :
  forall k, 0 <= k -> Forall (fun x => x <> 0) (over_ordinals limit k l).
Proof.
  induction l as [|x l IH]; intros k Hk; [constructor|].
  cbn. destruct (x >=? limit); [constructor; [lia|]|]; apply IH; lia.
Qed.

Lemma length_over_ordinals limit l :
  forall k, length (over_ordinals limit k l)
            = length (filter (fun d => d >=? limit) l).
Proof.
  induction l as [|x l IH]; intros k; [reflexivity|].
  cbn. destruct (x >=? limit); cbn; now rewrite IH.
Qed.

Lemma firstn_set_nth_snoc k v (l : list Z) :
  (k < length l)%nat -> firstn (S k) (set_nth k v l) = firstn k l ++ [v].
Proof.
  revert l; induction k as [|k IH]; intros [|x l] H; cbn in H; try lia.
  - reflexivity.
  - cbn [set_nth firstn app]. f_equal. apply IH. lia.
Qed.

Lemma length_overValueN samples :
  forall h, length (overValueN (Add_all samples h)) = length (overValueN h).
Proof.
  induction samples as [|d l IH]; intros h; [reflexivity|].
  rewrite Add_all_cons, IH. destruct (Add_over d h) as [_ ->].
  destruct (goes_over d h); [|reflexivity].
  destruct (first_free (overN h)); [apply length_set_nth | reflexivity].
Qed.

(** X13: the samples over the range are traced in the order they came: overN
    holds the positions (counted from 1) of the first OVERN_TRACE_COUNT
    samples at or above min + countsPer * bins and 0 in the entries not used
    yet, overValueN holds their values at the same indices, and the counter of
    bin bins + 1 is the number of all of them. *)
Theorem over_trace min countsPer bins samples :
  histogram_parameters min countsPer bins ->
  Forall (fun d => 0 <= d < 2 ^ 32 - 1) samples ->
  Z.of_nat (length samples) < 2 ^ 32 ->
  let limit := min + countsPer * bins in
  let h := Add_all samples (Histogram_new min countsPer bins) in
  overN h
  = firstn OVERN_TRACE_COUNT
      (over_ordinals limit 0 samples ++ repeat 0 OVERN_TRACE_COUNT) /\
  BinCount (bins + 1) h
  = Z.of_nat (length (over_ordinals limit 0 samples)) /\
  firstn (length (over_ordinals limit 0 samples)) (overValueN h)
  = firstn OVERN_TRACE_COUNT (filter (fun d => d >=? limit) samples).
Proof.
  intros Hp Hs Hl limit.
  pose proof Hp as (Hm & Hc & Hb).
  induction samples as [|d l IH] using rev_ind.
  - cbn. repeat split.
    rewrite (BinCount_in bins); [|lia|cbn; apply uint32_small; lia|lia].
    cbn [binVector Histogram_new].
    rewrite nth_repeat_lt; [reflexivity|lia].
  - apply Forall_app in Hs. destruct Hs as [Hs Hd].
    inversion Hd as [|? ? Hd' _]; subst. clear Hd.
    rewrite length_app in Hl. cbn [length] in Hl.
    destruct (IH Hs ltac:(lia)) as (I1 & I2 & I3). clear IH.
    pose proof (counted_Add_all min countsPer bins l Hp ltac:(lia)) as C.
    pose proof (length_overValueN l (Histogram_new min countsPer bins)) as LV.
    change (length (overValueN (Histogram_new min countsPer bins)))
      with OVERN_TRACE_COUNT in LV.
    rewrite Add_all_snoc.
    set (h := Add_all l (Histogram_new min countsPer bins)) in *.
    destruct (counted_Add min countsPer bins (Z.of_nat (length l)) d h
                Hb ltac:(lia) ltac:(lia) C) as (C' & Eb & Hlt).
    destruct C as (Em & Ec & En & El & Ef & Es & Ek & Ex).
    destruct C' as (_ & _ & En' & _).
    destruct (Add_over d h) as [O1 O2].
    rewrite goes_over_spec in O1, O2
      by (rewrite ?Em, ?Ec, ?En; lia).
    rewrite Em, Ec, En in O1, O2. rewrite Ek in O1. fold limit in O1, O2.
    rewrite targetBin_spec in Eb
      by (rewrite ?Em, ?Ec, ?En; lia).
    rewrite Em, Ec, En in Eb.
    rewrite over_ordinals_snoc, filter_app. cbn [filter Z.add].
    replace (0 + Z.of_nat (length l) + 1) with (Z.of_nat (length l) + 1) by lia.
    set (L := over_ordinals limit 0 l) in *.
    set (V := filter (fun d => d >=? limit) l) in *.
    assert (Forall (fun x => x <> 0) L) as HL
      by (apply over_ordinals_positive; lia).
    pose proof (length_over_ordinals limit l 0) as LL. fold L V in LL.
    rewrite (BinCount_in bins) in I2 |- * by (assumption || lia).
    rewrite Eb, nth_set_nth.
    assert (Z.to_nat (bins + 1) < length (binVector h))%nat as Hin
      by (rewrite El; lia).
    unfold bin_of. fold limit.
    destruct (Z.geb_spec d limit) as [G|G].
    + assert ((d <? min) = false) as -> by (apply Z.ltb_ge; subst limit; nia).
      assert ((d <? limit) = false) as -> by (apply Z.ltb_ge; lia).
      rewrite Nat.eqb_refl.
      apply Nat.ltb_lt in Hin. rewrite Hin. cbn [andb].
      rewrite I2, length_app. cbn [length].
      rewrite I1 in O1, O2.
      rewrite (first_free_trace L HL) in O1, O2 by lia.
      rewrite uint32_small in O1 by lia.
      split; [|split; [lia|]].
      * rewrite O1.
        destruct (Nat.ltb_spec (length L) OVERN_TRACE_COUNT) as [Lt|Ge].
        -- apply set_nth_trace. lia.
        -- symmetry. apply firstn_trace_full. exact Ge.
      * rewrite O2.
        destruct (Nat.ltb_spec (length L) OVERN_TRACE_COUNT) as [Lt|Ge].
        -- replace (length L + 1)%nat with (S (length L)) by lia.
           rewrite firstn_set_nth_snoc by lia.
           rewrite I3.
           rewrite !firstn_all2 by (rewrite ?length_app; cbn [length]; lia).
           reflexivity.
        -- rewrite firstn_all2 by lia.
           rewrite firstn_all2 in I3 by lia.
           rewrite I3, firstn_app.
           replace (OVERN_TRACE_COUNT - length V)%nat with 0%nat by lia.
           cbn [firstn]. now rewrite app_nil_r.
    + rewrite O1, O2, !app_nil_r.
      split; [exact I1 | split; [|exact I3]].
      rewrite <- I2.
      assert (Nat.eqb (Z.to_nat
                (if d <? min then 0
                 else if d <? limit then (d - min) / countsPer + 1
                 else bins + 1)) (Z.to_nat (bins + 1)) = false) as ->; [|reflexivity].
      apply Nat.eqb_neq.
      destruct (d <? min); [lia|].
      assert ((d <? limit) = true) as -> by (apply Z.ltb_lt; lia).
      destruct (Z_lt_dec d min) as [N|N].
      * assert ((d - min) / countsPer < 0)
          by (apply Z.div_lt_upper_bound; lia).
        lia.
      * assert ((d - min) / countsPer < bins)
          by (apply Z.div_lt_upper_bound; subst limit; lia).
        assert (0 <= (d - min) / countsPer) by (apply Z.div_pos; lia).
        lia.
Qed.

Lemma over_trace_witness :
  histogram_parameters 0 1 10 /\
  overN (Add_all [3; 50; 5; 60] (Histogram_new 0 1 10))
  = firstn OVERN_TRACE_COUNT
      (over_ordinals (0 + 1 * 10) 0 [3; 50; 5; 60]
         ++ repeat 0 OVERN_TRACE_COUNT).
Proof.
  split; [exact ten_bins|].
  refine (proj1 (over_trace 0 1 10 [3; 50; 5; 60] ten_bins _ _)).
  - repeat constructor; lia.
  - cbn. lia.
Defined.

Lemma Add_all_parameters samples :
  forall h,
  countsPerBin (Add_all samples h) = countsPerBin h /\
  nBins (Add_all samples h) = nBins h /\
  minBin (Add_all samples h) = minBin h /\
  length (binVector (Add_all samples h)) = length (binVector h).
Proof.
  induction samples as [|d l IH]; intros h; [repeat split|].
  rewrite Add_all_cons.
  destruct (IH (Add d h)) as (-> & -> & -> & ->).
  destruct (Add_fields d h) as (-> & -> & -> & _ & -> & _).
  rewrite length_set_nth. repeat split.
Qed.

(** X14: Reset gives back the histogram the constructor made: after any
    samples and a Reset, the parameters, the counters, the count, the sum, the
    extremes and overN are those of a new histogram of the same parameters,
    and MeanValue is 0.0; overValueN and overTSN are not cleared: they keep
    the values they had before the Reset, which overN no longer points
    at. *)
Theorem Reset_restores min countsPer bins samples :
  histogram_parameters min countsPer bins ->
  let before := Add_all samples (Histogram_new min countsPer bins) in
  let h := Reset before in
  let fresh := Histogram_new min countsPer bins in
  overValueN h = overValueN before /\ overTSN h = overTSN before /\
  overN h = overN fresh /\
  MinBin h = MinBin fresh /\ CountsPerBin h = CountsPerBin fresh /\
  NBins h = NBins fresh /\
  NValues h = 0 /\ MinValue h = MinValue fresh /\ MaxValue h = MaxValue fresh /\
  MaxBinCount h = 0 /\ summation h = summation fresh /\
  binVector h = binVector fresh /\
  MeanValue h = PrimFloat.zero.
Proof.
  intros (Hm & Hc & Hb).
  destruct (Add_all_parameters samples (Histogram_new min countsPer bins))
    as (Ec & En & Em & El).
  cbn [Histogram_new countsPerBin nBins minBin binVector] in Ec, En, Em, El.
  rewrite repeat_length in El. rewrite (uint32_small bins) in En by lia.
  set (a := Add_all samples (Histogram_new min countsPer bins)) in *.
  cbv zeta.
  unfold MinBin, CountsPerBin, NBins, NValues, MinValue, MaxValue, MaxBinCount,
    MeanValue, MeanValue_path, Reset.
  cbn [overN overValueN overTSN minBin countsPerBin nBins n maxData maxFreq
       summation Histogram_new minData binVector].
  rewrite Em, Ec, En, (uint32_small bins) by lia.
  repeat split.
  unfold zero_first. rewrite uint32_small by lia.
  rewrite El, Nat.min_id, skipn_all2 by lia. apply app_nil_r.
Qed.

Lemma Reset_restores_witness :
  histogram_parameters 0 1 10 /\
  binVector (Reset (Add_all [3; 50] (Histogram_new 0 1 10)))
  = binVector (Histogram_new 0 1 10).
Proof.
  split; [exact ten_bins|].
  exact (proj1 (proj2 (proj2 (proj2 (proj2 (proj2 (proj2 (proj2 (proj2 (proj2
           (proj2 (proj2
              (Reset_restores 0 1 10 [3; 50] ten_bins))))))))))))).
Defined.

(** ** histospt.cpp: what a tally adds *)

Lemma tally_n g t :
  firstTime (fst (tally g t)) = false /\
  n (histogram (fst (tally g t)))
  = (if firstTime t then n (histogram t) else uint32 (n (histogram t) + 1)) /\
  length (snd (tally g t)) = (if clock_failed g then 1%nat else 0%nat).
Proof.
  unfold tally. destruct (firstTime t), g; cbn [fst snd firstTime histogram length clock_failed];
    repeat split; try reflexivity;
    match goal with |- context [Add ?d ?h] =>
      now destruct (Add_fields d h) as (_ & _ & _ & -> & _) end.
Qed.

Lemma tally_all_snoc gs g t :
  tally_all (gs ++ [g]) t
  = (fst (tally g (fst (tally_all gs t))),
     snd (tally_all gs t) ++ snd (tally g (fst (tally_all gs t)))).
Proof. unfold tally_all. now rewrite fold_left_app. Qed.

(** X15: the first tally of a new TimeIntervalHistogram (made with a bin
    width that is not 0 and a number of bins that is not negative) only
    starts the clock and every later one adds one sample, whether its clock
    reading succeeds or fails: after n + 1 tallies (n < 2^32) NValues is n,
    and one line has been printed for each reading that failed. *)
Theorem tally_counts_intervals min countsPer bins prev next g gs :
  histogram_parameters min countsPer bins ->
  Z.of_nat (length gs) < 2 ^ 32 ->
  let r := tally_all (g :: gs)
             (TimeIntervalHistogram_new min countsPer bins prev next) in
  NValues (histogram (fst r)) = Z.of_nat (length gs) /\
  length (snd r) = length (filter clock_failed (g :: gs)).
Proof.
  intros _ Hl. cbv zeta.
  set (t0 := TimeIntervalHistogram_new min countsPer bins prev next).
  assert (firstTime (fst (tally_all (g :: gs) t0)) = false /\
          n (histogram (fst (tally_all (g :: gs) t0))) = Z.of_nat (length gs) /\
          length (snd (tally_all (g :: gs) t0))
          = length (filter clock_failed (g :: gs))) as H; [|tauto].
  induction gs as [|g' l IH] using rev_ind.
  - unfold tally_all. cbn [fold_left fst snd app].
    destruct (tally_n g t0) as (F & N & O).
    rewrite F, N, O. cbn. now destruct (clock_failed g).
  - rewrite length_app in *. cbn [length] in *.
    destruct (IH ltac:(lia)) as (F & N & O). clear IH.
    rewrite app_comm_cons, tally_all_snoc. cbn [fst snd].
    destruct (tally_n g' (fst (tally_all (g :: l) t0))) as (F' & N' & O').
    rewrite F in N'. rewrite F', N', N, length_app, O, O'.
    rewrite uint32_small by lia.
    rewrite filter_app, length_app. cbn [filter].
    repeat split; [lia|]. now destruct (clock_failed g').
Qed.

Lemma tally_counts_intervals_witness :
  histogram_parameters 0 500 40 /\
  Z.of_nat (length [TimeIs 10 5; TimeFailed 4; TimeIs 12 0]) < 2 ^ 32 /\
  NValues (histogram (fst (tally_all
             [TimeIs 10 0; TimeIs 10 5; TimeFailed 4; TimeIs 12 0]
             (TimeIntervalHistogram_new 0 500 40 (0, 0) (0, 0)))))
  = 3.
Proof.
  assert (Z.of_nat (length [TimeIs 10 5; TimeFailed 4; TimeIs 12 0]) < 2 ^ 32)
    as H by (cbn; lia).
  assert (histogram_parameters 0 500 40) as Hp
    by (unfold histogram_parameters; lia).
  split; [exact Hp|]. split; [exact H|].
  exact (proj1 (tally_counts_intervals 0 500 40 (0, 0) (0, 0) (TimeIs 10 0)
                  [TimeIs 10 5; TimeFailed 4; TimeIs 12 0] Hp H)).
Defined.

Lemma uint32_wrap64 z : uint32 (wrap64 z) = z mod 2 ^ 32.
Proof.
  unfold uint32, wrap64. rewrite (Z.mod_eq (z + 2 ^ 63)) by lia.
  set (q := (z + 2 ^ 63) / 2 ^ 64).
  replace (z + 2 ^ 63 - 2 ^ 64 * q - 2 ^ 63)
    with (z + (- q * 2 ^ 32) * 2 ^ 32) by lia.
  apply Z.mod_add. lia.
Qed.

(** X16: restartTimer adds no sample and leaves the first-time switch as it
    is.  The tally that follows it (both clock readings succeeding) adds no
    sample when it is the first tally of the object; otherwise it adds the
    microseconds from the time restartTimer read to the time the tally
    reads, (s1 - s0) * 1000000 + u1 - u0, reduced modulo 2^32 as the
    conversion to unsigned int does: the microseconds themselves when they
    are 0 or more and less than 2^32 (some 71 minutes), 2^32 more for a
    clock that went backwards by less than that.  Either way the tally
    prints nothing and keeps its reading as the start of the next
    interval. *)
Theorem tally_measures_elapsed s0 u0 s1 u1 t :
  let e := elapsed (s0, u0) (s1, u1) in
  let t0 := restartTimer (TimeIs s0 u0) t in
  let r := tally (TimeIs s1 u1) t0 in
  histogram t0 = histogram t /\ firstTime t0 = firstTime t /\
  histogram (fst r)
  = (if firstTime t then histogram t
     else Add (e mod 2 ^ 32) (histogram t)) /\
  firstTime (fst r) = false /\
  tvPrevTimeValue (fst r) = (s1, u1) /\ snd r = [].
Proof.
  cbv zeta. unfold restartTimer, tally.
  cbn [fst snd firstTime histogram tvPrevTimeValue].
  destruct (firstTime t); cbn [fst snd firstTime histogram tvPrevTimeValue];
    repeat split.
  f_equal. unfold uDelta, elapsed. cbn [fst snd]. apply uint32_wrap64.
Qed.

Example tally_one_interval :
  histogram (fst (tally (TimeIs 12 250)
                    (restartTimer (TimeIs 11 999000)
                       (mkTIH (Histogram_new 0 500 40) false (0, 0) (0, 0)))))
  = Add 1250 (Histogram_new 0 500 40).
Proof. reflexivity. Qed.

(** X17: once a tally has been made after the first one, a tally whose clock
    reading fails adds the sample 0 and keeps the time of the last reading for
    the next interval. *)
Theorem failed_clock_counts_zero g errno t :
  let t1 := fst (tally g t) in
  firstTime t = false ->
  histogram (fst (tally (TimeFailed errno) t1)) = Add 0 (histogram t1) /\
  tvPrevTimeValue (fst (tally (TimeFailed errno) t1)) = tvPrevTimeValue t1.
Proof.
  intros t1 F. subst t1. unfold tally. rewrite F.
  destruct g as [s u|e]; cbn [fst snd firstTime histogram tvNextTimeValue tvPrevTimeValue];
    (split; [|reflexivity]); f_equal; unfold uDelta;
    replace ((_ - _) * 1000000 + _ - _) with 0 by lia; reflexivity.
Qed.

Lemma failed_clock_counts_zero_witness :
  firstTime (mkTIH (Histogram_new 0 500 40) false (11, 0) (0, 0)) = false /\
  histogram (fst (tally (TimeFailed 22)
                    (fst (tally (TimeIs 12 0)
                            (mkTIH (Histogram_new 0 500 40) false
                                   (11, 0) (0, 0))))))
  = Add 0 (Add 1000000 (Histogram_new 0 500 40)).
Proof.
  split; [reflexivity|].
  exact (proj1 (failed_clock_counts_zero (TimeIs 12 0) 22
                  (mkTIH (Histogram_new 0 500 40) false (11, 0) (0, 0))
                  eq_refl)).
Defined.

(** ** dump.cpp: the lines of a dump *)

Lemma land_align p :
  0 <= p < 2 ^ 64 -> Z.land p 0xfffffffffffffff0 = p - p mod 16.
Proof.
  intros Hp.
  change 0xfffffffffffffff0 with (Z.ldiff (Z.ones 64) (Z.ones 4)).
  rewrite Z.ldiff_land, Z.land_assoc, <- Z.ldiff_land.
  rewrite Z.land_ones, Z.mod_small by lia.
  rewrite Z.ldiff_ones_r, Z.shiftr_div_pow2, Z.shiftl_mul_pow2 by lia.
  change (2 ^ 4) with 16. pose proof (Z.div_mod p 16). lia.
Qed.

Lemma length_dump_lines m pMemory size :
  forall fuel pMem pShow,
  pMemory + size - pMem <= Z.of_nat fuel ->
  length (dump_lines fuel m pMemory size pMem pShow)
  = Z.to_nat ((pMemory + size - pMem + 15) / 16).
Proof.
  induction fuel as [|fuel IH]; intros pMem pShow H.
  - cbn [dump_lines length].
    assert ((pMemory + size - pMem + 15) / 16 <= 0)
      by (apply Z.lt_succ_r, Z.div_lt_upper_bound; lia).
    lia.
  - cbn [dump_lines]. destruct (Z.ltb_spec pMem (pMemory + size)) as [L|G].
    + cbn [length]. rewrite IH by (unfold dataBytesDisplayedPerLine; lia).
      unfold dataBytesDisplayedPerLine.
      replace (pMemory + size - (pMem + 16) + 15)
        with (pMemory + size - pMem + 15 + (-1) * 16) by lia.
      rewrite Z.div_add by lia.
      assert (1 <= (pMemory + size - pMem + 15) / 16)
        by (apply Z.div_le_lower_bound; lia).
      lia.
    + cbn [length].
      assert ((pMemory + size - pMem + 15) / 16 <= 0)
        by (apply Z.lt_succ_r, Z.div_lt_upper_bound; lia).
      lia.
Qed.

Lemma nth_dump_lines m pMemory size :
  forall fuel pMem pShow i,
  (i < length (dump_lines fuel m pMemory size pMem pShow))%nat ->
  nth i (dump_lines fuel m pMemory size pMem pShow) []
  = dump_line m pMemory size (pMem + 16 * Z.of_nat i) (pShow + 16 * Z.of_nat i).
Proof.
  induction fuel as [|fuel IH]; intros pMem pShow i H; cbn [dump_lines] in *;
    [cbn in H; lia|].
  destruct (pMem <? pMemory + size); [|cbn in H; lia].
  destruct i as [|i].
  - cbn [nth]. f_equal; lia.
  - cbn [nth length] in *. rewrite IH by lia.
    unfold dataBytesDisplayedPerLine. f_equal; lia.
Qed.

Lemma length_dump_rows m pMemory size pShow :
  0 <= pMemory < 2 ^ 64 ->
  length (dump_rows m pMemory size pShow)
  = Z.to_nat ((pMemory mod 16 + size + 15) / 16).
Proof.
  intros Hp. unfold dump_rows. cbv zeta.
  rewrite (land_align pMemory Hp).
  rewrite length_dump_lines by lia. f_equal. f_equal. lia.
Qed.

(** X18: dump writes one line for every 16-byte row that the region from
    pMemory to pMemory + size reaches into, (pMemory mod 16 + size + 15) / 16
    lines in all. When size is at most -(pMemory mod 16), as a size of 0 is at
    a 16-byte boundary, it writes the header and the closing blank line only;
    for a size of 0 at any other address it writes one line, which shows no
    byte. *)
Theorem dump_row_count m pMemory size pShow :
  0 <= pMemory < 2 ^ 64 ->
  length (dump_rows m pMemory size pShow)
  = Z.to_nat ((pMemory mod 16 + size + 15) / 16) /\
  (size <= - (pMemory mod 16) ->
   dump m pMemory size pShow = dump_header ++ newline) /\
  (size = 0 -> pMemory mod 16 <> 0 ->
   length (dump_rows m pMemory size pShow) = 1%nat).
Proof.
  intros Hp.
  pose proof (length_dump_rows m pMemory size pShow Hp) as E.
  split; [exact E|]. split.
  - intros Hs. unfold dump.
    assert ((pMemory mod 16 + size + 15) / 16 <= 0) as Hz
      by (apply Z.lt_succ_r, Z.div_lt_upper_bound; lia).
    destruct (dump_rows m pMemory size pShow) as [|x t]; [reflexivity|].
    cbn [length] in E. lia.
  - intros -> Hr. rewrite E.
    pose proof (Z.mod_pos_bound pMemory 16 ltac:(lia)) as Hb.
    replace ((pMemory mod 16 + 0 + 15) / 16) with 1; [reflexivity|].
    apply Z.div_unique with (r := pMemory mod 16 - 1); lia.
Qed.

Lemma dump_row_count_witness :
  0 <= 0x80129ce3 < 2 ^ 64 /\
  length (dump_rows counting 0x80129ce3 34 0) = 3%nat.
Proof.
  split; [lia|].
  refine (proj1 (dump_row_count counting 0x80129ce3 34 0 _)). lia.
Defined.

Lemma cells_ext f g pMem :
  (forall k, 0 <= k < 16 -> f (pMem + k) = g (pMem + k)) ->
  cells f pMem = cells g pMem.
Proof.
  intros H. unfold cells.
  rewrite !flat_map_concat_map. f_equal. apply map_ext_in.
  intros k Hk. apply in_seq in Hk. f_equal. apply H.
  unfold dataBytesDisplayedPerLine in Hk. lia.
Qed.

Lemma dump_line_ext m m' pMemory size pMem pShow :
  (forall a, pMemory <= a < pMemory + size -> m a = m' a) ->
  dump_line m pMemory size pMem pShow = dump_line m' pMemory size pMem pShow.
Proof.
  intros H. unfold dump_line.
  assert (forall p, shown pMemory size p = true -> m p = m' p) as H'.
  { intros p Hs. apply H. unfold shown in Hs.
    apply andb_true_iff in Hs. destruct Hs as [A B].
    rewrite Z.geb_leb in A. apply Z.leb_le in A. apply Z.ltb_lt in B. lia. }
  rewrite (cells_ext (hex_cell m pMemory size) (hex_cell m' pMemory size)),
          (cells_ext (char_cell m pMemory size) (char_cell m' pMemory size));
    [reflexivity| |]; intros k _; unfold char_cell, hex_cell;
    destruct (shown pMemory size (pMem + k)) eqn:E; try reflexivity;
    now rewrite (H' _ E).
Qed.

Example dump_sample :
  dump_rows counting 0x41 5 0x1000
  = [list_ascii_of_string
       "        1000    414243 4445                         ABC DE            "
     ++ newline].
Proof. vm_compute. reflexivity. Qed.

(** X19: dump reads no byte outside the region it is asked for: two memories
    that agree from pMemory to pMemory + size give the same output, although
    the lines start at the 16-byte boundary below pMemory and end at the one
    above the region. *)
Theorem dump_reads_only_range m m' pMemory size pShow :
  (forall a, pMemory <= a < pMemory + size -> m a = m' a) ->
  dump m pMemory size pShow = dump m' pMemory size pShow.
Proof.
  intros H. unfold dump, dump_rows. cbv zeta. do 2 f_equal. f_equal.
  generalize (Z.to_nat (pMemory + size - Z.land pMemory 0xfffffffffffffff0)).
  generalize (Z.land pMemory 0xfffffffffffffff0) at 1 3.
  generalize (if pShow =? 0 then Z.land pMemory 0xfffffffffffffff0 else pShow).
  intros pS pM fuel. revert pM pS.
  induction fuel as [|fuel IH]; intros pM pS; [reflexivity|].
  cbn [dump_lines]. destruct (pM <? pMemory + size); [|reflexivity].
  f_equal; [now apply dump_line_ext | apply IH].
Qed.

Lemma dump_reads_only_range_witness :
  (forall a, 0x41 <= a < 0x41 + 5 ->
             counting a = (if a <? 0x50 then counting a else Byte.xff)) /\
  dump counting 0x41 5 0
  = dump (fun a => if a <? 0x50 then counting a else Byte.xff) 0x41 5 0.
Proof.
  assert (forall a, 0x41 <= a < 0x41 + 5 ->
                    counting a = (if a <? 0x50 then counting a else Byte.xff))
    as H.
  { intros a Ha. destruct (Z.ltb_spec a 0x50); [reflexivity | lia]. }
  split; [exact H|].
  exact (dump_reads_only_range counting
           (fun a => if a <? 0x50 then counting a else Byte.xff) 0x41 5 0 H).
Defined.

Lemma length_number alphabet fuel :
  (2 <= length alphabet)%nat ->
  forall v acc k,
  0 <= v < Z.of_nat (length alphabet) ^ Z.of_nat (S k) ->
  (length (number alphabet fuel v acc) <= S k + length acc)%nat.
Proof.
  intros Hb. set (b := Z.of_nat (length alphabet)).
  assert (2 <= b) as Hb' by (subst b; lia).
  induction fuel as [|fuel IH]; intros v acc k Hv; cbn [number]; [lia|].
  fold b.
  destruct (Z.eqb_spec (v / b) 0) as [E|E]; [cbn [length]; lia|].
  destruct k as [|k].
  - change (Z.of_nat 1) with 1 in Hv. rewrite Z.pow_1_r in Hv.
    rewrite Z.div_small in E by lia. contradiction.
  - specialize (IH (v / b)
                  (nth (Z.to_nat (v mod b)) alphabet "0"%char :: acc) k).
    cbn [length] in IH.
    assert (0 <= v / b < b ^ Z.of_nat (S k)) as H.
    { split; [apply Z.div_pos; lia|].
      apply Z.div_lt_upper_bound; [lia|].
      rewrite <- Z.pow_succ_r by lia.
      replace (Z.succ (Z.of_nat (S k))) with (Z.of_nat (S (S k))) by lia.
      exact (proj2 Hv). }
    specialize (IH H). lia.
Qed.

Lemma length_justify w t : (length t <= w)%nat -> length (justify w t) = w.
Proof. intros H. unfold justify. rewrite length_app, repeat_length. lia. Qed.

Lemma length_printf_12lx v : 0 <= v < 2 ^ 48 -> length (printf_12lx v) = 12%nat.
Proof.
  intros Hv. unfold printf_12lx, printf_lx. apply length_justify.
  pose proof (length_number lower_hex 16 ltac:(cbn; lia) v [] 11 Hv) as L.
  cbn [length] in L. lia.
Qed.

Lemma skipn_app_length {A} (a b : list A) j :
  skipn (length a + j) (a ++ b) = skipn j b.
Proof. induction a as [|x a IH]; [reflexivity | exact IH]. Qed.

Lemma firstn_app_length {A} (a b : list A) : firstn (length a) (a ++ b) = a.
Proof. induction a as [|x a IH]; [reflexivity | cbn; now rewrite IH]. Qed.

Section Line.

Variables h1 h2 c : Z -> ascii.
Variable pMem : Z.

Lemma hex_cells_at rest k :
  (k < 16)%nat ->
  firstn 2 (skipn (2 * k + k / 4)
                  (cells (fun p => [h1 p; h2 p]) pMem ++ rest))
  = [h1 (pMem + Z.of_nat k); h2 (pMem + Z.of_nat k)].
Proof.
  intros H. do 16 (destruct k as [|k]; [reflexivity|]). lia.
Qed.

Lemma char_cells_at rest k :
  (k < 16)%nat ->
  firstn 1 (skipn (k + k / 4) (cells (fun p => [c p]) pMem ++ rest))
  = [c (pMem + Z.of_nat k)].
Proof.
  intros H. do 16 (destruct k as [|k]; [reflexivity|]). lia.
Qed.

Lemma length_hex_cells : length (cells (fun p => [h1 p; h2 p]) pMem) = 35%nat.
Proof. reflexivity. Qed.

Lemma length_char_cells : length (cells (fun p => [c p]) pMem) = 19%nat.
Proof. reflexivity. Qed.

End Line.

Lemma hex_cell_chars m pMemory size p :
  hex_cell m pMemory size p
  = [nth 0 (hex_cell m pMemory size p) " "%char;
     nth 1 (hex_cell m pMemory size p) " "%char].
Proof. unfold hex_cell. now destruct (shown pMemory size p). Qed.

Lemma char_cell_chars m pMemory size p :
  char_cell m pMemory size p = [nth 0 (char_cell m pMemory size p) " "%char].
Proof.
  unfold char_cell. destruct (shown pMemory size p); [|reflexivity].
  now destruct (byte_value (m p) <? 32).
Qed.

Lemma dump_line_layout m pMemory size pMem pShow k :
  0 <= pShow < 2 ^ 48 -> (k < 16)%nat ->
  let row := dump_line m pMemory size pMem pShow in
  length row = 71%nat /\
  firstn 12 row = printf_12lx pShow /\
  firstn 2 (skipn (hex_column k) row)
  = hex_cell m pMemory size (pMem + Z.of_nat k) /\
  firstn 1 (skipn (char_column k) row)
  = char_cell m pMemory size (pMem + Z.of_nat k).
Proof.
  intros Hs Hk row. subst row. unfold dump_line.
  pose proof (length_printf_12lx pShow Hs) as L.
  set (A := printf_12lx pShow) in *.
  rewrite (cells_ext (hex_cell m pMemory size)
             (fun p => [nth 0 (hex_cell m pMemory size p) " "%char;
                        nth 1 (hex_cell m pMemory size p) " "%char]) pMem
             (fun k _ => hex_cell_chars m pMemory size (pMem + k))).
  rewrite (cells_ext (char_cell m pMemory size)
             (fun p => [nth 0 (char_cell m pMemory size p) " "%char]) pMem
             (fun k _ => char_cell_chars m pMemory size (pMem + k))).
  set (H1 := fun p => nth 0 (hex_cell m pMemory size p) " "%char).
  set (H2 := fun p => nth 1 (hex_cell m pMemory size p) " "%char).
  set (C := fun p => nth 0 (char_cell m pMemory size p) " "%char).
  change (cells (fun p => [nth 0 (hex_cell m pMemory size p) " "%char;
                            nth 1 (hex_cell m pMemory size p) " "%char]) pMem)
    with (cells (fun p => [H1 p; H2 p]) pMem).
  change (cells (fun p => [nth 0 (char_cell m pMemory size p) " "%char]) pMem)
    with (cells (fun p => [C p]) pMem).
  pose proof (length_hex_cells H1 H2 pMem) as LH.
  pose proof (length_char_cells C pMem) as LC.
  set (HC := cells (fun p => [H1 p; H2 p]) pMem) in *.
  set (CC := cells (fun p => [C p]) pMem) in *.
  split; [|split; [|split]].
  - rewrite !length_app, L, LH, LC. reflexivity.
  - rewrite <- L. apply firstn_app_length.
  - unfold hex_column.
    replace (14 + 2 * k + k / 4)%nat
      with (length A + (length (list_ascii_of_string "  ") + (2 * k + k / 4)))%nat
      by (rewrite L; cbn [length list_ascii_of_string]; lia).
    rewrite !skipn_app_length. subst HC.
    rewrite hex_cells_at by exact Hk.
    symmetry. apply hex_cell_chars.
  - unfold char_column.
    replace (51 + k + k / 4)%nat
      with (length A + (length (list_ascii_of_string "  ")
            + (length HC + (length (list_ascii_of_string "  ")
               + (k + k / 4)))))%nat
      by (rewrite L, LH; cbn [length list_ascii_of_string]; lia).
    rewrite !skipn_app_length. subst CC.
    rewrite char_cells_at by exact Hk.
    symmetry. apply char_cell_chars.
Qed.

Lemma read_printf_02x b : read_02x (printf_02x b) = Some (byte_value b).
Proof. destruct b; vm_compute; reflexivity. Qed.

Lemma dump_cell m pMemory size pShow i k :
  0 <= pMemory < 2 ^ 64 ->
  (i < length (dump_rows m pMemory size pShow))%nat ->
  (k < 16)%nat ->
  let pMem := pMemory - pMemory mod 16 in
  let label := (if pShow =? 0 then pMem else pShow) + 16 * Z.of_nat i in
  let p := pMem + 16 * Z.of_nat i + Z.of_nat k in
  let row := nth i (dump_rows m pMemory size pShow) [] in
  0 <= label < 2 ^ 48 ->
  length row = 71%nat /\
  firstn 12 row = printf_12lx label /\
  firstn 2 (skipn (hex_column k) row) = hex_cell m pMemory size p /\
  firstn 1 (skipn (char_column k) row) = char_cell m pMemory size p.
Proof.
  intros Hp Hi Hk pMem label p row Hl. subst row.
  unfold dump_rows in *. cbv zeta in *.
  rewrite (land_align pMemory Hp) in *. fold pMem in Hi |- *.
  rewrite nth_dump_lines by exact Hi.
  fold label.
  exact (dump_line_layout m pMemory size (pMem + 16 * Z.of_nat i) label k
           Hl Hk).
Qed.

Lemma dump_covers_region m pMemory size pShow a :
  0 <= pMemory < 2 ^ 64 ->
  pMemory <= a < pMemory + size ->
  let pMem := pMemory - pMemory mod 16 in
  let i := Z.to_nat ((a - pMem) / 16) in
  let k := Z.to_nat ((a - pMem) mod 16) in
  (i < length (dump_rows m pMemory size pShow))%nat /\ (k < 16)%nat /\
  a = pMem + 16 * Z.of_nat i + Z.of_nat k.
Proof.
  intros Hp Ha pMem i k.
  rewrite (length_dump_rows m pMemory size pShow Hp).
  pose proof (Z.mod_pos_bound pMemory 16 ltac:(lia)) as Hr.
  pose proof (Z.mod_pos_bound (a - pMem) 16 ltac:(lia)) as Hk.
  pose proof (Z.div_mod (a - pMem) 16 ltac:(lia)) as Hd.
  assert (0 <= (a - pMem) / 16) as Hq by (apply Z.div_pos; subst pMem; lia).
  assert ((a - pMem) / 16 < (pMemory mod 16 + size + 15) / 16) as Hlt.
  { apply Z.div_lt_upper_bound; [lia|].
    pose proof (Z.mul_succ_div_gt (pMemory mod 16 + size + 15) 16 ltac:(lia)).
    pose proof (Z.div_mod (pMemory mod 16 + size + 15) 16 ltac:(lia)).
    pose proof (Z.mod_pos_bound (pMemory mod 16 + size + 15) 16 ltac:(lia)).
    subst pMem. lia. }
  subst i k. repeat split; lia.
Qed.

(** X20: where a dump shows each byte. With addresses that fit twelve
    hexadecimal digits every line has 71 characters and starts with the
    address of its row; the byte at address a of the region is on line (a -
    pMem) / 16, as two hexadecimal digits that read back as its value at
    hex_column, and at char_column as itself, or as a dot when it is below
    0x20; the places of the addresses outside the region are blank. *)
Theorem dump_shows_bytes m pMemory size pShow :
  0 <= pMemory < 2 ^ 64 ->
  let pMem := pMemory - pMemory mod 16 in
  let rows := dump_rows m pMemory size pShow in
  let first := if pShow =? 0 then pMem else pShow in
  0 <= first /\ first + 16 * Z.of_nat (length rows) <= 2 ^ 48 ->
  (forall a, pMemory <= a < pMemory + size ->
     let i := Z.to_nat ((a - pMem) / 16) in
     let k := Z.to_nat ((a - pMem) mod 16) in
     (i < length rows)%nat /\
     read_02x (firstn 2 (skipn (hex_column k) (nth i rows [])))
     = Some (byte_value (m a)) /\
     firstn 1 (skipn (char_column k) (nth i rows []))
     = [if byte_value (m a) <? 0x20 then "."%char else ascii_of_byte (m a)]) /\
  (forall i k, (i < length rows)%nat -> (k < 16)%nat ->
     let p := pMem + 16 * Z.of_nat i + Z.of_nat k in
     length (nth i rows []) = 71%nat /\
     firstn 12 (nth i rows []) = printf_12lx (first + 16 * Z.of_nat i) /\
     (p < pMemory \/ pMemory + size <= p ->
      firstn 2 (skipn (hex_column k) (nth i rows []))
      = list_ascii_of_string "  " /\
      firstn 1 (skipn (char_column k) (nth i rows []))
      = list_ascii_of_string " ")).
Proof.
  intros Hp pMem rows first Hl. split.
  - intros a Ha i k.
    destruct (dump_covers_region m pMemory size pShow a Hp Ha)
      as (Hi & Hk & Ea).
    fold pMem i k rows in Hi, Hk, Ea.
    destruct (dump_cell m pMemory size pShow i k Hp Hi Hk)
      as (_ & _ & H & C); [fold pMem first; lia|].
    fold pMem rows in H, C. rewrite <- Ea in H, C.
    split; [exact Hi|]. rewrite H, C.
    unfold hex_cell, char_cell, shown.
    replace ((a >=? pMemory) && (a <? pMemory + size)) with true
      by (symmetry; rewrite Z.geb_leb; apply andb_true_iff; split;
          [apply Z.leb_le | apply Z.ltb_lt]; lia).
    split; [apply read_printf_02x|].
    now destruct (byte_value (m a) <? 32).
  - intros i k Hi Hk p.
    destruct (dump_cell m pMemory size pShow i k Hp Hi Hk)
      as (L & A & H & C); [fold pMem first; lia|].
    fold pMem rows first p in L, A, H, C.
    split; [exact L|]. split; [exact A|].
    intros Hout. rewrite H, C. unfold hex_cell, char_cell, shown.
    replace ((p >=? pMemory) && (p <? pMemory + size)) with false;
      [split; reflexivity|].
    symmetry. rewrite Z.geb_leb. apply andb_false_iff.
    destruct Hout; [left; apply Z.leb_gt | right; apply Z.ltb_ge]; lia.
Qed.

Lemma dump_shows_bytes_witness :
  0 <= 0x41 < 2 ^ 64 /\
  read_02x (firstn 2 (skipn (hex_column 3) (nth 0 (dump_rows counting 0x41 5 0) [])))
  = Some 0x43.
Proof.
  split; [lia|].
  refine (proj1 (proj2 (proj1 (dump_shows_bytes counting 0x41 5 0 _ _) 0x43 _))).
  - lia.
  - vm_compute. split; discriminate.
  - lia.
Defined.

(** ** histospt.cpp: the labels DisplayHistBins writes *)

Lemma length_number_fuel alphabet fuel :
  forall v acc,
  (length (number alphabet fuel v acc) <= fuel + length acc)%nat.
Proof.
  induction fuel as [|fuel IH]; intros v acc; cbn [number]; [lia|].
  destruct (_ =? 0); [cbn [length]; lia|].
  specialize (IH (v / Z.of_nat (length alphabet))
                (nth (Z.to_nat (v mod Z.of_nat (length alphabet))) alphabet
                     "0"%char :: acc)).
  cbn [length] in IH. lia.
Qed.

Lemma length_justify_le w t n :
  (w <= n)%nat -> (length t <= n)%nat -> (length (justify w t) <= n)%nat.
Proof. intros. unfold justify. rewrite length_app, repeat_length. lia. Qed.

Lemma length_bin_label h radix nb i :
  (length (bin_label h radix nb i) <= 11)%nat.
Proof.
  unfold bin_label.
  destruct (i =? 0); [cbn; lia|].
  destruct (i <? nb + 1); [|cbn; lia].
  destruct (radix =? base10); unfold sprintf_6u, sprintf_6X;
    rewrite length_app; cbn [length list_ascii_of_string];
    match goal with |- (length (justify 6 ?t) + 1 <= 11)%nat =>
      pose proof (length_justify_le 6 t 10 ltac:(lia)) as L end.
  - pose proof (length_number_fuel decimal 10 (uint32 (MinBin h + (i - 1) * CountsPerBin h)) []).
    cbn [length] in *. lia.
  - pose proof (length_number_fuel upper_hex 8 (uint32 (MinBin h + (i - 1) * CountsPerBin h)) []).
    cbn [length] in *. lia.
Qed.

Lemma nth_map_seq {A} (f : nat -> A) n j d :
  (j < n)%nat -> nth j (map f (seq 0 n)) d = f j.
Proof.
  intros H.
  rewrite nth_indep with (d' := f 0%nat) by now rewrite length_map, length_seq.
  rewrite map_nth, seq_nth by lia. reflexivity.
Qed.

Lemma shows_strncpy row column str d :
  shows (strncpy_window row column str d) row column (length str) = str.
Proof.
  unfold shows.
  apply nth_ext with (d := " "%char) (d' := " "%char).
  - now rewrite length_map, length_seq.
  - intros j Hj. rewrite length_map, length_seq in Hj.
    rewrite nth_map_seq by exact Hj.
    unfold strncpy_window. cbn [window].
    replace ((row * (width + 1) + column <=? row * (width + 1) + column + Z.of_nat j)
             && (row * (width + 1) + column + Z.of_nat j
                 <? row * (width + 1) + column + Z.of_nat (length str)))
      with true
      by (symmetry; apply andb_true_iff; split;
          [apply Z.leb_le | apply Z.ltb_lt]; lia).
    f_equal. lia.
Qed.

Lemma window_strncpy_other row column str d x :
  x < row * (width + 1) + column \/
  row * (width + 1) + column + Z.of_nat (length str) <= x ->
  window (strncpy_window row column str d) x = window d x.
Proof.
  intros H. unfold strncpy_window. cbn [window].
  destruct (Z.leb_spec (row * (width + 1) + column) x);
    destruct (Z.ltb_spec x (row * (width + 1) + column + Z.of_nat (length str)));
    cbn [andb]; try reflexivity; lia.
Qed.

Lemma shows_ext d d' row column n :
  (forall j, (j < n)%nat ->
     window d' (row * (width + 1) + column + Z.of_nat j)
     = window d (row * (width + 1) + column + Z.of_nat j)) ->
  shows d' row column n = shows d row column n.
Proof.
  intros H. unfold shows. apply map_ext_in. intros j Hj.
  apply in_seq in Hj. apply H. lia.
Qed.

Lemma uint32_add_mul a k c :
  uint32 (uint32 (a + k * c) + uint32 c) = uint32 (a + (k + 1) * c).
Proof.
  unfold uint32. rewrite <- Z.add_mod by lia. f_equal. lia.
Qed.

Lemma DisplayHistBins_turn_spec h radix nb i thisBin d :
  0 <= i ->
  thisBin = uint32 (MinBin h + Z.max 0 (Z.min (i - 1) nb) * CountsPerBin h)
  \/ (i = 0 /\ thisBin = MinBin h) ->
  0 <= MinBin h < 2 ^ 32 ->
  let r := DisplayHistBins_turn nb (uint32 (CountsPerBin h)) radix (thisBin, d) i in
  fst r = uint32 (MinBin h + Z.max 0 (Z.min i nb) * CountsPerBin h) /\
  snd r = strncpy_window (i + top d) (col d) (bin_label h radix nb i) d.
Proof.
  intros Hi Ht Hm r. subst r.
  assert (thisBin = uint32 (MinBin h + Z.max 0 (Z.min (i - 1) nb) * CountsPerBin h))
    as E.
  { destruct Ht as [E|[-> ->]]; [exact E|].
    replace (Z.max 0 (Z.min (0 - 1) nb)) with 0 by lia.
    rewrite Z.mul_0_l, Z.add_0_r. symmetry. now apply uint32_small. }
  unfold DisplayHistBins_turn, bin_label.
  destruct (Z.eqb_spec i 0) as [->|N].
  - cbn [fst snd]. split; [|reflexivity].
    rewrite E. f_equal. lia.
  - destruct (Z.ltb_spec i (nb + 1)) as [L|G]; cbn [fst snd].
    + replace (Z.max 0 (Z.min (i - 1) nb)) with (i - 1) in E by lia.
      replace (Z.max 0 (Z.min i nb)) with (i - 1 + 1) by lia.
      rewrite E. split; [apply uint32_add_mul | reflexivity].
    + split; [|reflexivity]. rewrite E. f_equal. lia.
Qed.

Lemma seq_snoc j : seq 0 (S j) = seq 0 j ++ [j].
Proof. rewrite seq_S. reflexivity. Qed.

Lemma DisplayHistBins_rows h radix nb d :
  0 <= MinBin h < 2 ^ 32 ->
  forall j,
  let r := fold_left (DisplayHistBins_turn nb (uint32 (CountsPerBin h)) radix)
                     (map Z.of_nat (seq 0 j)) (MinBin h, d) in
  (j = 0%nat \/
   fst r = uint32 (MinBin h
                   + Z.max 0 (Z.min (Z.of_nat j - 1) nb) * CountsPerBin h)) /\
  top (snd r) = top d /\ col (snd r) = col d /\
  (forall i, 0 <= i < Z.of_nat j ->
     shows (snd r) (top d + i) (col d) (length (bin_label h radix nb i))
     = bin_label h radix nb i) /\
  (forall x,
     (forall i t, 0 <= i < Z.of_nat j -> 0 <= t <= 10 ->
                  x <> (top d + i) * (width + 1) + col d + t) ->
     window (snd r) x = window d x).
Proof.
  intros Hm. induction j as [|j IH]; intros r.
  - subst r. cbn [seq map fold_left fst snd].
    split; [now left|]. split; [reflexivity|]. split; [reflexivity|].
    split; [intros i Hi; lia | reflexivity].
  - subst r. rewrite seq_snoc, map_app, fold_left_app. cbn [map fold_left].
    cbv zeta in IH. destruct IH as (T & Tp & Cl & Rw & Out).
    destruct (fold_left (DisplayHistBins_turn nb (uint32 (CountsPerBin h)) radix)
                        (map Z.of_nat (seq 0 j)) (MinBin h, d))
      as [thisBin d0] eqn:Er0.
    cbn [fst snd] in *.
    destruct (DisplayHistBins_turn_spec h radix nb (Z.of_nat j) thisBin d0)
      as (S1 & S2); [lia | | exact Hm |].
    { destruct T as [->|T]; [right|left; exact T].
      split; [reflexivity|]. cbn in Er0. now inversion Er0. }
    rewrite S2, Tp, Cl.
    pose proof (length_bin_label h radix nb (Z.of_nat j)) as Lj.
    split; [right; rewrite S1; f_equal; f_equal; f_equal; lia|].
    split; [exact Tp|]. split; [exact Cl|]. split.
    + intros i Hi.
      destruct (Z.eq_dec i (Z.of_nat j)) as [->|Ne].
      * rewrite (Z.add_comm (top d)). apply shows_strncpy.
      * etransitivity; [|apply (Rw i); lia]. apply shows_ext.
        intros t Ht. apply window_strncpy_other.
        pose proof (length_bin_label h radix nb i) as Li.
        unfold width. left. lia.
    + intros x Hx.
      rewrite window_strncpy_other; [apply Out; intros i t Hi Ht; apply Hx; lia|].
      destruct (Z_lt_dec x ((Z.of_nat j + top d) * (width + 1) + col d));
        [now left|right].
      destruct (Z_le_dec ((Z.of_nat j + top d) * (width + 1) + col d
                          + Z.of_nat (length (bin_label h radix nb (Z.of_nat j)))) x);
        [assumption|exfalso].
      apply (Hx (Z.of_nat j)
                (x - ((Z.of_nat j + top d) * (width + 1) + col d)));
        unfold width in *; lia.
Qed.

(** X21: with nb the smaller of height - 10 and NBins, DisplayHistBins writes
    nb + 2 labels, one a row from row top on, at column col: the word Under,
    then for i from 1 to nb the value MinBin + (i - 1) * CountsPerBin (modulo
    2^32) right-justified in six columns (decimal or upper-case hexadecimal)
    and a blank, then the word Over (which comes on the row of bin nb + 1 when
    there are more than nb bins); no label overwrites another, and nothing is
    written but the first eleven characters of those rows from column col on. *)
Theorem bin_labels h d radix :
  0 <= MinBin h < 2 ^ 32 ->
  let nb := Z.min (height - 10) (NBins h) in
  let d' := DisplayHistBins h d radix in
  (forall i, 0 <= i <= nb + 1 ->
     shows d' (top d + i) (col d) (length (bin_label h radix nb i))
     = bin_label h radix nb i) /\
  (forall x,
     (forall i t, 0 <= i <= nb + 1 -> 0 <= t <= 10 ->
                  x <> (top d + i) * (width + 1) + col d + t) ->
     window d' x = window d x) /\
  top d' = top d /\ col d' = col d.
Proof.
  intros Hm nb d'. subst d'. unfold DisplayHistBins. cbv zeta. fold nb.
  destruct (DisplayHistBins_rows h radix nb d Hm (Z.to_nat (nb + 2)))
    as (_ & Tp & Cl & Rw & Out).
  split; [|split; [|split; [exact Tp | exact Cl]]].
  - intros i Hi. apply Rw. lia.
  - intros x Hx. apply Out. intros i t Hi Ht. apply Hx; lia.
Qed.

Lemma bin_labels_witness :
  0 <= MinBin (Histogram_new 0 500 40) < 2 ^ 32 /\
  shows (DisplayHistBins (Histogram_new 0 500 40) (canvass_new blank) base10)
        (3 + 2) 0 7
  = list_ascii_of_string "   500 ".
Proof.
  assert (0 <= MinBin (Histogram_new 0 500 40) < 2 ^ 32) as H by (cbn; lia).
  split; [exact H|].
  refine (proj1 (bin_labels (Histogram_new 0 500 40) (canvass_new blank)
                   base10 H) 2 _).
  vm_compute. split; discriminate.
Defined.

(** X22: on the canvass the constructor makes (top 3, col 0) DisplayHistBins
    changes characters of the rows 3 to 52 and the columns 0 to 10 only,
    whatever the histogram: it stays within the height rows, and it never
    reaches the end of a row, where the terminating null is. *)
Theorem labels_stay_on_canvass h w radix :
  0 <= MinBin h < 2 ^ 32 ->
  let d' := DisplayHistBins h (canvass_new w) radix in
  forall x,
    window d' x <> w x ->
    exists row column,
      x = row * (width + 1) + column /\
      3 <= row <= 52 /\ row < height /\ 0 <= column <= 10 /\ column < width.
Proof.
  intros Hm d' x Hx.
  set (nb := Z.min (height - 10) (NBins h)).
  assert (forall y,
            (forall i t, 0 <= i <= nb + 1 -> 0 <= t <= 10 ->
                         y <> (3 + i) * (width + 1) + 0 + t) ->
            window d' y = w y) as Out.
  { intros y Hy. subst d'. unfold DisplayHistBins. cbv zeta. fold nb.
    destruct (DisplayHistBins_rows h radix nb (canvass_new w) Hm
                (Z.to_nat (nb + 2))) as (_ & _ & _ & _ & O).
    apply O. intros i t Hi Ht. apply Hy; lia. }
  assert (nb <= 48) as Hnb by (subst nb; unfold height; lia).
  destruct (Z_le_dec (3 * (width + 1)) x) as [L|L];
    [destruct (Z_le_dec ((x - 3 * (width + 1)) / (width + 1)) (nb + 1)) as [M|M];
     [destruct (Z_le_dec ((x - 3 * (width + 1)) mod (width + 1)) 10) as [K|K]|]|].
  - exists (3 + (x - 3 * (width + 1)) / (width + 1)),
           ((x - 3 * (width + 1)) mod (width + 1)).
    pose proof (Z.div_mod (x - 3 * (width + 1)) (width + 1)
                  ltac:(unfold width; lia)) as Dm.
    pose proof (Z.mod_pos_bound (x - 3 * (width + 1)) (width + 1)
                  ltac:(unfold width; lia)) as Mb.
    assert (0 <= (x - 3 * (width + 1)) / (width + 1))
      by (apply Z.div_pos; unfold width in *; lia).
    unfold width, height in *. repeat split; lia.
  - exfalso. apply Hx, Out. intros i t Hi Ht E.
    apply K. rewrite E.
    replace ((3 + i) * (width + 1) + 0 + t - 3 * (width + 1))
      with (t + i * (width + 1)) by lia.
    rewrite Z.mod_add, Z.mod_small by (unfold width; lia). lia.
  - exfalso. apply Hx, Out. intros i t Hi Ht E.
    apply M. rewrite E.
    replace ((3 + i) * (width + 1) + 0 + t - 3 * (width + 1))
      with (t + i * (width + 1)) by lia.
    rewrite Z.div_add, Z.div_small by (unfold width; lia). lia.
  - exfalso. apply Hx, Out. intros i t Hi Ht E. unfold width in *. lia.
Qed.

Lemma labels_stay_on_canvass_witness :
  0 <= MinBin (Histogram_new 0 500 40) < 2 ^ 32 /\
  exists row column,
    241 = row * (width + 1) + column /\
    3 <= row <= 52 /\ row < height /\ 0 <= column <= 10 /\ column < width.
Proof.
  assert (0 <= MinBin (Histogram_new 0 500 40) < 2 ^ 32) as H by (cbn; lia).
  split; [exact H|].
  refine (labels_stay_on_canvass (Histogram_new 0 500 40) blank base10 H 241 _).
  vm_compute. discriminate.
Defined.

Lemma BinCount_target min countsPer bins k d h :
  0 <= bins < 2 ^ 31 -> 0 <= k -> k + 1 < 2 ^ 32 ->
  counted min countsPer bins k h ->
  BinCount (targetBin d h) (Add d h) = BinCount (targetBin d h) h + 1.
Proof.
  intros Hb Hk0 Hk C.
  destruct (counted_Add min countsPer bins k d h Hb Hk0 Hk C) as (C' & Eb & Hlt).
  destruct C as (_ & _ & En & _). destruct C' as (_ & _ & En' & _).
  pose proof (targetBin_range d h) as R. rewrite En in R.
  specialize (R ltac:(lia) ltac:(lia)).
  rewrite !(BinCount_in bins) by (assumption || lia).
  rewrite Eb, nth_set_nth, Nat.eqb_refl.
  apply Nat.ltb_lt in Hlt. now rewrite Hlt.
Qed.

(** X23: the label of a bin's row is the least value counted in that bin: for
    i from 1 to nb the row of bin i shows v = min + (i - 1) * countsPer, and
    Add counts in bin i every sample from v up to the next label, v +
    countsPer (the range not reaching 2^32). *)
Theorem labels_match_bins min countsPer bins samples i data :
  histogram_parameters min countsPer bins ->
  Z.of_nat (length samples) + 1 < 2 ^ 32 ->
  min + countsPer * bins < 2 ^ 32 ->
  let h := Add_all samples (Histogram_new min countsPer bins) in
  let nb := Z.min (height - 10) (NBins h) in
  1 <= i <= nb ->
  let v := min + (i - 1) * countsPer in
  bin_label h base10 nb i = sprintf_6u v /\
  (v <= data < v + countsPer ->
   BinCount i (Add data h) = BinCount i h + 1).
Proof.
  intros Hp Hl Hw h nb Hi v.
  pose proof (counted_Add_all min countsPer bins samples Hp ltac:(lia)) as C.
  fold h in C. pose proof C as (Em & Ec & En & _).
  destruct Hp as (Hm & Hc & Hb).
  assert (NBins h = bins) as EN.
  { unfold NBins. rewrite En. unfold int32. rewrite Z.mod_small; lia. }
  assert (nb <= bins) as Hnb by (subst nb; rewrite EN; lia).
  assert ((i - 1) * countsPer + countsPer <= countsPer * bins) as Hv by nia.
  assert (0 <= (i - 1) * countsPer) as Hv0 by nia.
  split.
  - unfold bin_label, MinBin, CountsPerBin. rewrite Em, Ec.
    replace (i =? 0) with false by (symmetry; apply Z.eqb_neq; lia).
    replace (i <? nb + 1) with true by (symmetry; apply Z.ltb_lt; lia).
    cbn [Z.eqb base10]. fold v. rewrite uint32_small by (subst v; lia).
    reflexivity.
  - intros Hd.
    assert (targetBin data h = i) as T.
    { rewrite targetBin_spec by (rewrite ?Em, ?Ec, ?En; subst v; lia).
      rewrite Em, Ec, En. unfold bin_of.
      replace (data <? min) with false
        by (symmetry; apply Z.ltb_ge; subst v; lia).
      replace (data <? min + countsPer * bins) with true
        by (symmetry; apply Z.ltb_lt; subst v; lia).
      assert ((data - min) / countsPer = i - 1); [|lia].
      symmetry. apply Z.div_unique with (r := data - min - (i - 1) * countsPer);
        subst v; lia. }
    rewrite <- T.
    apply (BinCount_target min countsPer bins (Z.of_nat (length samples)));
      (assumption || lia).
Qed.

Lemma labels_match_bins_witness :
  histogram_parameters 0 500 40 /\
  BinCount 3 (Add 1250 (Add_all [3] (Histogram_new 0 500 40)))
  = BinCount 3 (Add_all [3] (Histogram_new 0 500 40)) + 1.
Proof.
  assert (histogram_parameters 0 500 40) as H
    by (unfold histogram_parameters; lia).
  split; [exact H|].
  refine (proj2 (labels_match_bins 0 500 40 [3] 3 1250 H _ _ _) _).
  - cbn. lia.
  - lia.
  - vm_compute. split; discriminate.
  - lia.
Defined.
